(** * maxzilla-async-gen: AsyncAPI v3 to TypeScript type generator

    A shallow embedding of the reference-preserving extractor
    ([src/parser/asyncapi-parser.ts]) and of the type compiler
    ([src/generator/typescript-generator.ts]), with the properties the
    specification states about them. *)

From Stdlib Require Import String Ascii List Bool Arith NArith Lia DecimalString.
Import ListNotations.
Open Scope string_scope.
Open Scope list_scope.

Set Warnings "-register-all".

(** ** Data model ([src/types/index.ts]) *)

(** [SchemaObject]: every field optional.  [properties] keeps insertion
    order, so it is an association list. *)
Inductive SchemaObject : Type :=
  mkSchemaObject {
    so_type : option string;
    so_properties : option (list (string * SchemaObject));
    so_items : option SchemaObject;
    so_required : option (list string);
    so_enum : option (list string);
    so_description : option string;
    so_ref : option string;
    so_allOf : option (list SchemaObject);
    so_anyOf : option (list SchemaObject);
    so_oneOf : option (list SchemaObject);
    so_format : option string;
    so_additionalProperties : option (bool + SchemaObject)
  }.

(** The object literal [{}]. *)
Definition emptySchema : SchemaObject :=
  mkSchemaObject None None None None None None None None None None None None.

(** The object [{ $ref: r }]. *)
Definition refOnly (r : string) : SchemaObject :=
  mkSchemaObject None None None None None None (Some r) None None None None None.

Record ParsedMessage : Type :=
  mkParsedMessage {
    pm_name : string;
    pm_description : option string;
    pm_payload : SchemaObject;
    pm_headers : option SchemaObject
  }.

Record ParsedOperation : Type :=
  mkParsedOperation {
    po_action : string;
    po_channel : string;
    po_messages : list ParsedMessage;
    po_description : option string
  }.

Record ChannelOperations : Type :=
  mkChannelOperations {
    ops_send : list ParsedOperation;
    ops_receive : list ParsedOperation
  }.

Record ParsedChannel : Type :=
  mkParsedChannel {
    pc_name : string;
    pc_address : option string;
    pc_description : option string;
    pc_messages : list ParsedMessage;
    pc_operations : ChannelOperations
  }.

Record ParsedAsyncAPI : Type :=
  mkParsedAsyncAPI {
    pa_title : string;
    pa_version : string;
    pa_description : option string;
    pa_channels : list ParsedChannel;
    pa_messages : list ParsedMessage;
    pa_schemas : list (string * SchemaObject)
  }.

(** ** The raw, unresolved document: the value of [JSON.parse(content)] *)

Inductive json : Type :=
| JNull
| JBool (b : bool)
| JNum (n : nat)
| JStr (s : string)
| JArr (l : list json)
| JObj (l : list (string * json)).

Fixpoint assoc {A : Type} (k : string) (l : list (string * A)) : option A :=
  match l with
  | [] => None
  | (k', v) :: t => if String.eqb k k' then Some v else assoc k t
  end.

(** [raw?.[k]] for a string key: [undefined] on [undefined], [null] and on
    the values that carry no own property of that name. *)
Definition jget (raw : option json) (k : string) : option json :=
  match raw with
  | Some (JObj l) => assoc k l
  | _ => None
  end.

(** [raw?.[i]] for an array index. *)
Definition jidx (raw : option json) (i : nat) : option json :=
  match raw with
  | Some (JArr l) => nth_error l i
  | _ => None
  end.

(** JavaScript truthiness of a string. *)
Definition truthy_str (s : string) : bool := negb (String.eqb s "").

(** [rawSchemaPath && rawSchemaPath.$ref]: the pointer when it is truthy.
    A document that reached [extractData] went through the reference
    resolver of the validating parser, so a [$ref] member is a string. *)
Definition raw_ref (raw : option json) : option string :=
  match jget raw "$ref" with
  | Some (JStr s) => if truthy_str s then Some s else None
  | _ => None
  end.

(** ** The resolved view of a schema

    [getSchemaProperty(schema, prop)] reads a property through an accessor
    method or as a plain member and maps [null] to [undefined].  [rschema]
    records what it returns for each property the extractor asks for, for
    a schema and the schemas below it as far as one conversion visits
    them: a finite tree.  The object graph the validating parser hands
    over, which may be cyclic, and the visit that unfolds it into such a
    tree come further down ([gschema], [visit]). *)
Inductive rschema : Type :=
  mkRSchema {
    r_type : option string;
    r_description : option string;
    r_format : option string;
    r_properties : option (list (string * rschema));
    r_items : option rschema;
    r_required : option (list string);
    r_enum : option (list string);
    r_allOf : option (list rschema);
    r_anyOf : option (list rschema);
    r_oneOf : option (list rschema);
    r_ref : option string;
    r_additionalProperties : option (bool + rschema)
  }.

Definition keep_truthy (v : option string) : option string :=
  match v with
  | Some s => if truthy_str s then Some s else None
  | None => None
  end.

Definition keep_nonempty {A : Type} (v : option (list A)) : option (list A) :=
  match v with
  | Some (x :: t) => Some (x :: t)
  | _ => None
  end.

(** [array.map((s, i) => f(s, i))], with the index of the first element. *)
Fixpoint mapi {A B : Type} (f : A -> nat -> B) (l : list A) (i : nat)
  : list B :=
  match l with
  | [] => []
  | x :: t => f x i :: mapi f t (S i)
  end.

(** [convertSchemaToObject] for a schema that is present. *)
Fixpoint convertSchema (schema : rschema) (rawSchemaPath : option json)
  : SchemaObject :=
  match raw_ref rawSchemaPath with
  | Some r => refOnly r
  | None =>
    let branches (field : string) (l : list rschema) : list SchemaObject :=
      mapi (fun s i => convertSchema s (jidx (jget rawSchemaPath field) i))
           l 0 in
    mkSchemaObject
      (keep_truthy (r_type schema))
      (match r_properties schema with
       | Some (p :: t) =>
         Some (map (fun entry =>
                      (fst entry,
                       convertSchema (snd entry)
                         (jget (jget rawSchemaPath "properties")
                               (fst entry))))
                   (p :: t))
       | _ => None
       end)
      (match r_items schema with
       | Some items => Some (convertSchema items (jget rawSchemaPath "items"))
       | None => None
       end)
      (keep_nonempty (r_required schema))
      (keep_nonempty (r_enum schema))
      (keep_truthy (r_description schema))
      (keep_truthy (r_ref schema))
      (match r_allOf schema with
       | Some l => Some (branches "allOf" l)
       | None => None
       end)
      (match r_anyOf schema with
       | Some l => Some (branches "anyOf" l)
       | None => None
       end)
      (match r_oneOf schema with
       | Some l => Some (branches "oneOf" l)
       | None => None
       end)
      (keep_truthy (r_format schema))
      (match r_additionalProperties schema with
       | Some (inl b) => Some (inl b)
       | Some (inr s) =>
         Some (inr (convertSchema s
                      (jget rawSchemaPath "additionalProperties")))
       | None => None
       end)
  end.

(** [convertSchemaToObject(schema, rawSchemaPath)]: [{}] for a missing
    schema, before the raw document is looked at. *)
Definition convertSchemaToObject (schema : option rschema)
    (rawSchemaPath : option json) : SchemaObject :=
  match schema with
  | None => emptySchema
  | Some s => convertSchema s rawSchemaPath
  end.

(** ** The document model of the validating parser ([@asyncapi/parser])

    Only what the extractor reads through the accessor methods
    [id()], [address()], [description()], [payload()], [headers()],
    [messages().all()], [channels().all()], [action()]. *)

Record LMessage : Type :=
  mkLMessage {
    m_id : string;
    m_description : option string;
    m_payload : option rschema;
    m_headers : option rschema
  }.

Record LChannel : Type :=
  mkLChannel {
    c_id : string;
    c_address : option string;
    c_description : option string;
    c_messages : list LMessage
  }.

Record LOperation : Type :=
  mkLOperation {
    o_channels : list LChannel;
    o_action : string;
    o_messages : list LMessage;
    o_description : option string
  }.

Record LComponents : Type :=
  mkLComponents {
    comp_messages : list LMessage;
    comp_schemas : list (string * rschema)
  }.

Record LDocument : Type :=
  mkLDocument {
    d_title : string;
    d_version : string;
    d_description : option string;
    d_channels : list LChannel;
    d_operations : list LOperation;
    d_components : option LComponents
  }.

(** ** Extraction ([AsyncAPIParser], private methods) *)

Definition convertMessage (msg : LMessage) : ParsedMessage :=
  mkParsedMessage (m_id msg) (m_description msg)
    (convertSchemaToObject (m_payload msg) None)
    (match m_headers msg with
     | Some h => Some (convertSchemaToObject (Some h) None)
     | None => None
     end).

Definition extractMessagesFromChannel (channel : LChannel)
  : list ParsedMessage :=
  map convertMessage (c_messages channel).

(** [operation.channels().all()[0]] and the test
    [channel && channel.id() === channelId]. *)
Definition firstChannelIs (operation : LOperation) (channelId : string)
  : bool :=
  match o_channels operation with
  | channel :: _ => String.eqb (c_id channel) channelId
  | [] => false
  end.

Definition convertOperation (operation : LOperation) (channelId : string)
  : ParsedOperation :=
  mkParsedOperation (o_action operation) channelId
    (map convertMessage (o_messages operation))
    (o_description operation).

(** The body of [ops.all().forEach(...)], folded over the operations in
    order; [push] appends. *)
Definition addOperation (channelId : string) (operations : ChannelOperations)
    (operation : LOperation) : ChannelOperations :=
  if firstChannelIs operation channelId then
    let op := convertOperation operation channelId in
    if String.eqb (o_action operation) "send" then
      mkChannelOperations (ops_send operations ++ [op])
                          (ops_receive operations)
    else if String.eqb (o_action operation) "receive" then
      mkChannelOperations (ops_send operations)
                          (ops_receive operations ++ [op])
    else operations
  else operations.

Definition extractOperationsFromChannel (document : LDocument)
    (channelId : string) : ChannelOperations :=
  fold_left (addOperation channelId) (d_operations document)
            (mkChannelOperations [] []).

Definition extractChannels (document : LDocument) : list ParsedChannel :=
  map (fun channel =>
         mkParsedChannel (c_id channel) (c_address channel)
           (c_description channel)
           (extractMessagesFromChannel channel)
           (extractOperationsFromChannel document (c_id channel)))
      (d_channels document).

(** [this.rawSpec?.components?.[kind]?.[id]]. *)
Definition rawComponent (rawSpec : option json) (kind id : string)
  : option json :=
  jget (jget (jget rawSpec "components") kind) id.

Definition extractAllMessages (rawSpec : option json) (document : LDocument)
  : list ParsedMessage :=
  match d_components document with
  | Some components =>
    map (fun message =>
           let rawMessage := rawComponent rawSpec "messages" (m_id message) in
           mkParsedMessage (m_id message) (m_description message)
             (convertSchemaToObject (m_payload message)
                (jget rawMessage "payload"))
             (match m_headers message with
              | Some h =>
                Some (convertSchemaToObject (Some h)
                        (jget rawMessage "headers"))
              | None => None
              end))
        (comp_messages components)
  | None => []
  end.

(** *** Keys of a plain object

    [schemas] is created by [{}] and filled by [schemas[schemaId] = v].
    The list models its own enumerable properties in the order
    [Object.keys] gives them: the array indices first, in ascending order,
    then the other keys in the order they were created. *)

Fixpoint decimalValue (s : string) (acc : N) : option N :=
  match s with
  | EmptyString => Some acc
  | String c t =>
    let n := nat_of_ascii c in
    if ((48 <=? n)%nat && (n <=? 57)%nat)%bool then
      decimalValue t (10 * acc + N.of_nat (n - 48))%N
    else None
  end.

(** An array index: the canonical decimal numeral of an integer from 0 to
    2^32 - 2. *)
Definition arrayIndex (k : string) : option N :=
  match k with
  | EmptyString => None
  | String c t =>
    if (Ascii.eqb c "0" && negb (String.eqb t ""))%bool then None
    else
      match decimalValue k 0 with
      | Some n => if (n <? 4294967295)%N then Some n else None
      | None => None
      end
  end.

Fixpoint replaceValue {A : Type} (k : string) (v : A) (l : list (string * A))
  : list (string * A) :=
  match l with
  | [] => []
  | (k', v') :: t =>
    if String.eqb k k' then (k', v) :: t else (k', v') :: replaceValue k v t
  end.

(** A new array index goes in front of the first key that is a greater
    index or no index. *)
Fixpoint insertIndex {A : Type} (n : N) (k : string) (v : A)
    (l : list (string * A)) : list (string * A) :=
  match l with
  | [] => [(k, v)]
  | (k', v') :: t =>
    match arrayIndex k' with
    | Some m =>
      if (m <? n)%N then (k', v') :: insertIndex n k v t
      else (k, v) :: (k', v') :: t
    | None => (k, v) :: (k', v') :: t
    end
  end.

(** [schemas[k] = v].  The key [__proto__] names the accessor of
    [Object.prototype]: the assignment replaces the prototype of [schemas]
    and creates no property.  A key that is there keeps its place. *)
Definition setKey {A : Type} (k : string) (v : A) (l : list (string * A))
  : list (string * A) :=
  if String.eqb k "__proto__" then l
  else if existsb (String.eqb k) (map fst l) then replaceValue k v l
  else
    match arrayIndex k with
    | Some n => insertIndex n k v l
    | None => (l ++ [(k, v)])%list
    end.

Definition extractSchemas (rawSpec : option json) (document : LDocument)
  : list (string * SchemaObject) :=
  match d_components document with
  | Some components =>
    fold_left
      (fun schemas entry =>
         let '(schemaId, schema) := entry in
         setKey schemaId
           (convertSchemaToObject (Some schema)
              (rawComponent rawSpec "schemas" schemaId))
           schemas)
      (comp_schemas components) []
  | None => []
  end.

Definition extractData (rawSpec : option json) (document : LDocument)
  : ParsedAsyncAPI :=
  mkParsedAsyncAPI (d_title document) (d_version document)
    (d_description document)
    (extractChannels document)
    (extractAllMessages rawSpec document)
    (extractSchemas rawSpec document).

(** ** The object graph of the validating parser

    The reference resolver of the validating parser replaces a pointer by
    the object it points to, so a schema that refers to itself comes back
    as a cyclic object graph.  [gschema] is one schema object of the graph:
    what [getSchemaProperty] returns for each property the extractor asks
    for, with the schemas below it given by their addresses in the
    graph. *)

Record gschema : Type :=
  mkGSchema {
    g_type : option string;
    g_description : option string;
    g_format : option string;
    g_properties : option (list (string * nat));
    g_items : option nat;
    g_required : option (list string);
    g_enum : option (list string);
    g_allOf : option (list nat);
    g_anyOf : option (list nat);
    g_oneOf : option (list nat);
    g_ref : option string;
    g_additionalProperties : option (bool + nat)
  }.

Definition SchemaGraph : Type := nat -> gschema.

Record GMessage : Type :=
  mkGMessage {
    gm_id : string;
    gm_description : option string;
    gm_payload : option nat;
    gm_headers : option nat
  }.

Record GChannel : Type :=
  mkGChannel {
    gc_id : string;
    gc_address : option string;
    gc_description : option string;
    gc_messages : list GMessage
  }.

Record GOperation : Type :=
  mkGOperation {
    go_channels : list GChannel;
    go_action : string;
    go_messages : list GMessage;
    go_description : option string
  }.

Record GComponents : Type :=
  mkGComponents {
    gcomp_messages : list GMessage;
    gcomp_schemas : list (string * nat)
  }.

Record GDocument : Type :=
  mkGDocument {
    gd_graph : SchemaGraph;
    gd_title : string;
    gd_version : string;
    gd_description : option string;
    gd_channels : list GChannel;
    gd_operations : list GOperation;
    gd_components : option GComponents
  }.

Notation "x <- a ;; b" :=
  (match a with Some x => b | None => None end)
  (at level 100, a at next level, right associativity, only parsing).

Fixpoint mapM {A B : Type} (f : A -> option B) (l : list A)
  : option (list B) :=
  match l with
  | [] => Some []
  | x :: t => y <- f x ;; ys <- mapM f t ;; Some (y :: ys)
  end.

Fixpoint mapiM {A B : Type} (f : A -> nat -> option B) (l : list A) (i : nat)
  : option (list B) :=
  match l with
  | [] => Some []
  | x :: t => y <- f x i ;; ys <- mapiM f t (S i) ;; Some (y :: ys)
  end.

(** [mapM] under an optional field. *)
Definition whenSome {A B : Type} (f : A -> option B) (v : option A)
  : option (option B) :=
  match v with
  | Some x => y <- f x ;; Some (Some y)
  | None => Some None
  end.

(** What a call reads of a schema when the raw document has a pointer at
    its location: nothing. *)
Definition unread : rschema :=
  mkRSchema None None None None None None None None None None None None.

(** The calls of [convertSchemaToObject] below one call, on the object
    graph: the part of the graph the call visits, as a tree.  Below a
    pointer of the raw document nothing is visited.  [depth] is the number
    of nested calls the call stack has room for; [None] stands for the
    [RangeError] of a stack that is exhausted, which a cycle of the graph
    with no pointer of the raw document on it always ends in. *)
Fixpoint visit (graph : SchemaGraph) (depth : nat) (address : nat)
    (rawSchemaPath : option json) : option rschema :=
  match depth with
  | O => None
  | S depth' =>
    match raw_ref rawSchemaPath with
    | Some _ => Some unread
    | None =>
      let schema := graph address in
      let branches (field : string) :=
        whenSome
          (fun l =>
             mapiM (fun a i =>
                      visit graph depth' a (jidx (jget rawSchemaPath field) i))
                   l 0) in
      properties <-
        whenSome
          (mapM (fun entry : string * nat =>
                   child <- visit graph depth' (snd entry)
                              (jget (jget rawSchemaPath "properties")
                                    (fst entry)) ;;
                   Some (fst entry, child)))
          (g_properties schema) ;;
      items <-
        whenSome (fun a => visit graph depth' a (jget rawSchemaPath "items"))
                 (g_items schema) ;;
      allOf <- branches "allOf" (g_allOf schema) ;;
      anyOf <- branches "anyOf" (g_anyOf schema) ;;
      oneOf <- branches "oneOf" (g_oneOf schema) ;;
      additionalProperties <-
        match g_additionalProperties schema with
        | Some (inl b) => Some (Some (inl b))
        | Some (inr a) =>
          child <- visit graph depth' a
                     (jget rawSchemaPath "additionalProperties") ;;
          Some (Some (inr child))
        | None => Some None
        end ;;
      Some (mkRSchema (g_type schema) (g_description schema)
              (g_format schema) properties items (g_required schema)
              (g_enum schema) allOf anyOf oneOf (g_ref schema)
              additionalProperties)
    end
  end.

(** The payload and the headers of a message, visited with the raw
    counterparts the caller passes on ([None] where it passes none). *)
Definition visitMessage (graph : SchemaGraph) (depth : nat)
    (rawPayload rawHeaders : option json) (msg : GMessage)
  : option LMessage :=
  payload <- whenSome (fun a => visit graph depth a rawPayload)
                      (gm_payload msg) ;;
  headers <- whenSome (fun a => visit graph depth a rawHeaders)
                      (gm_headers msg) ;;
  Some (mkLMessage (gm_id msg) (gm_description msg) payload headers).

Definition visitChannel (graph : SchemaGraph) (depth : nat)
    (channel : GChannel) : option LChannel :=
  messages <- mapM (visitMessage graph depth None None)
                   (gc_messages channel) ;;
  Some (mkLChannel (gc_id channel) (gc_address channel)
          (gc_description channel) messages).

(** A channel as an operation lists it: only its id is read. *)
Definition listedChannel (channel : GChannel) : LChannel :=
  mkLChannel (gc_id channel) (gc_address channel) (gc_description channel) [].

Definition firstChannelOf (operation : GOperation) : option string :=
  match go_channels operation with
  | channel :: _ => Some (gc_id channel)
  | [] => None
  end.

(** The messages of an operation are converted when its first channel is a
    channel of the document, and not looked at otherwise. *)
Definition visitOperation (graph : SchemaGraph) (depth : nat)
    (channelIds : list string) (operation : GOperation)
  : option LOperation :=
  messages <-
    match firstChannelOf operation with
    | Some id =>
      if existsb (String.eqb id) channelIds then
        mapM (visitMessage graph depth None None) (go_messages operation)
      else Some []
    | None => Some []
    end ;;
  Some (mkLOperation (map listedChannel (go_channels operation))
          (go_action operation) messages (go_description operation)).

Definition visitComponents (graph : SchemaGraph) (depth : nat)
    (rawSpec : option json) (components : GComponents)
  : option LComponents :=
  messages <-
    mapM (fun msg =>
            let rawMessage := rawComponent rawSpec "messages" (gm_id msg) in
            visitMessage graph depth (jget rawMessage "payload")
                         (jget rawMessage "headers") msg)
         (gcomp_messages components) ;;
  schemas <-
    mapM (fun entry : string * nat =>
            schema <- visit graph depth (snd entry)
                        (rawComponent rawSpec "schemas" (fst entry)) ;;
            Some (fst entry, schema))
         (gcomp_schemas components) ;;
  Some (mkLComponents messages schemas).

(** Everything [extractData] visits of the document. *)
Definition visitDocument (depth : nat) (rawSpec : option json)
    (document : GDocument) : option LDocument :=
  let graph := gd_graph document in
  channels <- mapM (visitChannel graph depth) (gd_channels document) ;;
  operations <-
    mapM (visitOperation graph depth (map gc_id (gd_channels document)))
         (gd_operations document) ;;
  components <- whenSome (visitComponents graph depth rawSpec)
                         (gd_components document) ;;
  Some (mkLDocument (gd_title document) (gd_version document)
          (gd_description document) channels operations components).

(** ** Reading and parsing ([AsyncAPIParser.readFile], [AsyncAPIParser.parse]) *)

(** What [fs.stat] answers for a path that exists. *)
Record Stats : Type :=
  mkStats {
    isFile : bool;
    size : N
  }.

(** A thrown value: a Node [ErrnoException] with its [code], or an [Error]
    built by the extractor with its message (and no [code]). *)
Inductive Thrown : Type :=
| ErrnoException (code : string)
| Error (message : string).

Record Diagnostic : Type :=
  mkDiagnostic {
    severity : nat;
    message : string
  }.

(** The collaborators [parse] calls: the file system, [path.resolve],
    [JSON.parse] (with [None] for a [SyntaxError]), the validating parser,
    and the number formatting [(size / 1024 / 1024).toFixed(2)]; and the
    room of the call stack, in nested calls of [convertSchemaToObject]. *)
Record World : Type :=
  mkWorld {
    path_resolve : string -> string;
    fs_stat : string -> Thrown + Stats;
    fs_readFile : string -> Thrown + string;
    JSON_parse : string -> option json;
    parser_parse : string -> option GDocument * list Diagnostic;
    megabytes_toFixed2 : N -> string;
    stack_depth : nat
  }.

(** The [RangeError] of an exhausted call stack: an error with a message
    and no [code]. *)
Definition stackOverflow : Thrown :=
  Error "Maximum call stack size exceeded".

Definition MAX_FILE_SIZE : N := 10 * 1024 * 1024.

(** The [catch] block of [readFile]. *)
Definition readFile_catch (filePath : string) (error : Thrown) : Thrown :=
  match error with
  | ErrnoException code =>
    if String.eqb code "ENOENT" then Error ("File not found: " ++ filePath)
    else if String.eqb code "EACCES" then
      Error ("Permission denied: " ++ filePath)
    else error
  | Error _ => error
  end.

Definition readFile (w : World) (filePath : string) : Thrown + string :=
  let resolvedPath := path_resolve w filePath in
  match fs_stat w resolvedPath with
  | inl error => inl (readFile_catch filePath error)
  | inr stats =>
    if negb (isFile stats) then
      inl (readFile_catch filePath
             (Error ("Path is not a file: " ++ filePath)))
    else if (MAX_FILE_SIZE <? size stats)%N then
      inl (readFile_catch filePath
             (Error ("File too large (" ++ megabytes_toFixed2 w (size stats)
                     ++ "MB). Maximum size is 10MB")))
    else
      match fs_readFile w resolvedPath with
      | inl error => inl (readFile_catch filePath error)
      | inr content => inr content
      end
  end.

(** What [parse] does that its caller can observe besides the result. *)
Inductive Event : Type :=
| ParserInvoked (content : string)
| WarnHeader (count : nat)
| WarnLine (msg : string)
| ErrorHeader (count : nat)
| ErrorLine (msg : string).

Definition isError (d : Diagnostic) : bool := Nat.eqb (severity d) 0.
Definition isWarning (d : Diagnostic) : bool := Nat.eqb (severity d) 1.

Definition reportWarnings (warnings : list Diagnostic) : list Event :=
  match warnings with
  | [] => []
  | _ => WarnHeader (length warnings)
         :: map (fun d => WarnLine (message d)) warnings
  end.

Definition reportErrors (errors : list Diagnostic) : list Event :=
  match errors with
  | [] => []
  | _ => ErrorHeader (length errors)
         :: map (fun d => ErrorLine (message d)) errors
  end.

(** [parse(filePath)]: the outcome and the trace of events, in order.
    [extractData] works on what its conversions visit of the object graph;
    where a conversion exhausts the stack, its [RangeError] leaves
    [parse]. *)
Definition parse (w : World) (filePath : string)
  : (Thrown + ParsedAsyncAPI) * list Event :=
  match readFile w filePath with
  | inl error => (inl error, [])
  | inr content =>
    let rawSpec := JSON_parse w content in
    let '(document, diagnostics) := parser_parse w content in
    let errors := filter isError diagnostics in
    let warnings := filter isWarning diagnostics in
    let trace := ParserInvoked content :: reportWarnings warnings
                 ++ reportErrors errors in
    match errors with
    | _ :: _ =>
      (inl (Error "Failed to parse AsyncAPI specification. See errors above."),
       trace)
    | [] =>
      match document with
      | None => (inl (Error "Failed to parse AsyncAPI document"), trace)
      | Some doc =>
        match visitDocument (stack_depth w) rawSpec doc with
        | Some visited => (inr (extractData rawSpec visited), trace)
        | None => (inl stackOverflow, trace)
        end
      end
    end
  end.

(** ** The type compiler ([TypeScriptGenerator])

    [src/generator/typescript-generator.ts] is not among the sources at
    hand; its tests ([src/__tests__/typescript-generator.test.ts]), its
    callers and the review notes are.  The definitions of this part follow
    section 4.2 of the specification; what the specification leaves open
    (the texts of the declarations) follows the outputs the tests expect. *)

(** *** Characters and strings *)

Definition nl : string := String (ascii_of_nat 10) EmptyString.

Definition isLower (c : ascii) : bool :=
  let n := nat_of_ascii c in (97 <=? n)%nat && (n <=? 122)%nat.

Definition isUpper (c : ascii) : bool :=
  let n := nat_of_ascii c in (65 <=? n)%nat && (n <=? 90)%nat.

Definition isDigit (c : ascii) : bool :=
  let n := nat_of_ascii c in (48 <=? n)%nat && (n <=? 57)%nat.

Definition isAlnum (c : ascii) : bool := isLower c || isUpper c || isDigit c.

Definition upcase (c : ascii) : ascii :=
  if isLower c then ascii_of_nat (nat_of_ascii c - 32) else c.

Definition downcase (c : ascii) : ascii :=
  if isUpper c then ascii_of_nat (nat_of_ascii c + 32) else c.

Fixpoint mapString (f : ascii -> ascii) (s : string) : string :=
  match s with
  | EmptyString => EmptyString
  | String c t => String (f c) (mapString f t)
  end.

Definition toLowerCase : string -> string := mapString downcase.

Fixpoint joinWith (sep : string) (l : list string) : string :=
  match l with
  | [] => ""
  | [x] => x
  | x :: t => (x ++ sep ++ joinWith sep t)%string
  end.

Definition mem (x : string) (l : list string) : bool :=
  existsb (String.eqb x) l.

(** *** Identifier sanitation *)

(** Modelled from the spec: the PascalCase conversion of the missing
    [toPascalCase].  A run of non-alphanumeric characters is dropped and
    marks a word boundary; a letter that follows a boundary (or starts the
    key) is uppercased; everything else is kept. *)
Fixpoint pascalFrom (boundary : bool) (s : string) : string :=
  match s with
  | EmptyString => EmptyString
  | String c t =>
    if isAlnum c then
      String (if boundary then upcase c else c) (pascalFrom false t)
    else pascalFrom true t
  end.

Definition toPascalCase (s : string) : string := pascalFrom true s.

Definition startsWithDigit (s : string) : bool :=
  match s with
  | String c _ => isDigit c
  | EmptyString => false
  end.

(** Modelled from the spec: the reserved words of the output language,
    which the missing generator keeps as a constant. *)
Definition reservedWords : list string :=
  [ "break"; "case"; "catch"; "class"; "const"; "continue"; "debugger";
    "default"; "delete"; "do"; "else"; "enum"; "export"; "extends"; "false";
    "finally"; "for"; "function"; "if"; "import"; "in"; "instanceof"; "new";
    "null"; "return"; "super"; "switch"; "this"; "throw"; "true"; "try";
    "typeof"; "var"; "void"; "while"; "with"; "implements"; "interface";
    "let"; "package"; "private"; "protected"; "public"; "static"; "yield";
    "type" ].

(** Modelled from the spec: the missing [sanitizeIdentifier], the name a
    key is declared under.  PascalCase form, an underscore in front of a
    leading digit, an underscore behind a reserved word. *)
Definition sanitizeIdentifier (name : string) : string :=
  let pascal := toPascalCase name in
  let prefixed : string :=
    if startsWithDigit pascal then ("_" ++ pascal)%string else pascal in
  if mem (toLowerCase prefixed) reservedWords then (prefixed ++ "_")%string
  else prefixed.


(** *** Configuration and compiler state *)

Inductive EnumType : Type := EnumUnion | EnumEnum.

Record GeneratorOptions : Type :=
  mkGeneratorOptions {
    enumType : EnumType;
    exportEverything : bool;
    useUnknown : bool
  }.

(** A top-level declaration of the output buffer, with the name it
    declares. *)
Record Declaration : Type :=
  mkDeclaration {
    decl_name : string;
    decl_text : string
  }.

(** Modelled from the spec: the bookkeeping of one [generate] call, which
    the missing generator keeps in instance fields: the names emitted so
    far, the output buffer, and the warnings given. *)
Record GenState : Type :=
  mkGenState {
    generatedTypes : list string;
    output : list Declaration;
    warnings : list string
  }.

Definition emptyState : GenState := mkGenState [] [] [].

(** Modelled from the spec: deduplication.  A name that was emitted is not
    emitted again. *)
Definition emit (name text : string) (st : GenState) : GenState :=
  if mem name (generatedTypes st) then st
  else mkGenState (name :: generatedTypes st)
                  (output st ++ [mkDeclaration name text])
                  (warnings st).

Definition warn (msg : string) (st : GenState) : GenState :=
  mkGenState (generatedTypes st) (output st) (warnings st ++ [msg]).

(** What a rendering call hands back: the text of a top-level declaration,
    or a type expression for the position the call was made for. *)
Inductive Rendered : Type :=
| DeclarationText (text : string)
| TypeExpression (text : string).

Definition textOf (r : Rendered) : string :=
  match r with
  | DeclarationText t => t
  | TypeExpression t => t
  end.

(** *** Reference pointers *)

Fixpoint stripPrefix (p s : string) : option string :=
  match p with
  | EmptyString => Some s
  | String a p' =>
    match s with
    | String b s' => if Ascii.eqb a b then stripPrefix p' s' else None
    | EmptyString => None
    end
  end.

Definition schemaPointerPrefix : string := "#/components/schemas/".

(** Modelled from the spec: the missing [extractRefName], which strips the
    pointer prefix and leaves the original key. *)
Definition extractRefName (ref : string) : option string :=
  stripPrefix schemaPointerPrefix ref.

(** *** Kinds of node, in the order the specification tries them *)

Inductive NodeKind : Type :=
| KRef (ref : string)
| KEnum (values : list string)
| KAllOf (branches : list SchemaObject)
| KAnyOf (branches : list SchemaObject)
| KOneOf (branches : list SchemaObject)
| KArray (items : option SchemaObject)
| KObject
| KPrimitive.

Definition typeIs (node : SchemaObject) (t : string) : bool :=
  match so_type node with
  | Some t' => String.eqb t' t
  | None => false
  end.

(** Modelled from the spec: the case distinction of the missing
    [schemaToTypeScript], steps 1 to 6 of section 4.2 in their order. *)
Definition kindOf (node : SchemaObject) : NodeKind :=
  match so_ref node with
  | Some ref => KRef ref
  | None =>
    match typeIs node "string", so_enum node with
    | true, Some (v :: vs) => KEnum (v :: vs)
    | _, _ =>
      match so_allOf node, so_anyOf node, so_oneOf node with
      | Some (b :: bs), _, _ => KAllOf (b :: bs)
      | _, Some (b :: bs), _ => KAnyOf (b :: bs)
      | _, _, Some (b :: bs) => KOneOf (b :: bs)
      | _, _, _ =>
        match so_items node with
        | Some items => KArray (Some items)
        | None =>
          if typeIs node "array" then KArray None
          else
            match so_properties node with
            | Some _ => KObject
            | None => if typeIs node "object" then KObject else KPrimitive
            end
        end
      end
    end
  end.

(** *** Texts *)

Definition isIdentStart (c : ascii) : bool :=
  isLower c || isUpper c || Ascii.eqb c "_" || Ascii.eqb c "$".

Definition isIdentPart (c : ascii) : bool := isIdentStart c || isDigit c.

Fixpoint allChars (p : ascii -> bool) (s : string) : bool :=
  match s with
  | EmptyString => true
  | String c t => p c && allChars p t
  end.

Definition isBareIdentifier (s : string) : bool :=
  match s with
  | String c t => isIdentStart c && allChars isIdentPart t
  | EmptyString => false
  end.

(** A backslash in front of every single quote. *)
Fixpoint escapeQuotes (s : string) : string :=
  match s with
  | EmptyString => EmptyString
  | String c t =>
    if Ascii.eqb c "'" then String "\" (String c (escapeQuotes t))
    else String c (escapeQuotes t)
  end.

Definition quoted (s : string) : string :=
  ("'" ++ escapeQuotes s ++ "'")%string.

Definition propertyKey (name : string) : string :=
  if isBareIdentifier name then name else quoted name.

(** The comment terminator is broken up and a newline becomes a space. *)
Fixpoint escapeJsDocComment (s : string) : string :=
  match s with
  | EmptyString => EmptyString
  | String c t =>
    if Ascii.eqb c (ascii_of_nat 10) then String " " (escapeJsDocComment t)
    else
      match t with
      | String d t' =>
        if Ascii.eqb c "*" && Ascii.eqb d "/" then
          String "*" (String "\" (String "/" (escapeJsDocComment t')))
        else String c (escapeJsDocComment t)
      | EmptyString => String c EmptyString
      end
  end.

Definition docBlock (description : option string) : string :=
  match description with
  | Some d =>
    ("/**" ++ nl ++ " * " ++ escapeJsDocComment d ++ nl ++ " */" ++ nl)%string
  | None => ""
  end.

Definition docLine (description : option string) : string :=
  match description with
  | Some d => ("  /** " ++ escapeJsDocComment d ++ " */" ++ nl)%string
  | None => ""
  end.

Definition enumMemberChar (c : ascii) : ascii :=
  if isAlnum c then upcase c else "_"%char.

Definition enumMemberName (value : string) : string :=
  mapString enumMemberChar value.

Definition unionOfLiterals (values : list string) : string :=
  joinWith " | " (map quoted values).

Definition enumMembers (values : list string) : string :=
  joinWith ("," ++ nl)
    (map (fun v => ("  " ++ enumMemberName v ++ " = " ++ quoted v)%string)
         values).

Definition primitiveType (fallback : string) (node : SchemaObject) : string :=
  match so_type node with
  | Some t =>
    if String.eqb t "string" then "string"
    else if String.eqb t "number" then "number"
    else if String.eqb t "integer" then "number"
    else if String.eqb t "boolean" then "boolean"
    else if String.eqb t "null" then "null"
    else fallback
  | None => fallback
  end.

(** *** The declaration emission algorithm *)

Section Compiler.

Variable opts : GeneratorOptions.
Variable schemas : list (string * SchemaObject).

Definition fallbackType : string :=
  if useUnknown opts then "unknown" else "any".

Definition exportKw : string :=
  if exportEverything opts then "export " else "".

Definition aliasDeclaration (description : option string)
    (name value : string) : string :=
  (docBlock description ++ exportKw ++ "type " ++ name ++ " = " ++ value
   ++ ";")%string.

Definition interfaceDeclaration (description : option string)
    (name : string) (members : list string) : string :=
  (docBlock description ++ exportKw ++ "interface " ++ name ++ " {" ++ nl
   ++ String.concat "" members ++ "}")%string.

Definition enumDeclaration (description : option string)
    (name : string) (values : list string) : string :=
  (docBlock description ++ exportKw ++ "enum " ++ name ++ " {" ++ nl
   ++ enumMembers values ++ nl ++ "}")%string.

Definition unresolvedWarning (ref : string) : string :=
  ("Could not resolve $ref: " ++ ref)%string.

(** Modelled from the spec: a pointer is resolved by its original key in
    the schema mapping of the document. *)
Definition resolveRef (ref : string) : option (string * SchemaObject) :=
  match extractRefName ref with
  | Some key =>
    match assoc key schemas with
    | Some target => Some (key, target)
    | None => None
    end
  | None => None
  end.

(** The type of [renderType], for the recursive calls. *)
Definition Renderer : Type :=
  string -> SchemaObject -> bool -> list string -> GenState ->
  option (Rendered * GenState).

Section Step.

Variable rec : Renderer.

(** Modelled from the spec: hoisting, a part of the missing
    [schemaToTypeScript].  A declaration that is not emitted yet is
    rendered as a top-level declaration and emitted.  A call that comes
    back with a type expression was a back edge: it handed back the
    fallback type, and nothing is emitted.  The caller then uses the name
    all the same; this is where the model follows the test of the
    generator ([should handle circular references] expects
    [next?: Node;]) and not the words of sections 4.2 and 8, which put
    the fallback type at the position of the back edge. *)
Definition hoist (name : string) (node : SchemaObject)
    (guard : list string) (st : GenState) : option GenState :=
  if mem name (generatedTypes st) then Some st
  else
    match rec name node true guard st with
    | Some (DeclarationText text, st') => Some (emit name text st')
    | Some (TypeExpression _, st') => Some st'
    | None => None
    end.

Definition nested (name : string) (node : SchemaObject)
    (guard : list string) (st : GenState) : option (string * GenState) :=
  match rec name node false guard st with
  | Some (r, st') => Some (textOf r, st')
  | None => None
  end.

(** Modelled from the spec: the branches of a composition of the missing
    [schemaToTypeScript], under the names [<declaredName>Part<index>]. *)
Fixpoint renderBranches (name : string) (index : nat)
    (branches : list SchemaObject) (guard : list string) (st : GenState)
  : option (list string * GenState) :=
  match branches with
  | [] => Some ([], st)
  | b :: bs =>
    match nested (name ++ "Part" ++ NilZero.string_of_uint (Nat.to_uint index))
                 b guard st with
    | Some (t, st1) =>
      match renderBranches name (S index) bs guard st1 with
      | Some (ts, st2) => Some (t :: ts, st2)
      | None => None
      end
    | None => None
    end
  end.

(** Modelled from the spec: the name a property's schema is rendered
    under in the missing [generateInterface]; a nested record becomes the
    child declaration [<declaredName><PropertyName>]. *)
Definition propertyTypeName (name propName : string)
    (propSchema : SchemaObject) : string :=
  match kindOf propSchema with
  | KObject => (name ++ toPascalCase propName)%string
  | _ => sanitizeIdentifier propName
  end.

Definition isRequired (node : SchemaObject) (propName : string) : bool :=
  match so_required node with
  | Some l => mem propName l
  | None => false
  end.

(** Modelled from the spec: the members of the missing
    [generateInterface], one line per property, in insertion order. *)
Fixpoint renderProperties (name : string) (node : SchemaObject)
    (props : list (string * SchemaObject)) (guard : list string)
    (st : GenState) : option (list string * GenState) :=
  match props with
  | [] => Some ([], st)
  | (propName, propSchema) :: rest =>
    match nested (propertyTypeName name propName propSchema)
                 propSchema guard st with
    | Some (t, st1) =>
      match renderProperties name node rest guard st1 with
      | Some (lines, st2) =>
        Some ((docLine (so_description propSchema) ++ "  "
               ++ propertyKey propName
               ++ (if isRequired node propName then "" else "?")
               ++ ": " ++ t ++ ";" ++ nl)%string :: lines, st2)
      | None => None
      end
    | None => None
    end
  end.

Definition renderIndexSignature (name : string) (node : SchemaObject)
    (guard : list string) (st : GenState)
  : option (list string * GenState) :=
  match so_additionalProperties node with
  | Some (inl true) =>
    Some ([("  [key: string]: " ++ fallbackType ++ ";" ++ nl)%string], st)
  | Some (inr s) =>
    match nested (name ++ "Value") s guard st with
    | Some (t, st1) =>
      Some ([("  [key: string]: " ++ t ++ ";" ++ nl)%string], st1)
    | None => None
    end
  | _ => Some ([], st)
  end.

Definition renderItems (name : string) (items : option SchemaObject)
    (guard : list string) (st : GenState) : option (string * GenState) :=
  match items with
  | Some s =>
    match nested (name ++ "Item") s guard st with
    | Some (t, st1) => Some ((t ++ "[]")%string, st1)
    | None => None
    end
  | None => Some ((fallbackType ++ "[]")%string, st)
  end.

(** Modelled from the spec: the type expression the missing
    [schemaToTypeScript] gives for a node that is not a reference: the
    right hand side of an alias, or the value of a nested position. *)
Definition renderExpression (name : string) (node : SchemaObject)
    (kind : NodeKind) (guard : list string) (st : GenState)
  : option (string * GenState) :=
  match kind with
  | KAllOf bs =>
    match renderBranches name 0 bs guard st with
    | Some (ts, st1) => Some (joinWith " & " ts, st1)
    | None => None
    end
  | KAnyOf bs | KOneOf bs =>
    match renderBranches name 0 bs guard st with
    | Some (ts, st1) => Some (joinWith " | " ts, st1)
    | None => None
    end
  | KArray items => renderItems name items guard st
  | KEnum values => Some (unionOfLiterals values, st)
  | _ => Some (primitiveType fallbackType node, st)
  end.

(** Modelled from the spec: the body of a top-level declaration [name]
    in the missing [schemaToTypeScript]; [guard] already holds [name]. *)
Definition renderDeclaration (name : string) (node : SchemaObject)
    (kind : NodeKind) (guard : list string) (st : GenState)
  : option (Rendered * GenState) :=
  match kind with
  | KObject =>
    match renderProperties name node
            (match so_properties node with Some l => l | None => [] end)
            guard st with
    | Some (lines, st1) =>
      match renderIndexSignature name node guard st1 with
      | Some (sig, st2) =>
        Some (DeclarationText
                (interfaceDeclaration (so_description node) name
                   (lines ++ sig)%list), st2)
      | None => None
      end
    | None => None
    end
  | KEnum values =>
    match enumType opts with
    | EnumEnum =>
      Some (DeclarationText
              (enumDeclaration (so_description node) name values), st)
    | EnumUnion =>
      Some (DeclarationText
              (aliasDeclaration (so_description node) name
                 (unionOfLiterals values)), st)
    end
  | _ =>
    match renderExpression name node kind guard st with
    | Some (t, st1) =>
      Some (DeclarationText
              (aliasDeclaration (so_description node) name t), st1)
    | None => None
    end
  end.

Definition isComposition (kind : NodeKind) : bool :=
  match kind with
  | KAllOf _ | KAnyOf _ | KOneOf _ => true
  | _ => false
  end.

(** Modelled from the spec: a node that is not a reference, in a nested
    position of the missing [schemaToTypeScript].  A record (and a named
    enumeration) is hoisted under [name]; the rest is rendered in place. *)
Definition renderNested (name : string) (node : SchemaObject)
    (kind : NodeKind) (guard : list string) (st : GenState)
  : option (Rendered * GenState) :=
  match kind, enumType opts with
  | KObject, _ | KEnum _, EnumEnum =>
    match hoist name node guard st with
    | Some st1 => Some (TypeExpression name, st1)
    | None => None
    end
  | _, _ =>
    match renderExpression name node kind guard st with
    | Some (t, st1) =>
      Some (TypeExpression
              (if isComposition kind then ("(" ++ t ++ ")")%string
               else t), st1)
    | None => None
    end
  end.

(** Modelled from the spec: one step of the missing [schemaToTypeScript],
    the [renderType(declaredName, node, isTopLevel, recursionGuard)] of
    section 4.2.  A reference is resolved first and never looks at the
    guard for the declared name; its position gets the name of the target,
    also at a back edge (see [hoist]).  Any other node, as a top-level
    declaration, falls back when the guard holds its name and adds its
    name to the guard for its body. *)
Definition renderStep : Renderer :=
  fun name node isTopLevel guard st =>
    match kindOf node with
    | KRef ref =>
      match resolveRef ref with
      | None =>
        let st1 := warn (unresolvedWarning ref) st in
        if isTopLevel then
          Some (DeclarationText
                  (aliasDeclaration None name fallbackType), st1)
        else Some (TypeExpression fallbackType, st1)
      | Some (key, target) =>
        match hoist (sanitizeIdentifier key) target guard st with
        | Some st1 =>
          if isTopLevel then
            Some (DeclarationText
                    (aliasDeclaration None name (sanitizeIdentifier key)),
                  st1)
          else Some (TypeExpression (sanitizeIdentifier key), st1)
        | None => None
        end
      end
    | kind =>
      if isTopLevel then
        if mem name guard then Some (TypeExpression fallbackType, st)
        else renderDeclaration name node kind (name :: guard) st
      else renderNested name node kind guard st
    end.

End Step.

(** Modelled from the spec: [renderType], with the depth of the recursion
    bounded by [fuel]; [None] stands for a recursion that is deeper. *)
Fixpoint renderType (fuel : nat) : Renderer :=
  match fuel with
  | O => fun _ _ _ _ _ => None
  | S n => renderStep (renderType n)
  end.

End Compiler.

(** *** [generate] *)

Section Generate.

Variable opts : GeneratorOptions.
Variable parsed : ParsedAsyncAPI.
Variable fuel : nat.

Definition declare (name : string) (node : SchemaObject) (st : GenState)
  : option GenState :=
  hoist (renderType opts (pa_schemas parsed) fuel) name node [] st.

(** Modelled from the spec: the missing [generateSchemas], one
    declaration per component schema, in the order of the mapping. *)
Fixpoint generateSchemas (l : list (string * SchemaObject)) (st : GenState)
  : option GenState :=
  match l with
  | [] => Some st
  | (key, schema) :: rest =>
    match declare (sanitizeIdentifier key) schema st with
    | Some st1 => generateSchemas rest st1
    | None => None
    end
  end.

Definition messageInterface (message : ParsedMessage) (base : string)
  : string :=
  interfaceDeclaration opts (pm_description message) (base ++ "Message")
    ((("  payload: " ++ base ++ "Payload;" ++ nl)%string)
     :: match pm_headers message with
        | Some _ => [("  headers?: " ++ base ++ "Headers;" ++ nl)%string]
        | None => []
        end).

(** Modelled from the spec: the missing [generateMessages], for one
    message: the payload type, the headers type when there are headers,
    and the message shape that combines them. *)
Definition generateMessage (message : ParsedMessage) (st : GenState)
  : option GenState :=
  let base := sanitizeIdentifier (pm_name message) in
  match declare (base ++ "Payload") (pm_payload message) st with
  | Some st1 =>
    match
      match pm_headers message with
      | Some h => declare (base ++ "Headers") h st1
      | None => Some st1
      end
    with
    | Some st2 =>
      Some (emit (base ++ "Message") (messageInterface message base) st2)
    | None => None
    end
  | None => None
  end.

Fixpoint generateMessages (l : list ParsedMessage) (st : GenState)
  : option GenState :=
  match l with
  | [] => Some st
  | m :: rest =>
    match generateMessage m st with
    | Some st1 => generateMessages rest st1
    | None => None
    end
  end.

Definition channelMessages (channel : ParsedChannel) : list ParsedMessage :=
  (pc_messages channel
   ++ flat_map po_messages (ops_send (pc_operations channel))
   ++ flat_map po_messages (ops_receive (pc_operations channel)))%list.

(** Modelled from the spec: every message the missing generator declares,
    global or channel-scoped. *)
Definition allMessages : list ParsedMessage :=
  (pa_messages parsed ++ flat_map channelMessages (pa_channels parsed))%list.

Fixpoint dedupe (l : list string) (seen : list string) : list string :=
  match l with
  | [] => []
  | x :: t => if mem x seen then dedupe t seen else x :: dedupe t (x :: seen)
  end.

(** Modelled from the spec: the missing [generateChannelTypes], for one
    direction of a channel: the union of the message shapes of its
    operations, by first occurrence; nothing for an empty direction. *)
Definition directionUnion (channel : ParsedChannel) (direction : string)
    (operations : list ParsedOperation) (st : GenState) : GenState :=
  match operations with
  | [] => st
  | _ =>
    let name :=
      (sanitizeIdentifier (pc_name channel) ++ direction ++ "Messages")%string in
    let members :=
      dedupe (map (fun m => (sanitizeIdentifier (pm_name m) ++ "Message")%string)
                  (flat_map po_messages operations)) [] in
    emit name (aliasDeclaration opts None name (joinWith " | " members)) st
  end.

Definition generateChannelTypes (st : GenState) : GenState :=
  fold_left
    (fun st channel =>
       directionUnion channel "Receive"
         (ops_receive (pc_operations channel))
         (directionUnion channel "Send"
            (ops_send (pc_operations channel)) st))
    (pa_channels parsed) st.

(** Modelled from the spec: the header comment of the missing
    [generate], as the tests and the README show it. *)
Definition header : string :=
  ("/**" ++ nl
   ++ " * Generated from AsyncAPI spec: " ++ pa_title parsed ++ " v"
   ++ pa_version parsed ++ nl
   ++ match pa_description parsed with
      | Some d => " * " ++ escapeJsDocComment d ++ nl
      | None => ""
      end
   ++ " * Generated by maxzilla-async-gen" ++ nl
   ++ " */")%string.

(** Modelled from the spec: the body of the missing [generate], from a
    given state of the bookkeeping: schemas, then messages, then the union
    types of the channels. *)
Definition runFrom (st : GenState) : option GenState :=
  match generateSchemas (pa_schemas parsed) st with
  | Some st1 =>
    match generateMessages allMessages st1 with
    | Some st2 => Some (generateChannelTypes st2)
    | None => None
    end
  | None => None
  end.

Definition render (st : GenState) : string :=
  joinWith (nl ++ nl) (header :: map decl_text (output st)).

End Generate.

(** Modelled from the spec: a compiler instance, its configuration and the
    bookkeeping left in its fields by the last call. *)
Record TypeScriptGenerator : Type :=
  mkTypeScriptGenerator {
    options : GeneratorOptions;
    fields : GenState
  }.

(** Modelled from the spec: [generate(parsed)] starts from empty
    bookkeeping, whatever the instance holds, and returns the text. *)
Definition generate (fuel : nat) (g : TypeScriptGenerator)
    (parsed : ParsedAsyncAPI) : option (string * TypeScriptGenerator) :=
  match runFrom (options g) parsed fuel emptyState with
  | Some st =>
    Some (render parsed st, mkTypeScriptGenerator (options g) st)
  | None => None
  end.

(** ** The command line ([src/cli/index.ts])

    A string of the model is a string of bytes.  For a path of ASCII
    characters [String.length] counts what [String.prototype.length]
    counts, [isBlank] is [!path || path.trim() === ''] and [toLowerCase]
    is [String.prototype.toLowerCase]; for other paths the model of the
    three checks says nothing about the code, and the properties of the
    checks are stated for ASCII paths. *)

Definition isAsciiChar (c : ascii) : bool := (nat_of_ascii c <? 128)%nat.

Definition isAscii (s : string) : bool := allChars isAsciiChar s.

Definition MAX_PATH_LENGTH : nat := 4096.

Definition ALLOWED_EXTENSIONS : list string := [".json"; ".yml"; ".yaml"].

(** The ASCII characters [String.prototype.trim] removes: tab, line feed,
    vertical tab, form feed, carriage return and space. *)
Definition isWhiteSpace (c : ascii) : bool :=
  let n := nat_of_ascii c in
  Nat.eqb n 32 || ((9 <=? n)%nat && (n <=? 13)%nat).

(** [!path || path.trim() === '']. *)
Definition isBlank (path : string) : bool := allChars isWhiteSpace path.

(** [validateInputPath(inputPath)]: [None] when it returns, the thrown
    error otherwise.  [extname] is [path.extname]. *)
Definition validateInputPath (extname : string -> string)
    (inputPath : string) : option Thrown :=
  if isBlank inputPath then Some (Error "Input path cannot be empty")
  else if (MAX_PATH_LENGTH <? String.length inputPath)%nat then
    Some (Error "Input path too long (max 4096 characters)")
  else if negb (mem (toLowerCase (extname inputPath)) ALLOWED_EXTENSIONS) then
    Some (Error "Invalid file extension. Allowed: .json, .yml, .yaml")
  else None.

Definition validateOutputPath (extname : string -> string)
    (outputPath : string) : option Thrown :=
  if isBlank outputPath then Some (Error "Output path cannot be empty")
  else if (MAX_PATH_LENGTH <? String.length outputPath)%nat then
    Some (Error "Output path too long (max 4096 characters)")
  else if negb (String.eqb (toLowerCase (extname outputPath)) ".ts") then
    Some (Error "Output file must have .ts extension")
  else None.

Definition doubleQuote : string := String (ascii_of_nat 34) EmptyString.

Definition validateEnumType (enumType : string) : option Thrown :=
  if negb (mem enumType ["enum"; "union"]) then
    Some (Error ("Invalid enum-type. Must be " ++ doubleQuote ++ "enum"
                 ++ doubleQuote ++ " or " ++ doubleQuote ++ "union"
                 ++ doubleQuote))
  else None.

(** What the actions of the command line call besides the extractor:
    [path.extname], [path.dirname], [fs.mkdir] and [fs.writeFile] (with
    [None] for a call that returns), and [generate] of a generator built
    with the given options. *)
Record CliWorld : Type :=
  mkCliWorld {
    cli_world : World;
    path_extname : string -> string;
    path_dirname : string -> string;
    fs_mkdir : string -> option Thrown;
    fs_writeFile : string -> string -> option Thrown;
    generator_generate : GeneratorOptions -> ParsedAsyncAPI -> Thrown + string
  }.

(** The calls an action makes, in order, and the failure its [catch] block
    reports. *)
Inductive CliEvent : Type :=
| CliParse (input : string) (trace : list Event)
| CliMkdir (dir : string)
| CliWriteFile (path : string) (content : string)
| CliFailure (error : Thrown).

(** [options.enumType as 'enum' | 'union']. *)
Definition enumTypeOf (enumType : string) : EnumType :=
  if String.eqb enumType "enum" then EnumEnum else EnumUnion.

(** The action of the [generate] command: the events and the exit code. *)
Definition generateAction (cw : CliWorld) (input output enumType : string)
    (useUnknown : bool) : list CliEvent * nat :=
  match validateInputPath (path_extname cw) input with
  | Some e => ([CliFailure e], 1)
  | None =>
  match validateOutputPath (path_extname cw) output with
  | Some e => ([CliFailure e], 1)
  | None =>
  match validateEnumType enumType with
  | Some e => ([CliFailure e], 1)
  | None =>
  match parse (cli_world cw) input with
  | (inl e, trace) => ([CliParse input trace; CliFailure e], 1)
  | (inr parsed, trace) =>
    match generator_generate cw
            (mkGeneratorOptions (enumTypeOf enumType) true useUnknown)
            parsed with
    | inl e => ([CliParse input trace; CliFailure e], 1)
    | inr text =>
      let outputPath := path_resolve (cli_world cw) output in
      let outputDir := path_dirname cw outputPath in
      match fs_mkdir cw outputDir with
      | Some e =>
        ([CliParse input trace; CliMkdir outputDir; CliFailure e], 1)
      | None =>
        match fs_writeFile cw outputPath text with
        | Some e =>
          ([CliParse input trace; CliMkdir outputDir;
            CliWriteFile outputPath text; CliFailure e], 1)
        | None =>
          ([CliParse input trace; CliMkdir outputDir;
            CliWriteFile outputPath text], 0)
        end
      end
    end
  end
  end
  end
  end.

(** The action of the [validate] command. *)
Definition validateAction (cw : CliWorld) (input : string)
  : list CliEvent * nat :=
  match validateInputPath (path_extname cw) input with
  | Some e => ([CliFailure e], 1)
  | None =>
    match parse (cli_world cw) input with
    | (inl e, trace) => ([CliParse input trace; CliFailure e], 1)
    | (inr _, trace) => ([CliParse input trace], 0)
    end
  end.

(** The calls that touch the file system for writing: [fs.mkdir] and
    [fs.writeFile]. *)
Definition isWrite (e : CliEvent) : bool :=
  match e with
  | CliWriteFile _ _ | CliMkdir _ => true
  | _ => false
  end.

(** The call of the extractor. *)
Definition isParse (e : CliEvent) : bool :=
  match e with
  | CliParse _ _ => true
  | _ => false
  end.

(** *** Notions for the extractor *)

(** No field of the node holds an empty string or an empty list where the
    extractor tests for one. *)
Definition normalNode (node : SchemaObject) : Prop :=
  so_type node <> Some ""
  /\ so_description node <> Some ""
  /\ so_format node <> Some ""
  /\ so_ref node <> Some ""
  /\ so_properties node <> Some []
  /\ so_required node <> Some []
  /\ so_enum node <> Some [].

(** How many operations the channels hold, over both directions. *)
Definition attributedOperations (channels : list ParsedChannel) : nat :=
  fold_right
    (fun c acc =>
       length (ops_send (pc_operations c))
       + length (ops_receive (pc_operations c)) + acc)
    0 channels.

(** ** Notions used to state the properties *)

(** *** Locations below a schema *)

Inductive Step : Type :=
| AtProperty (key : string)
| AtItems
| AtAllOf (index : nat)
| AtAnyOf (index : nat)
| AtOneOf (index : nat)
| AtAdditionalProperties.

(** One step down in the raw document. *)
Definition rawStep (raw : option json) (s : Step) : option json :=
  match s with
  | AtProperty key => jget (jget raw "properties") key
  | AtItems => jget raw "items"
  | AtAllOf i => jidx (jget raw "allOf") i
  | AtAnyOf i => jidx (jget raw "anyOf") i
  | AtOneOf i => jidx (jget raw "oneOf") i
  | AtAdditionalProperties => jget raw "additionalProperties"
  end.

Definition nthOf {A : Type} (l : option (list A)) (i : nat) : option A :=
  match l with
  | Some l => nth_error l i
  | None => None
  end.

(** One step down in the resolved schema. *)
Definition resolvedStep (schema : rschema) (s : Step) : option rschema :=
  match s with
  | AtProperty key =>
    match r_properties schema with
    | Some l => assoc key l
    | None => None
    end
  | AtItems => r_items schema
  | AtAllOf i => nthOf (r_allOf schema) i
  | AtAnyOf i => nthOf (r_anyOf schema) i
  | AtOneOf i => nthOf (r_oneOf schema) i
  | AtAdditionalProperties =>
    match r_additionalProperties schema with
    | Some (inr x) => Some x
    | _ => None
    end
  end.

(** One step down in the extracted node. *)
Definition extractedStep (node : SchemaObject) (s : Step)
  : option SchemaObject :=
  match s with
  | AtProperty key =>
    match so_properties node with
    | Some l => assoc key l
    | None => None
    end
  | AtItems => so_items node
  | AtAllOf i => nthOf (so_allOf node) i
  | AtAnyOf i => nthOf (so_anyOf node) i
  | AtOneOf i => nthOf (so_oneOf node) i
  | AtAdditionalProperties =>
    match so_additionalProperties node with
    | Some (inr x) => Some x
    | _ => None
    end
  end.

Fixpoint rawAt (raw : option json) (path : list Step) : option json :=
  match path with
  | [] => raw
  | s :: rest => rawAt (rawStep raw s) rest
  end.

Fixpoint resolvedAt (schema : rschema) (path : list Step) : option rschema :=
  match path with
  | [] => Some schema
  | s :: rest =>
    match resolvedStep schema s with
    | Some child => resolvedAt child rest
    | None => None
    end
  end.

Fixpoint extractedAt (node : SchemaObject) (path : list Step)
  : option SchemaObject :=
  match path with
  | [] => Some node
  | s :: rest =>
    match extractedStep node s with
    | Some child => extractedAt child rest
    | None => None
    end
  end.

(** The raw document has no pointer at a location strictly above the end
    of [path]. *)
Fixpoint noRefAbove (raw : option json) (path : list Step) : Prop :=
  match path with
  | [] => True
  | s :: rest => raw_ref raw = None /\ noRefAbove (rawStep raw s) rest
  end.

(** One step down in the object graph of the validating parser. *)
Definition graphStep (graph : SchemaGraph) (address : nat) (s : Step)
  : option nat :=
  match s with
  | AtProperty key =>
    match g_properties (graph address) with
    | Some l => assoc key l
    | None => None
    end
  | AtItems => g_items (graph address)
  | AtAllOf i => nthOf (g_allOf (graph address)) i
  | AtAnyOf i => nthOf (g_anyOf (graph address)) i
  | AtOneOf i => nthOf (g_oneOf (graph address)) i
  | AtAdditionalProperties =>
    match g_additionalProperties (graph address) with
    | Some (inr x) => Some x
    | _ => None
    end
  end.

Fixpoint graphAt (graph : SchemaGraph) (address : nat) (path : list Step)
  : option nat :=
  match path with
  | [] => Some address
  | s :: rest =>
    match graphStep graph address s with
    | Some child => graphAt graph child rest
    | None => None
    end
  end.

(** The addresses of the schemas directly below a schema object. *)
Definition graphChildren (schema : gschema) : list nat :=
  (match g_properties schema with Some l => map snd l | None => [] end
   ++ match g_items schema with Some x => [x] | None => [] end
   ++ match g_allOf schema with Some l => l | None => [] end
   ++ match g_anyOf schema with Some l => l | None => [] end
   ++ match g_oneOf schema with Some l => l | None => [] end
   ++ match g_additionalProperties schema with
      | Some (inr x) => [x]
      | _ => []
      end)%list.

(** No schema of the graph refers to itself: [rank] goes down from a
    schema to the schemas below it. *)
Definition wellFounded (graph : SchemaGraph) (rank : nat -> nat) : Prop :=
  forall a c, In c (graphChildren (graph a)) -> rank c < rank a.

(** The raw value is an object whose only member is [$ref], a string. *)
Definition onlyRef (raw : option json) : option string :=
  match raw with
  | Some (JObj [(k, JStr r)]) => if String.eqb k "$ref" then Some r else None
  | _ => None
  end.

(** [rawSpec.channels[channelId].messages[messageId].payload]. *)
Definition rawChannelPayload (rawSpec : option json)
    (channelId messageId : string) : option json :=
  jget (jget (jget (jget (jget rawSpec "channels") channelId) "messages")
             messageId) "payload".

(** The payload the extractor produced for a message of a channel. *)
Definition extractedChannelPayload (parsed : ParsedAsyncAPI)
    (channelId messageId : string) : option SchemaObject :=
  match find (fun c => String.eqb (pc_name c) channelId)
             (pa_channels parsed) with
  | Some c =>
    match find (fun m => String.eqb (pm_name m) messageId)
               (pc_messages c) with
    | Some m => Some (pm_payload m)
    | None => None
    end
  | None => None
  end.

(** The document [parse] returns, when it returns one. *)
Definition parsedOf (w : World) (filePath : string) : option ParsedAsyncAPI :=
  match fst (parse w filePath) with
  | inr parsed => Some parsed
  | inl _ => None
  end.

(** *** Sample documents *)

Definition rPrimitive (t : string) : rschema :=
  mkRSchema (Some t) None None None None None None None None None None None.

Definition rObject (props : list (string * rschema)) : rschema :=
  mkRSchema (Some "object") None None (Some props) None None None None None
            None None None.

Definition orderPointer : string := "#/components/schemas/Order".

(** A JSON source: the channel [orders] carries the message [created],
    whose payload is a pointer to the component schema [Order]. *)
Definition sampleRaw : json :=
  JObj
    [("asyncapi", JStr "3.0.0");
     ("info", JObj [("title", JStr "Sample"); ("version", JStr "1.0.0")]);
     ("channels",
      JObj [("orders",
             JObj [("address", JStr "orders");
                   ("messages",
                    JObj [("created",
                           JObj [("payload",
                                  JObj [("$ref", JStr orderPointer)])])])])]);
     ("components",
      JObj [("schemas",
             JObj [("Order",
                    JObj [("type", JStr "object");
                          ("properties",
                           JObj [("id", JObj [("type", JStr "string")])])]);
                   ("Basket",
                    JObj [("type", JStr "object");
                          ("properties",
                           JObj [("order",
                                  JObj [("$ref", JStr orderPointer)])])])])])].

(** The same document with every pointer replaced by what it points
    to. *)
Definition sampleOrder : rschema := rObject [("id", rPrimitive "string")].

Definition sampleDocument : LDocument :=
  mkLDocument "Sample" "1.0.0" None
    [mkLChannel "orders" None None
       [mkLMessage "created" None (Some sampleOrder) None]]
    []
    (Some (mkLComponents []
             [("Order", sampleOrder);
              ("Basket", rObject [("order", sampleOrder)])])).

(** The same document as the validating parser hands it over.  The schema
    [Order] is one object, at address 0, whoever points to it; the
    accessor [additionalProperties()] answers [true] for a schema that
    says nothing about them. *)
Definition gPrimitive (t : string) : gschema :=
  mkGSchema (Some t) None None None None None None None None None None
            (Some (inl true)).

Definition gObject (props : list (string * nat)) : gschema :=
  mkGSchema (Some "object") None None (Some props) None None None None None
            None None (Some (inl true)).

Definition sampleGraph : SchemaGraph :=
  fun address =>
    match address with
    | 0 => gObject [("id", 1)]
    | 1 => gPrimitive "string"
    | _ => gObject [("order", 0)]
    end.

Definition sampleGDocument : GDocument :=
  mkGDocument sampleGraph "Sample" "1.0.0" None
    [mkGChannel "orders" (Some "orders") None
       [mkGMessage "created" None (Some 0) None]]
    []
    (Some (mkGComponents [] [("Order", 0); ("Basket", 2)])).

Definition sampleRank (address : nat) : nat :=
  match address with
  | 0 => 1
  | 1 => 0
  | _ => 2
  end.

(** A schema that refers to itself: [Node] has a property [next] that
    points to [Node].  The raw document, and the object graph, in which
    the object at address 0 is its own property. *)
Definition nodePointer : string := "#/components/schemas/Node".

Definition recursiveRaw (messages : list (string * json)) : json :=
  JObj
    [("asyncapi", JStr "3.0.0");
     ("info", JObj [("title", JStr "Tree"); ("version", JStr "1.0.0")]);
     ("channels",
      JObj [("nodes",
             JObj [("address", JStr "nodes");
                   ("messages", JObj messages)])]);
     ("components",
      JObj [("schemas",
             JObj [("Node",
                    JObj [("type", JStr "object");
                          ("properties",
                           JObj [("next",
                                  JObj [("$ref", JStr nodePointer)])])])])])].

Definition recursiveGraph : SchemaGraph := fun _ => gObject [("next", 0)].

Definition recursiveGDocument (messages : list GMessage) : GDocument :=
  mkGDocument recursiveGraph "Tree" "1.0.0" None
    [mkGChannel "nodes" (Some "nodes") None messages]
    []
    (Some (mkGComponents [] [("Node", 0)])).

(** *** Sample worlds for [parse] *)

Definition worldOf (rawSpec : option json) (document : GDocument)
    (stat : Thrown + Stats) (diagnostics : list Diagnostic) : World :=
  mkWorld (fun p => p) (fun _ => stat) (fun _ => inr "{}")
          (fun _ => rawSpec)
          (fun _ => (Some document, diagnostics))
          (fun _ => "11.00") 1000.

Definition sampleWorld (stat : Thrown + Stats)
    (diagnostics : list Diagnostic) : World :=
  worldOf (Some sampleRaw) sampleGDocument stat diagnostics.

Definition regularFile : Thrown + Stats := inr (mkStats true 2).

(** A file that [fs.stat] finds and [fs.readFile] may not open. *)
Definition unreadableWorld : World :=
  mkWorld (fun p => p) (fun _ => regularFile)
          (fun _ => inl (ErrnoException "EACCES"))
          (fun _ => None) (fun _ => (None, [])) (fun _ => "0.00") 1000.


(** Every successful call of [rec] relates the states around it by [P]. *)
Definition RecSound (P : GenState -> GenState -> Prop) (rec : Renderer)
  : Prop :=
  forall name node top guard st r st',
    rec name node top guard st = Some (r, st') -> P st st'.

(** [rec'] answers whatever [rec] answers. *)
Definition RecLe (rec rec' : Renderer) : Prop :=
  forall name node top guard st res,
    rec name node top guard st = Some res ->
    rec' name node top guard st = Some res.

(** The nodes directly below a node. *)
Definition children (node : SchemaObject) : list SchemaObject :=
  (match so_properties node with Some l => map snd l | None => [] end
   ++ match so_items node with Some x => [x] | None => [] end
   ++ match so_allOf node with Some l => l | None => [] end
   ++ match so_anyOf node with Some l => l | None => [] end
   ++ match so_oneOf node with Some l => l | None => [] end
   ++ match so_additionalProperties node with
      | Some (inr x) => [x]
      | _ => []
      end)%list.

(** The height of a schema tree. *)
Fixpoint height (node : SchemaObject) : nat :=
  let hl :=
    fix hl (l : list SchemaObject) : nat :=
      match l with
      | [] => 0
      | x :: t => Nat.max (height x) (hl t)
      end in
  let hp :=
    fix hp (l : list (string * SchemaObject)) : nat :=
      match l with
      | [] => 0
      | (_, x) :: t => Nat.max (height x) (hp t)
      end in
  S (Nat.max (match so_properties node with Some l => hp l | None => 0 end)
    (Nat.max (match so_items node with Some x => height x | None => 0 end)
    (Nat.max (match so_allOf node with Some l => hl l | None => 0 end)
    (Nat.max (match so_anyOf node with Some l => hl l | None => 0 end)
    (Nat.max (match so_oneOf node with Some l => hl l | None => 0 end)
             (match so_additionalProperties node with
              | Some (inr x) => height x
              | _ => 0
              end)))))).

Definition isRef (node : SchemaObject) : bool :=
  match so_ref node with
  | Some _ => true
  | None => false
  end.

(** How many pointers lead from a node to a schema with a body, or to a
    pointer that does not resolve, when [n] hops get there. *)
Fixpoint aliasDepth (schemas : list (string * SchemaObject)) (n : nat)
    (node : SchemaObject) : option nat :=
  match n with
  | O => None
  | S n' =>
    match so_ref node with
    | None => Some 0
    | Some ref =>
      match resolveRef schemas ref with
      | None => Some 0
      | Some (_, target) => option_map S (aliasDepth schemas n' target)
      end
    end
  end.

(** No chain of component schemas that are bare pointers runs in a
    circle: from every component schema the chain ends, in a schema with a
    body or in a pointer that does not resolve.  A chain that ends passes
    through each schema once, so it ends within as many hops as there are
    schemas. *)
Definition aliasAcyclic (schemas : list (string * SchemaObject)) : Prop :=
  forall key target,
    In (key, target) schemas ->
    aliasDepth schemas (S (length schemas)) target <> None.

Definition aliasAcyclicb (schemas : list (string * SchemaObject)) : bool :=
  forallb (fun entry =>
             match aliasDepth schemas (S (length schemas)) (snd entry) with
             | Some _ => true
             | None => false
             end)
          schemas.

Definition aliasRank (schemas : list (string * SchemaObject))
    (node : SchemaObject) : nat :=
  match aliasDepth schemas (S (length schemas)) node with
  | Some d => d
  | None => 0
  end.

(** The pointers a reference node goes through, itself included. *)
Definition hops (schemas : list (string * SchemaObject))
    (node : SchemaObject) : nat :=
  match so_ref node with
  | Some ref =>
    match resolveRef schemas ref with
    | Some (_, target) => S (aliasRank schemas target)
    | None => 0
    end
  | None => 0
  end.

(** The names component schemas are declared under. *)
Definition schemaNames (schemas : list (string * SchemaObject))
  : list string :=
  map (fun entry => sanitizeIdentifier (fst entry)) schemas.

(** How many of these names the guard does not hold. *)
Definition pending (schemas : list (string * SchemaObject))
    (guard : list string) : nat :=
  length (filter (fun n => negb (mem n guard))
                 (nodup string_dec (schemaNames schemas))).

(** The greatest height of a component schema. *)
Definition bodyBound (schemas : list (string * SchemaObject)) : nat :=
  fold_right (fun entry acc => Nat.max (height (snd entry)) acc) 0 schemas.

(** The weights of one hop, of a whole chain of pointers, and of one name
    that the guard does not hold yet. *)
Definition hopWeight (schemas : list (string * SchemaObject)) : nat :=
  2 * bodyBound schemas + 2.

Definition chainWeight (schemas : list (string * SchemaObject)) : nat :=
  S (length schemas) * hopWeight schemas.

Definition nameWeight (schemas : list (string * SchemaObject)) : nat :=
  2 * bodyBound schemas + chainWeight schemas.

(** A bound on the depth of the calls below a call of [renderType]. *)
Definition cost (schemas : list (string * SchemaObject))
    (name : string) (node : SchemaObject) (top : bool) (guard : list string)
  : nat :=
  if isRef node then
    2 * height node + 1 + pending schemas guard * nameWeight schemas
    + hops schemas node * hopWeight schemas
  else if top then
    if mem name guard then 0
    else 2 * height node
         + pending schemas (name :: guard) * nameWeight schemas
         + chainWeight schemas
  else 2 * height node + 1 + pending schemas guard * nameWeight schemas
       + chainWeight schemas.

(** [rec] answers every call of cost below [bound]. *)
Definition RecTotalBelow (schemas : list (string * SchemaObject))
    (rec : Renderer) (bound : nat) : Prop :=
  forall name node top guard st,
    cost schemas name node top guard < bound ->
    exists res, rec name node top guard st = Some res.

(** A nested call on [node] under [guard] has a cost below [bound]. *)
Definition nestedBelow (schemas : list (string * SchemaObject)) (bound : nat)
    (node : SchemaObject) (guard : list string) : Prop :=
  2 * height node + 1 + pending schemas guard * nameWeight schemas
  + chainWeight schemas < bound.

(** The greatest height of a payload or headers schema of a message. *)
Definition messagesBound (l : list ParsedMessage) : nat :=
  fold_right
    (fun m acc =>
       Nat.max (height (pm_payload m))
         (Nat.max (match pm_headers m with Some h => height h | None => 0 end)
                  acc))
    0 l.

(** Fuel that is enough for a whole run on a document whose chains of
    pointers end. *)
Definition enoughFuel (parsed : ParsedAsyncAPI) : nat :=
  2 * Nat.max (bodyBound (pa_schemas parsed))
              (messagesBound (allMessages parsed))
  + 2
  + length (schemaNames (pa_schemas parsed)) * nameWeight (pa_schemas parsed)
  + chainWeight (pa_schemas parsed).

(** No component schema that is a bare pointer is declared under
    [name]. *)
Definition noAliasNamed (schemas : list (string * SchemaObject))
    (name : string) : Prop :=
  forall key target,
    In (key, target) schemas -> sanitizeIdentifier key = name ->
    isRef target = false.

(** What a call leaves alone: a name the guard holds, and that no bare
    pointer is declared under, is not emitted while the guard holds
    it. *)
Definition keepsGuarded (schemas : list (string * SchemaObject))
    (guard : list string) (st st' : GenState) : Prop :=
  forall name,
    In name guard -> noAliasNamed schemas name ->
    ~ In name (generatedTypes st) -> ~ In name (generatedTypes st').

(** Every successful call of [rec] relates the states around it by [Q],
    under the guard of the call; and a call that hands back a declaration
    was made for a reference node or for a name the guard does not
    hold. *)
Definition RecGuarded (Q : list string -> GenState -> GenState -> Prop)
    (rec : Renderer) : Prop :=
  forall name node top guard st r st',
    rec name node top guard st = Some (r, st') ->
    Q guard st st'
    /\ (forall text, r = DeclarationText text ->
          isRef node = true \/ mem name guard = false).

(** The output buffer declares the emitted names, each once, in order. *)
Definition wellFormed (st : GenState) : Prop :=
  map decl_name (output st) = rev (generatedTypes st)
  /\ NoDup (generatedTypes st).

(** What a call may do to the state: emit further declarations behind the
    ones that are there, and warn about pointers that do not resolve. *)
Definition extends (schemas : list (string * SchemaObject))
    (st st' : GenState) : Prop :=
  incl (generatedTypes st) (generatedTypes st')
  /\ (exists added, output st' = (output st ++ added)%list)
  /\ (wellFormed st -> wellFormed st')
  /\ (forall w, In w (warnings st') ->
        In w (warnings st) \/
        exists ref, resolveRef schemas ref = None
                    /\ w = unresolvedWarning ref).

(** How many declarations of the output buffer declare [name]. *)
Definition declarationsOf (name : string) (st : GenState) : nat :=
  count_occ string_dec (map decl_name (output st)) name.

(** [text] declares [name] for [node]: the description as a doc comment,
    the export keyword when everything is exported, and the declaration
    that belongs to the kind of the node, a record with at least one
    member for each property. *)
Definition declarationOf (opts : GeneratorOptions) (name : string)
    (node : SchemaObject) (text : string) : Prop :=
  exists body,
    text = (docBlock (so_description node)
            ++ (if exportEverything opts then "export " else "")
            ++ body)%string
    /\ match kindOf node, enumType opts with
       | KObject, _ =>
         exists members,
           body = ("interface " ++ name ++ " {" ++ nl
                   ++ String.concat "" members ++ "}")%string
           /\ length (match so_properties node with
                      | Some l => l
                      | None => []
                      end) <= length members
       | KEnum values, EnumEnum =>
         body = ("enum " ++ name ++ " {" ++ nl ++ enumMembers values ++ nl
                 ++ "}")%string
       | KEnum values, EnumUnion =>
         body = ("type " ++ name ++ " = " ++ unionOfLiterals values
                 ++ ";")%string
       | _, _ =>
         exists value,
           body = ("type " ++ name ++ " = " ++ value ++ ";")%string
       end.

(** *** Sample documents for the type compiler *)

Definition primitiveSchema (t : string) : SchemaObject :=
  mkSchemaObject (Some t) None None None None None None None None None None
                 None.

Definition objectSchema (props : list (string * SchemaObject))
  : SchemaObject :=
  mkSchemaObject (Some "object") (Some props) None None None None None None
                 None None None None.

Definition pointerTo (key : string) : SchemaObject :=
  refOnly (schemaPointerPrefix ++ key).

Definition sampleOptions : GeneratorOptions :=
  mkGeneratorOptions EnumUnion true true.

Definition freshGenerator : TypeScriptGenerator :=
  mkTypeScriptGenerator sampleOptions emptyState.

Definition documentOf (messages : list ParsedMessage)
    (schemas : list (string * SchemaObject)) : ParsedAsyncAPI :=
  mkParsedAsyncAPI "Test" "1.0.0" None [] messages schemas.

(** A schema under a kebab-case key, and a schema that points to it. *)
Definition kebabSchemas : list (string * SchemaObject) :=
  [("user-profile", objectSchema [("id", primitiveSchema "string")]);
   ("Event", objectSchema [("profile", pointerTo "user-profile")])].

(** A message whose payload is only a pointer to [Order]. *)
Definition orderDocument : ParsedAsyncAPI :=
  documentOf [mkParsedMessage "OrderCreated" None (pointerTo "Order") None]
             [("Order", objectSchema [("id", primitiveSchema "string")])].

(** Two keys with one sanitized name, and a schema that points to the
    second. *)
Definition sameNameSchemas : list (string * SchemaObject) :=
  [("user_profile", primitiveSchema "number");
   ("user-profile", objectSchema [("id", primitiveSchema "string")]);
   ("Event", objectSchema [("profile", pointerTo "user-profile")])].

(** A message whose payload declaration has the name of the schema its
    payload points to. *)
Definition signedUpDocument : ParsedAsyncAPI :=
  documentOf
    [mkParsedMessage "UserSignedUp" None (pointerTo "UserSignedUpPayload")
       None]
    [("UserSignedUpPayload", objectSchema [("id", primitiveSchema "string")])].

(** A message whose payload points to a schema that is a pointer to
    itself. *)
Definition aliasCycleMessageDocument : ParsedAsyncAPI :=
  documentOf [mkParsedMessage "Ping" None (pointerTo "A") None]
             [("A", pointerTo "A")].

(** [Foo] has a property [bar] that points to the schema [Bar]. *)
Definition fooBarDocument : ParsedAsyncAPI :=
  documentOf []
    [("Foo", objectSchema [("bar", pointerTo "Bar")]);
     ("Bar", objectSchema [("id", primitiveSchema "string")])].

(** [Foo] has a record [bar] of its own, whose declaration is named
    [FooBar], and a property [fooBar] that points to the schema
    [FooBar]. *)
Definition takenNameDocument : ParsedAsyncAPI :=
  documentOf []
    [("Foo",
      objectSchema
        [("bar", objectSchema [("z", primitiveSchema "string")]);
         ("fooBar", pointerTo "FooBar")]);
     ("FooBar", objectSchema [("id", primitiveSchema "string")])].

(** [Start] has a property [foo] that points to the schema [foo], whose
    name [Foo] is also the name of a schema that is a bare pointer, met
    while the body of [foo] is rendered. *)
Definition aliasNameDocument : ParsedAsyncAPI :=
  documentOf []
    [("Start", objectSchema [("foo", pointerTo "foo")]);
     ("foo", objectSchema [("x", pointerTo "Foo")]);
     ("Foo", pointerTo "Bar");
     ("Bar", objectSchema [("id", primitiveSchema "string")])].

(** [Bar] is a pointer to itself, and [Foo] has a property [bar] that
    points to it. *)
Definition selfPointerDocument : ParsedAsyncAPI :=
  documentOf []
    [("Bar", pointerTo "Bar");
     ("Foo", objectSchema [("bar", pointerTo "Bar")])].

(** Two schemas that point to each other from a property. *)
Definition mutualDocument : ParsedAsyncAPI :=
  documentOf []
    [("Parent", objectSchema [("child", pointerTo "Child")]);
     ("Child", objectSchema [("parent", pointerTo "Parent")])].

(** A schema that points to itself from a property. *)
Definition nodeDocument : ParsedAsyncAPI :=
  documentOf []
    [("Node", objectSchema [("value", primitiveSchema "string");
                            ("next", pointerTo "Node")])].

(** A schema that is nothing but a pointer to itself. *)
Definition aliasCycleDocument : ParsedAsyncAPI :=
  documentOf [] [("A", pointerTo "A")].

(** A schema with a property that points nowhere. *)
Definition danglingDocument : ParsedAsyncAPI :=
  documentOf []
    [("Event", objectSchema [("who", pointerTo "Missing");
                             ("id", primitiveSchema "string")])].

(** *** Notions and samples for the extractor *)

(** The world whose validating parser leaves out the diagnostics that are
    neither errors nor warnings (severity 2 and above: information and
    hints). *)
Definition dropInformational (w : World) : World :=
  mkWorld (path_resolve w) (fs_stat w) (fs_readFile w) (JSON_parse w)
          (fun content =>
             let '(document, diagnostics) := parser_parse w content in
             (document,
              filter (fun d => (severity d <=? 1)%nat) diagnostics))
          (megabytes_toFixed2 w) (stack_depth w).

(** The sum of [g] over a list of ids. *)
Definition sumOver (ids : list string) (g : string -> nat) : nat :=
  fold_right (fun id acc => g id + acc) 0 ids.

(** Two channels and three operations: one sends on [a], one receives on
    [b] and lists [a] second, one has an action that is neither. *)
Definition sampleOperationsDocument : LDocument :=
  let a := mkLChannel "a" None None [] in
  let b := mkLChannel "b" None None [] in
  mkLDocument "Ops" "1" None [a; b]
    [mkLOperation [a] "send" [] None;
     mkLOperation [b; a] "receive" [] None;
     mkLOperation [a] "publish" [] None]
    None.

(** A component message whose payload is a pointer in the raw document. *)
Definition sampleMessageRaw : json :=
  JObj [("components",
         JObj [("messages",
                JObj [("OrderCreated",
                       JObj [("payload",
                              JObj [("$ref", JStr orderPointer)])])])])].

Definition sampleMessageDocument : LDocument :=
  mkLDocument "Msg" "1" None [] []
    (Some (mkLComponents
             [mkLMessage "OrderCreated" None (Some sampleOrder) None] [])).

(** *** Sample worlds for the command line *)

(** [path.extname] on the paths of the samples. *)
Definition sampleExtname (path : string) : string :=
  if String.eqb path "../specs/API.YAML" then ".YAML"
  else if String.eqb path "out/types.ts" then ".ts"
  else "".

Definition sampleCliWorld (mkdir : option Thrown) : CliWorld :=
  mkCliWorld (sampleWorld regularFile []) sampleExtname (fun _ => "out")
             (fun _ => mkdir) (fun _ _ => None)
             (fun _ _ => inr "text").

(** * Properties *)

(** ** What every rendering call preserves

    A relation between the state before and after a call that is a
    preorder, holds across [emit], and holds across the warning for a
    pointer that does not resolve, holds across [renderType] and across a
    whole run. *)

Ltac inv_opt :=
  repeat match goal with
  | H : Some _ = Some _ |- _ => inversion H; subst; clear H
  | H : None = Some _ |- _ => discriminate H
  | H : (_, _) = (_, _) |- _ => inversion H; subst; clear H
  end.

Ltac break_match_hyp H :=
  match type of H with
  | context [match ?x with _ => _ end] => destruct x eqn:?
  end.

Section Preservation.

Variable opts : GeneratorOptions.
Variable schemas : list (string * SchemaObject).
Variable P : GenState -> GenState -> Prop.

Hypothesis P_refl : forall st, P st st.
Hypothesis P_trans : forall a b c, P a b -> P b c -> P a c.
Hypothesis P_emit : forall name text st, P st (emit name text st).
Hypothesis P_warn : forall ref st,
  resolveRef schemas ref = None -> P st (warn (unresolvedWarning ref) st).

Section StepSound.

Variable rec : Renderer.
Hypothesis rec_sound : RecSound P rec.

Lemma hoist_sound name node guard st st' :
  hoist rec name node guard st = Some st' -> P st st'.
Proof.
  unfold hoist. intros H.
  destruct (mem name (generatedTypes st)); inv_opt; auto.
  destruct (rec name node true guard st) as [[[t|t] st1]|] eqn:E; inv_opt.
  - eapply P_trans; [eapply rec_sound; eauto | apply P_emit].
  - eapply rec_sound; eauto.
Qed.

Lemma nested_sound name node guard st t st' :
  nested rec name node guard st = Some (t, st') -> P st st'.
Proof.
  unfold nested. intros H.
  destruct (rec name node false guard st) as [[r st1]|] eqn:E; inv_opt.
  eapply rec_sound; eauto.
Qed.

Lemma renderBranches_sound name bs : forall index guard st ts st',
  renderBranches rec name index bs guard st = Some (ts, st') -> P st st'.
Proof.
  induction bs as [|b bs IH]; simpl; intros index guard st ts st' H.
  - inv_opt; auto.
  - destruct (nested rec _ b guard st) as [[t st1]|] eqn:E1; inv_opt.
    destruct (renderBranches rec name (S index) bs guard st1)
      as [[ts' st2]|] eqn:E2; inv_opt.
    eapply P_trans; [eapply nested_sound; eauto | eapply IH; eauto].
Qed.

Lemma renderProperties_sound name node props : forall guard st ls st',
  renderProperties rec name node props guard st = Some (ls, st') -> P st st'.
Proof.
  induction props as [|[pn ps] rest IH]; simpl; intros guard st ls st' H.
  - inv_opt; auto.
  - destruct (nested rec _ ps guard st) as [[t st1]|] eqn:E1; inv_opt.
    destruct (renderProperties rec name node rest guard st1)
      as [[ls' st2]|] eqn:E2; inv_opt.
    eapply P_trans; [eapply nested_sound; eauto | eapply IH; eauto].
Qed.

Lemma renderIndexSignature_sound name node guard st ls st' :
  renderIndexSignature opts rec name node guard st = Some (ls, st') ->
  P st st'.
Proof.
  unfold renderIndexSignature. intros H.
  destruct (so_additionalProperties node) as [[[|]|s]|]; inv_opt; auto.
  destruct (nested rec _ s guard st) as [[t st1]|] eqn:E1; inv_opt.
  eapply nested_sound; eauto.
Qed.

Lemma renderItems_sound name items guard st t st' :
  renderItems opts rec name items guard st = Some (t, st') -> P st st'.
Proof.
  unfold renderItems. intros H.
  destruct items as [s|]; inv_opt; auto.
  destruct (nested rec _ s guard st) as [[t1 st1]|] eqn:E1; inv_opt.
  eapply nested_sound; eauto.
Qed.

Lemma renderExpression_sound name node kind guard st t st' :
  renderExpression opts rec name node kind guard st = Some (t, st') ->
  P st st'.
Proof.
  unfold renderExpression. intros H.
  destruct kind; inv_opt; auto;
    try (destruct (renderBranches rec name 0 branches guard st)
           as [[ts st1]|] eqn:E; inv_opt;
         eapply renderBranches_sound; eauto).
  eapply renderItems_sound; eauto.
Qed.

Lemma renderDeclaration_sound name node kind guard st r st' :
  renderDeclaration opts rec name node kind guard st = Some (r, st') ->
  P st st'.
Proof.
  unfold renderDeclaration. intros H.
  destruct kind;
    try (destruct (renderExpression opts rec name node _ guard st)
           as [[t st1]|] eqn:E; inv_opt;
         eapply renderExpression_sound; eauto; fail).
  - destruct (enumType opts); inv_opt; auto.
  - destruct (renderProperties rec name node _ guard st)
      as [[ls st1]|] eqn:E1; inv_opt.
    destruct (renderIndexSignature opts rec name node guard st1)
      as [[sig st2]|] eqn:E2; inv_opt.
    eapply P_trans;
      [eapply renderProperties_sound; eauto
      | eapply renderIndexSignature_sound; eauto].
Qed.

Lemma renderNested_sound name node kind guard st r st' :
  renderNested opts rec name node kind guard st = Some (r, st') ->
  P st st'.
Proof.
  unfold renderNested. intros H.
  destruct kind; try destruct (enumType opts);
    try (destruct (renderExpression opts rec name node _ guard st)
           as [[t st1]|] eqn:E; inv_opt;
         eapply renderExpression_sound; eauto; fail);
    destruct (hoist rec name node guard st) as [st1|] eqn:E; inv_opt;
    eapply hoist_sound; eauto.
Qed.

Lemma renderStep_sound : RecSound P (renderStep opts schemas rec).
Proof.
  unfold RecSound, renderStep. intros name node top guard st r st' H.
  destruct (kindOf node) eqn:K;
    try (destruct top;
         [ destruct (mem name guard); inv_opt; auto;
           eapply renderDeclaration_sound; eauto
         | eapply renderNested_sound; eauto ]; fail).
  destruct (resolveRef schemas ref) as [[key target]|] eqn:R.
  - destruct (hoist rec (sanitizeIdentifier key) target guard st)
      as [st1|] eqn:E; inv_opt.
    destruct top; inv_opt; eapply hoist_sound; eauto.
  - destruct top; inv_opt; apply P_warn; auto.
Qed.

End StepSound.

Lemma renderType_sound fuel : RecSound P (renderType opts schemas fuel).
Proof.
  induction fuel as [|n IH]; simpl.
  - unfold RecSound. intros; discriminate.
  - apply renderStep_sound; auto.
Qed.

End Preservation.

(** ** More fuel changes no answer *)

Section Monotone.

Variable opts : GeneratorOptions.
Variable schemas : list (string * SchemaObject).
Variables rec rec' : Renderer.
Hypothesis rec_le : RecLe rec rec'.

Lemma hoist_mono name node guard st st' :
  hoist rec name node guard st = Some st' ->
  hoist rec' name node guard st = Some st'.
Proof.
  unfold hoist. intros H.
  destruct (mem name (generatedTypes st)); auto.
  destruct (rec name node true guard st) as [res|] eqn:E; [|discriminate].
  rewrite (rec_le _ _ _ _ _ _ E). exact H.
Qed.

Lemma nested_mono name node guard st res :
  nested rec name node guard st = Some res ->
  nested rec' name node guard st = Some res.
Proof.
  unfold nested. intros H.
  destruct (rec name node false guard st) as [r|] eqn:E; [|discriminate].
  rewrite (rec_le _ _ _ _ _ _ E). exact H.
Qed.

Lemma renderBranches_mono name bs : forall index guard st res,
  renderBranches rec name index bs guard st = Some res ->
  renderBranches rec' name index bs guard st = Some res.
Proof.
  induction bs as [|b bs IH]; simpl; intros index guard st res H; auto.
  destruct (nested rec _ b guard st) as [[t st1]|] eqn:E1; [|discriminate].
  rewrite (nested_mono _ _ _ _ _ E1).
  destruct (renderBranches rec name (S index) bs guard st1)
    as [[ts st2]|] eqn:E2; [|discriminate].
  rewrite (IH _ _ _ _ E2). exact H.
Qed.

Lemma renderProperties_mono name node props : forall guard st res,
  renderProperties rec name node props guard st = Some res ->
  renderProperties rec' name node props guard st = Some res.
Proof.
  induction props as [|[pn ps] rest IH]; simpl; intros guard st res H; auto.
  destruct (nested rec _ ps guard st) as [[t st1]|] eqn:E1; [|discriminate].
  rewrite (nested_mono _ _ _ _ _ E1).
  destruct (renderProperties rec name node rest guard st1)
    as [[ls st2]|] eqn:E2; [|discriminate].
  rewrite (IH _ _ _ E2). exact H.
Qed.

Lemma renderIndexSignature_mono name node guard st res :
  renderIndexSignature opts rec name node guard st = Some res ->
  renderIndexSignature opts rec' name node guard st = Some res.
Proof.
  unfold renderIndexSignature. intros H.
  destruct (so_additionalProperties node) as [[[|]|s]|]; auto.
  destruct (nested rec _ s guard st) as [[t st1]|] eqn:E1; [|discriminate].
  rewrite (nested_mono _ _ _ _ _ E1). exact H.
Qed.

Lemma renderItems_mono name items guard st res :
  renderItems opts rec name items guard st = Some res ->
  renderItems opts rec' name items guard st = Some res.
Proof.
  unfold renderItems. intros H.
  destruct items as [s|]; auto.
  destruct (nested rec _ s guard st) as [[t st1]|] eqn:E1; [|discriminate].
  rewrite (nested_mono _ _ _ _ _ E1). exact H.
Qed.

Lemma renderExpression_mono name node kind guard st res :
  renderExpression opts rec name node kind guard st = Some res ->
  renderExpression opts rec' name node kind guard st = Some res.
Proof.
  unfold renderExpression. intros H.
  destruct kind; auto;
    try (destruct (renderBranches rec name 0 branches guard st)
           as [[ts st1]|] eqn:E; [|discriminate];
         rewrite (renderBranches_mono _ _ _ _ _ _ E); exact H).
  apply renderItems_mono; auto.
Qed.

Lemma renderDeclaration_mono name node kind guard st res :
  renderDeclaration opts rec name node kind guard st = Some res ->
  renderDeclaration opts rec' name node kind guard st = Some res.
Proof.
  unfold renderDeclaration. intros H.
  destruct kind; auto;
    try (destruct (renderExpression opts rec name node _ guard st)
           as [[t st1]|] eqn:E; [|discriminate];
         rewrite (renderExpression_mono _ _ _ _ _ _ E); exact H).
  destruct (renderProperties rec name node _ guard st)
    as [[ls st1]|] eqn:E1; [|discriminate].
  rewrite (renderProperties_mono _ _ _ _ _ _ E1).
  destruct (renderIndexSignature opts rec name node guard st1)
    as [[sig st2]|] eqn:E2; [|discriminate].
  rewrite (renderIndexSignature_mono _ _ _ _ _ E2). exact H.
Qed.

Lemma renderNested_mono name node kind guard st res :
  renderNested opts rec name node kind guard st = Some res ->
  renderNested opts rec' name node kind guard st = Some res.
Proof.
  unfold renderNested. intros H.
  destruct kind; try destruct (enumType opts);
    try (destruct (renderExpression opts rec name node _ guard st)
           as [[t st1]|] eqn:E; [|discriminate];
         rewrite (renderExpression_mono _ _ _ _ _ _ E); exact H);
    destruct (hoist rec name node guard st) as [st1|] eqn:E;
    try discriminate;
    rewrite (hoist_mono _ _ _ _ _ E); exact H.
Qed.

Lemma renderStep_mono :
  RecLe (renderStep opts schemas rec) (renderStep opts schemas rec').
Proof.
  unfold RecLe, renderStep. intros name node top guard st res H.
  destruct (kindOf node) eqn:K;
    try (destruct top;
         [ destruct (mem name guard); auto;
           apply renderDeclaration_mono; auto
         | apply renderNested_mono; auto ]; fail).
  destruct (resolveRef schemas ref) as [[key target]|] eqn:R; auto.
  destruct (hoist rec (sanitizeIdentifier key) target guard st)
    as [st1|] eqn:E; [|discriminate].
  rewrite (hoist_mono _ _ _ _ _ E). exact H.
Qed.

End Monotone.

Lemma renderType_step opts schemas fuel :
  RecLe (renderType opts schemas fuel) (renderType opts schemas (S fuel)).
Proof.
  induction fuel as [|n IH].
  - unfold RecLe. simpl. intros; discriminate.
  - change (renderType opts schemas (S (S n)))
      with (renderStep opts schemas (renderType opts schemas (S n))).
    change (renderType opts schemas (S n))
      with (renderStep opts schemas (renderType opts schemas n)) at 1.
    apply renderStep_mono. exact IH.
Qed.

Lemma renderType_mono opts schemas n m :
  n <= m -> RecLe (renderType opts schemas n) (renderType opts schemas m).
Proof.
  induction 1 as [|m Hle IH].
  - unfold RecLe; auto.
  - unfold RecLe in *. intros. apply renderType_step. apply IH. assumption.
Qed.

(** ** Height of schema trees *)

Lemma height_children_le node :
  forall c, In c (children node) -> height c < height node.
Proof.
  assert (HL : forall (l : list SchemaObject) c, In c l ->
            height c <=
            (fix hl (l : list SchemaObject) : nat :=
               match l with
               | [] => 0
               | x :: t => Nat.max (height x) (hl t)
               end) l).
  { induction l as [|x t IH]; simpl; intros c []; subst; [lia|].
    specialize (IH c H). lia. }
  assert (HP : forall (l : list (string * SchemaObject)) c,
            In c (map snd l) ->
            height c <=
            (fix hp (l : list (string * SchemaObject)) : nat :=
               match l with
               | [] => 0
               | (_, x) :: t => Nat.max (height x) (hp t)
               end) l).
  { induction l as [|[k x] t IH]; simpl; intros c []; subst; [lia|].
    specialize (IH c H). lia. }
  intros c Hc. destruct node as [ty pr it rq en de rf al an on fo ad].
  unfold children in Hc. simpl in Hc.
  rewrite !in_app_iff in Hc.
  cbn [height so_properties so_items so_allOf so_anyOf so_oneOf
       so_additionalProperties].
  destruct Hc as [Hc|[Hc|[Hc|[Hc|[Hc|Hc]]]]].
  - destruct pr as [l|]; [|contradiction]. apply HP in Hc. lia.
  - destruct it as [x|]; [|contradiction]. destruct Hc as [|[]]; subst. lia.
  - destruct al as [l|]; [|contradiction]. apply HL in Hc. lia.
  - destruct an as [l|]; [|contradiction]. apply HL in Hc. lia.
  - destruct on as [l|]; [|contradiction]. apply HL in Hc. lia.
  - destruct ad as [[b|x]|]; try contradiction.
    destruct Hc as [|[]]; subst. lia.
Qed.

Lemma height_bodyBound schemas key target :
  In (key, target) schemas -> height target <= bodyBound schemas.
Proof.
  induction schemas as [|[k s] t IH]; simpl; intros []; inv_opt; try lia.
  specialize (IH H). lia.
Qed.

Lemma assoc_In {A : Type} key (l : list (string * A)) v :
  assoc key l = Some v -> In (key, v) l.
Proof.
  induction l as [|[k x] t IH]; simpl; [discriminate|].
  destruct (String.eqb key k) eqn:E.
  - intros H; inv_opt. apply String.eqb_eq in E. subst. auto.
  - auto.
Qed.

Lemma resolveRef_In schemas ref key target :
  resolveRef schemas ref = Some (key, target) -> In (key, target) schemas.
Proof.
  unfold resolveRef. destruct (extractRefName ref); [|discriminate].
  destruct (assoc s schemas) eqn:A; [|discriminate].
  intros H. inv_opt. apply assoc_In. exact A.
Qed.

(** ** Chains of pointers *)

Lemma aliasDepth_lt schemas n : forall node d,
  aliasDepth schemas n node = Some d -> d < n.
Proof.
  induction n as [|n IH]; simpl; intros node d H; [discriminate|].
  destruct (so_ref node) as [ref|]; [|inv_opt; lia].
  destruct (resolveRef schemas ref) as [[k t]|]; [|inv_opt; lia].
  destruct (aliasDepth schemas n t) as [d'|] eqn:E; [|discriminate].
  simpl in H. inv_opt. specialize (IH _ _ E). lia.
Qed.

Lemma aliasDepth_S schemas n : forall node d,
  aliasDepth schemas n node = Some d ->
  aliasDepth schemas (S n) node = Some d.
Proof.
  induction n as [|n IH]; intros node d H; [discriminate|].
  cbn [aliasDepth] in *.
  destruct (so_ref node) as [ref|]; [|exact H].
  destruct (resolveRef schemas ref) as [[k t]|]; [|exact H].
  destruct (aliasDepth schemas n t) as [d'|] eqn:E; [|discriminate].
  rewrite (IH _ _ E). exact H.
Qed.

Lemma aliasRank_le schemas node : aliasRank schemas node <= length schemas.
Proof.
  unfold aliasRank.
  destruct (aliasDepth schemas (S (length schemas)) node) as [d|] eqn:E;
    [|lia].
  apply aliasDepth_lt in E. lia.
Qed.

Lemma hops_le schemas node : hops schemas node <= S (length schemas).
Proof.
  unfold hops. destruct (so_ref node) as [ref|]; [|lia].
  destruct (resolveRef schemas ref) as [[k t]|]; [|lia].
  pose proof (aliasRank_le schemas t). lia.
Qed.

(** A component schema of a document whose chains end is as many hops
    from a body as its rank says. *)
Lemma hops_schema schemas key target :
  aliasAcyclic schemas -> In (key, target) schemas ->
  hops schemas target = aliasRank schemas target.
Proof.
  intros AC Hin. specialize (AC key target Hin).
  unfold hops, aliasRank.
  destruct (so_ref target) as [ref|] eqn:Er.
  - destruct (resolveRef schemas ref) as [[k t]|] eqn:Res.
    + assert (D : aliasDepth schemas (S (length schemas)) target
                  = option_map S (aliasDepth schemas (length schemas) t)).
      { cbn [aliasDepth]. rewrite Er, Res. reflexivity. }
      rewrite D in *.
      destruct (aliasDepth schemas (length schemas) t) as [d|] eqn:E;
        [|contradiction].
      rewrite (aliasDepth_S _ _ _ _ E). reflexivity.
    + cbn [aliasDepth]. rewrite Er, Res. reflexivity.
  - cbn [aliasDepth]. rewrite Er. reflexivity.
Qed.

Lemma aliasAcyclicb_spec schemas :
  aliasAcyclicb schemas = true -> aliasAcyclic schemas.
Proof.
  unfold aliasAcyclicb, aliasAcyclic. rewrite forallb_forall.
  intros H key target Hin. specialize (H _ Hin). cbn [snd] in H.
  destruct (aliasDepth schemas (S (length schemas)) target);
    discriminate.
Qed.

(** ** Names the guard does not hold *)

Lemma mem_In x l : mem x l = true <-> In x l.
Proof.
  unfold mem. rewrite existsb_exists. split.
  - intros [y [Hy E]]. apply String.eqb_eq in E. subst. exact Hy.
  - intros H. exists x. split; [exact H | apply String.eqb_refl].
Qed.

Lemma filter_length_le {A : Type} (p q : A -> bool) l :
  (forall x, p x = true -> q x = true) ->
  length (filter p l) <= length (filter q l).
Proof.
  intros Hpq. induction l as [|x t IH]; simpl; [lia|].
  destruct (p x) eqn:Ep.
  - rewrite (Hpq _ Ep). simpl. lia.
  - destruct (q x); simpl; lia.
Qed.

Lemma filter_length_lt {A : Type} (p q : A -> bool) l x :
  (forall y, p y = true -> q y = true) ->
  In x l -> p x = false -> q x = true ->
  length (filter p l) < length (filter q l).
Proof.
  intros Hpq. induction l as [|y t IH]; simpl; [contradiction|].
  intros [E|Hin] Hp Hq.
  - subst y. rewrite Hp, Hq. simpl.
    pose proof (filter_length_le p q t Hpq). lia.
  - specialize (IH Hin Hp Hq). destruct (p y) eqn:Ep.
    + rewrite (Hpq _ Ep). simpl. lia.
    + destruct (q y); simpl; lia.
Qed.

Lemma pending_cons_le schemas name guard :
  pending schemas (name :: guard) <= pending schemas guard.
Proof.
  unfold pending. apply filter_length_le.
  intros x. simpl. destruct (String.eqb x name); simpl; auto. discriminate.
Qed.

Lemma pending_cons_lt schemas name guard :
  In name (schemaNames schemas) -> mem name guard = false ->
  pending schemas (name :: guard) < pending schemas guard.
Proof.
  intros Hin Hg. unfold pending.
  apply filter_length_lt with (x := name).
  - intros x. simpl. destruct (String.eqb x name); simpl; auto. discriminate.
  - apply nodup_In. exact Hin.
  - simpl. rewrite String.eqb_refl. reflexivity.
  - rewrite Hg. reflexivity.
Qed.

(** ** Kinds and children *)

Lemma kindOf_isRef node :
  isRef node = match kindOf node with KRef _ => true | _ => false end.
Proof.
  unfold isRef, kindOf. destruct (so_ref node); [reflexivity|].
  destruct (typeIs node "string"), (so_enum node) as [[|v vs]|];
    try reflexivity;
    destruct (so_allOf node) as [[|b bs]|]; try reflexivity;
    destruct (so_anyOf node) as [[|b' bs']|]; try reflexivity;
    destruct (so_oneOf node) as [[|b'' bs'']|]; try reflexivity;
    destruct (so_items node); try reflexivity;
    destruct (typeIs node "array"); try reflexivity;
    destruct (so_properties node); try reflexivity;
    destruct (typeIs node "object"); reflexivity.
Qed.

Lemma kindOf_children node :
  match kindOf node with
  | KAllOf bs | KAnyOf bs | KOneOf bs => incl bs (children node)
  | KArray (Some s) => In s (children node)
  | _ => True
  end.
Proof.
  unfold kindOf, children, incl.
  destruct (so_ref node); [exact I|].
  destruct (typeIs node "string"), (so_enum node) as [[|v vs]|];
    try exact I;
    destruct (so_allOf node) as [[|b bs]|];
    try (intros a Ha; rewrite !in_app_iff; tauto);
    destruct (so_anyOf node) as [[|b' bs']|];
    try (intros a Ha; rewrite !in_app_iff; tauto);
    destruct (so_oneOf node) as [[|b'' bs'']|];
    try (intros a Ha; rewrite !in_app_iff; tauto);
    destruct (so_items node);
    try (rewrite !in_app_iff; simpl; tauto);
    destruct (typeIs node "array"); try exact I;
    destruct (so_properties node); try exact I;
    destruct (typeIs node "object"); exact I.
Qed.

Lemma properties_children node :
  incl (map snd (match so_properties node with Some l => l | None => [] end))
       (children node).
Proof.
  unfold children, incl. intros a Ha. rewrite !in_app_iff.
  destruct (so_properties node); [tauto | contradiction].
Qed.

Lemma additional_children node s :
  so_additionalProperties node = Some (inr s) -> In s (children node).
Proof.
  unfold children. intros H. rewrite H, !in_app_iff. simpl. tauto.
Qed.

(** ** Enough fuel gives an answer *)

Section Total.

Variable opts : GeneratorOptions.
Variable schemas : list (string * SchemaObject).
Variable rec : Renderer.
Variable bound : nat.
Hypothesis rec_total : RecTotalBelow schemas rec bound.
Hypothesis alias_acyclic : aliasAcyclic schemas.

Lemma cost_nested name node guard :
  nestedBelow schemas bound node guard ->
  cost schemas name node false guard < bound.
Proof.
  unfold nestedBelow, cost. intros H.
  destruct (isRef node); [|exact H].
  pose proof (hops_le schemas node) as Hh.
  assert (hops schemas node * hopWeight schemas <= chainWeight schemas).
  { unfold chainWeight. apply Nat.mul_le_mono_r. exact Hh. }
  lia.
Qed.

Lemma hoist_total name node guard st :
  cost schemas name node true guard < bound ->
  exists st', hoist rec name node guard st = Some st'.
Proof.
  intros H. unfold hoist.
  destruct (mem name (generatedTypes st)); [eauto|].
  destruct (rec_total name node true guard st H) as [[[t|t] st1] E];
    rewrite E; eauto.
Qed.

Lemma nested_total name node guard st :
  nestedBelow schemas bound node guard ->
  exists res, nested rec name node guard st = Some res.
Proof.
  intros H. unfold nested.
  destruct (rec_total name node false guard st (cost_nested name _ _ H))
    as [[r st1] E].
  rewrite E. eauto.
Qed.

Lemma renderBranches_total name bs guard :
  (forall b, In b bs -> nestedBelow schemas bound b guard) ->
  forall index st,
    exists res, renderBranches rec name index bs guard st = Some res.
Proof.
  induction bs as [|b bs IH]; simpl; intros Hb index st; [eauto|].
  match goal with
  | |- context [nested rec ?n b guard st] =>
    destruct (nested_total n b guard st (Hb b (or_introl eq_refl)))
      as [[t st1] E]
  end.
  rewrite E.
  destruct (IH (fun x Hx => Hb x (or_intror Hx)) (S index) st1)
    as [[ts st2] E2].
  rewrite E2. eauto.
Qed.

Lemma renderProperties_total name node props guard :
  (forall c, In c (map snd props) -> nestedBelow schemas bound c guard) ->
  forall st,
    exists res, renderProperties rec name node props guard st = Some res.
Proof.
  induction props as [|[pn ps] rest IH]; simpl; intros Hc st; [eauto|].
  match goal with
  | |- context [nested rec ?n ps guard st] =>
    destruct (nested_total n ps guard st (Hc ps (or_introl eq_refl)))
      as [[t st1] E]
  end.
  rewrite E.
  destruct (IH (fun x Hx => Hc x (or_intror Hx)) st1) as [[ls st2] E2].
  rewrite E2. eauto.
Qed.

Lemma renderIndexSignature_total name node guard st :
  (forall c, In c (children node) -> nestedBelow schemas bound c guard) ->
  exists res, renderIndexSignature opts rec name node guard st = Some res.
Proof.
  intros Hc. unfold renderIndexSignature.
  destruct (so_additionalProperties node) as [[[|]|s]|] eqn:A; eauto.
  destruct (nested_total (name ++ "Value") s guard st
              (Hc s (additional_children _ _ A))) as [[t st1] E].
  rewrite E. eauto.
Qed.

Lemma renderExpression_total name node guard st :
  (forall c, In c (children node) -> nestedBelow schemas bound c guard) ->
  exists res,
    renderExpression opts rec name node (kindOf node) guard st = Some res.
Proof.
  intros Hc. pose proof (kindOf_children node) as K.
  unfold renderExpression. destruct (kindOf node) as [r|vs|bs|bs|bs|[s|]| |];
    eauto;
    try (destruct (renderBranches_total name bs guard
                     (fun b Hb => Hc b (K b Hb)) 0 st) as [[ts st1] E];
         rewrite E; eauto; fail).
  - unfold renderItems.
    destruct (nested_total (name ++ "Item") s guard st (Hc s K))
      as [[t st1] E].
    rewrite E. eauto.
  - unfold renderItems. eauto.
Qed.

Lemma renderDeclaration_total name node guard st :
  (forall c, In c (children node) -> nestedBelow schemas bound c guard) ->
  exists res,
    renderDeclaration opts rec name node (kindOf node) guard st = Some res.
Proof.
  intros Hc. unfold renderDeclaration.
  pose proof (renderExpression_total name node guard st Hc) as [[t st1] E].
  destruct (kindOf node) eqn:K; try (rewrite E; eauto; fail).
  - destruct (enumType opts); eauto.
  - destruct (renderProperties_total name node _ guard
                (fun c Hin => Hc c (properties_children node c Hin)) st)
      as [[ls st2] E2].
    rewrite E2.
    destruct (renderIndexSignature_total name node guard st2 Hc)
      as [[sig st3] E3].
    rewrite E3. eauto.
Qed.

Lemma renderNested_total name node guard st :
  cost schemas name node true guard < bound ->
  (forall c, In c (children node) -> nestedBelow schemas bound c guard) ->
  exists res,
    renderNested opts rec name node (kindOf node) guard st = Some res.
Proof.
  intros Htop Hc. unfold renderNested.
  pose proof (renderExpression_total name node guard st Hc) as [[t st1] E].
  destruct (hoist_total name node guard st Htop) as [st2 E2].
  destruct (kindOf node) eqn:K; try destruct (enumType opts);
    try (rewrite E; eauto; fail); rewrite E2; eauto.
Qed.

Lemma renderStep_total name node top guard st :
  cost schemas name node top guard <= bound ->
  exists res, renderStep opts schemas rec name node top guard st = Some res.
Proof.
  intros Hcost. unfold renderStep.
  pose proof (kindOf_isRef node) as R.
  assert (Hch : forall c, In c (children node) -> height c < height node)
    by apply height_children_le.
  destruct (kindOf node) as [ref| | | | | | |] eqn:K.
  { (* a reference *)
    unfold cost in Hcost. rewrite R in Hcost.
    destruct (resolveRef schemas ref) as [[key target]|] eqn:Res;
      [|destruct top; eauto].
    pose proof (resolveRef_In _ _ _ _ Res) as Hin.
    assert (Hhops : hops schemas node = S (aliasRank schemas target)).
    { unfold hops. unfold kindOf in K.
      destruct (so_ref node) as [r|] eqn:Er.
      - inversion K. subst r. rewrite Res. reflexivity.
      - unfold isRef in R. rewrite Er in R. discriminate. }
    rewrite Hhops in Hcost.
    pose proof (height_bodyBound _ _ _ Hin) as Hh.
    assert (Htgt :
      cost schemas (sanitizeIdentifier key) target true guard < bound).
    { unfold cost. destruct (isRef target) eqn:Rt.
      - rewrite (hops_schema _ _ _ alias_acyclic Hin).
        unfold hopWeight in *. simpl in Hcost. lia.
      - destruct (mem (sanitizeIdentifier key) guard) eqn:G; [lia|].
        assert (Hn : In (sanitizeIdentifier key) (schemaNames schemas)).
        { unfold schemaNames.
          apply (in_map (fun e => sanitizeIdentifier (fst e)) _ _ Hin). }
        pose proof (pending_cons_lt schemas _ guard Hn G) as Hp.
        assert (Hw : pending schemas (sanitizeIdentifier key :: guard)
                     * nameWeight schemas + nameWeight schemas
                     <= pending schemas guard * nameWeight schemas).
        { replace (pending schemas (sanitizeIdentifier key :: guard)
                   * nameWeight schemas + nameWeight schemas)
            with (S (pending schemas (sanitizeIdentifier key :: guard))
                  * nameWeight schemas) by (simpl; lia).
          apply Nat.mul_le_mono_r. lia. }
        unfold nameWeight in *. lia. }
    destruct (hoist_total (sanitizeIdentifier key) target guard st Htgt)
      as [st1 E].
    rewrite E. destruct top; eauto. }
  all: unfold cost in Hcost; rewrite R in Hcost;
    destruct top;
    [ destruct (mem name guard) eqn:G; [eauto|];
      rewrite <- K; apply renderDeclaration_total;
      intros c Hc; specialize (Hch c Hc); unfold nestedBelow; lia
    | rewrite <- K; apply renderNested_total;
      [ unfold cost; rewrite R;
        destruct (mem name guard); [lia|];
        pose proof (pending_cons_le schemas name guard) as Hp;
        pose proof (Nat.mul_le_mono_r _ _ (nameWeight schemas) Hp); lia
      | intros c Hc; specialize (Hch c Hc); unfold nestedBelow; lia ] ].
Qed.

End Total.

Lemma renderType_total opts schemas :
  aliasAcyclic schemas ->
  forall fuel, RecTotalBelow schemas (renderType opts schemas fuel) fuel.
Proof.
  intros AF. induction fuel as [|n IH]; unfold RecTotalBelow.
  - intros; lia.
  - intros name node top guard st H. simpl.
    apply renderStep_total with (bound := n); auto. lia.
Qed.

(** ** Whole runs: more fuel changes no answer *)

Section RunMonotone.

Variable opts : GeneratorOptions.
Variable parsed : ParsedAsyncAPI.
Variables n m : nat.
Hypothesis n_le_m : n <= m.

Lemma declare_mono name node st st' :
  declare opts parsed n name node st = Some st' ->
  declare opts parsed m name node st = Some st'.
Proof.
  unfold declare. apply hoist_mono. apply renderType_mono. exact n_le_m.
Qed.

Lemma generateSchemas_mono l : forall st st',
  generateSchemas opts parsed n l st = Some st' ->
  generateSchemas opts parsed m l st = Some st'.
Proof.
  induction l as [|[key schema] rest IH]; simpl; intros st st' H; auto.
  destruct (declare opts parsed n (sanitizeIdentifier key) schema st)
    as [st1|] eqn:E; [|discriminate].
  rewrite (declare_mono _ _ _ _ E). auto.
Qed.

Lemma generateMessage_mono msg st st' :
  generateMessage opts parsed n msg st = Some st' ->
  generateMessage opts parsed m msg st = Some st'.
Proof.
  unfold generateMessage. intros H.
  destruct (declare opts parsed n _ (pm_payload msg) st)
    as [st1|] eqn:E1; [|discriminate].
  rewrite (declare_mono _ _ _ _ E1).
  destruct (pm_headers msg) as [h|]; auto.
  destruct (declare opts parsed n _ h st1) as [st2|] eqn:E2; [|discriminate].
  rewrite (declare_mono _ _ _ _ E2). exact H.
Qed.

Lemma generateMessages_mono l : forall st st',
  generateMessages opts parsed n l st = Some st' ->
  generateMessages opts parsed m l st = Some st'.
Proof.
  induction l as [|msg rest IH]; simpl; intros st st' H; auto.
  destruct (generateMessage opts parsed n msg st) as [st1|] eqn:E;
    [|discriminate].
  rewrite (generateMessage_mono _ _ _ E). auto.
Qed.

Lemma runFrom_mono st st' :
  runFrom opts parsed n st = Some st' ->
  runFrom opts parsed m st = Some st'.
Proof.
  unfold runFrom. intros H.
  destruct (generateSchemas opts parsed n (pa_schemas parsed) st)
    as [st1|] eqn:E1; [|discriminate].
  rewrite (generateSchemas_mono _ _ _ E1).
  destruct (generateMessages opts parsed n (allMessages parsed) st1)
    as [st2|] eqn:E2; [|discriminate].
  rewrite (generateMessages_mono _ _ _ E2). exact H.
Qed.

End RunMonotone.

Lemma runFrom_agree opts parsed n m st a b :
  runFrom opts parsed n st = Some a ->
  runFrom opts parsed m st = Some b ->
  a = b.
Proof.
  intros Ha Hb.
  pose proof (runFrom_mono opts parsed n (Nat.max n m)
                (Nat.le_max_l n m) st a Ha) as Ha'.
  pose proof (runFrom_mono opts parsed m (Nat.max n m)
                (Nat.le_max_r n m) st b Hb) as Hb'.
  congruence.
Qed.

(** ** Whole runs: enough fuel gives an answer *)

Lemma pending_le_names schemas guard :
  pending schemas guard <= length (schemaNames schemas).
Proof.
  unfold pending.
  assert (F : forall (p : string -> bool) l,
             length (filter p l) <= length l).
  { intros p l. induction l as [|x t IH]; simpl; [lia|].
    destruct (p x); simpl; lia. }
  eapply Nat.le_trans; [apply F|].
  apply NoDup_incl_length; [apply NoDup_nodup|].
  intros x Hx. apply nodup_In in Hx. exact Hx.
Qed.

Lemma cost_le schemas name node top guard :
  cost schemas name node top guard
  <= 2 * height node + 1
     + length (schemaNames schemas) * nameWeight schemas
     + chainWeight schemas.
Proof.
  unfold cost.
  pose proof (Nat.mul_le_mono_r _ _ (nameWeight schemas)
                (pending_le_names schemas guard)).
  pose proof (Nat.mul_le_mono_r _ _ (nameWeight schemas)
                (pending_le_names schemas (name :: guard))).
  pose proof (Nat.mul_le_mono_r _ _ (hopWeight schemas)
                (hops_le schemas node)).
  unfold chainWeight.
  destruct (isRef node); [|destruct top; [destruct (mem name guard)|]]; lia.
Qed.

Lemma messagesBound_In l msg :
  In msg l ->
  height (pm_payload msg) <= messagesBound l /\
  (forall h, pm_headers msg = Some h -> height h <= messagesBound l).
Proof.
  induction l as [|x t IH]; simpl; [contradiction|].
  intros [E|Hin].
  - subst x. split; [lia|]. intros h Hh. rewrite Hh. lia.
  - destruct (IH Hin) as [A B]. split; [lia|].
    intros h Hh. specialize (B h Hh). lia.
Qed.

Section RunTotal.

Variable opts : GeneratorOptions.
Variable parsed : ParsedAsyncAPI.
Hypothesis alias_acyclic : aliasAcyclic (pa_schemas parsed).

Lemma declare_total name node st :
  2 * height node + 2
  + length (schemaNames (pa_schemas parsed))
    * nameWeight (pa_schemas parsed)
  + chainWeight (pa_schemas parsed) <= enoughFuel parsed ->
  exists st', declare opts parsed (enoughFuel parsed) name node st = Some st'.
Proof.
  intros H. unfold declare.
  eapply hoist_total.
  - apply renderType_total. exact alias_acyclic.
  - pose proof (cost_le (pa_schemas parsed) name node true []). lia.
Qed.

Lemma generateSchemas_total l :
  incl l (pa_schemas parsed) ->
  forall st,
    exists st',
      generateSchemas opts parsed (enoughFuel parsed) l st = Some st'.
Proof.
  induction l as [|[key schema] rest IH]; simpl; intros Hl st; [eauto|].
  destruct (declare_total (sanitizeIdentifier key) schema st) as [st1 E].
  { pose proof (height_bodyBound _ key schema (Hl _ (or_introl eq_refl))).
    unfold enoughFuel. lia. }
  rewrite E. apply IH. intros x Hx. apply Hl. right. exact Hx.
Qed.

Lemma generateMessage_total msg st :
  In msg (allMessages parsed) ->
  exists st',
    generateMessage opts parsed (enoughFuel parsed) msg st = Some st'.
Proof.
  intros Hin. unfold generateMessage.
  destruct (messagesBound_In _ _ Hin) as [Hp Hh].
  destruct (declare_total
              (sanitizeIdentifier (pm_name msg) ++ "Payload")
              (pm_payload msg) st) as [st1 E1].
  { unfold enoughFuel. lia. }
  rewrite E1.
  destruct (pm_headers msg) as [h|] eqn:Eh; [|eauto].
  destruct (declare_total
              (sanitizeIdentifier (pm_name msg) ++ "Headers") h st1)
    as [st2 E2].
  { specialize (Hh h eq_refl). unfold enoughFuel. lia. }
  rewrite E2. eauto.
Qed.

Lemma generateMessages_total l :
  incl l (allMessages parsed) ->
  forall st,
    exists st',
      generateMessages opts parsed (enoughFuel parsed) l st = Some st'.
Proof.
  induction l as [|msg rest IH]; simpl; intros Hl st; [eauto|].
  destruct (generateMessage_total msg st (Hl _ (or_introl eq_refl)))
    as [st1 E].
  rewrite E. apply IH. intros x Hx. apply Hl. right. exact Hx.
Qed.

Lemma runFrom_total st :
  exists st', runFrom opts parsed (enoughFuel parsed) st = Some st'.
Proof.
  unfold runFrom.
  destruct (generateSchemas_total (pa_schemas parsed) (incl_refl _) st)
    as [st1 E1].
  rewrite E1.
  destruct (generateMessages_total (allMessages parsed) (incl_refl _) st1)
    as [st2 E2].
  rewrite E2. eauto.
Qed.

End RunTotal.

(** ** The state only grows *)

Lemma extends_refl schemas st : extends schemas st st.
Proof.
  split; [|split; [|split]]; auto.
  - apply incl_refl.
  - exists []. rewrite app_nil_r. reflexivity.
Qed.

Lemma extends_trans schemas a b c :
  extends schemas a b -> extends schemas b c -> extends schemas a c.
Proof.
  intros [I1 [[l1 O1] [W1 N1]]] [I2 [[l2 O2] [W2 N2]]].
  split; [|split; [|split]].
  - eapply incl_tran; eauto.
  - exists (l1 ++ l2)%list. rewrite O2, O1, app_assoc. reflexivity.
  - auto.
  - intros w Hw. destruct (N2 w Hw) as [H|H]; auto.
Qed.

Lemma extends_emit schemas name text st :
  extends schemas st (emit name text st).
Proof.
  unfold emit. destruct (mem name (generatedTypes st)) eqn:M;
    [apply extends_refl|].
  split; [|split; [|split]]; simpl.
  - intros x Hx. right. exact Hx.
  - eexists. reflexivity.
  - intros [A B]. split; simpl.
    + rewrite map_app, A. reflexivity.
    + constructor; [|exact B].
      intros Hin. apply mem_In in Hin. congruence.
  - auto.
Qed.

Lemma extends_warn schemas ref st :
  resolveRef schemas ref = None ->
  extends schemas st (warn (unresolvedWarning ref) st).
Proof.
  intros R. split; [|split; [|split]]; simpl.
  - apply incl_refl.
  - exists []. rewrite app_nil_r. reflexivity.
  - unfold wellFormed. simpl. auto.
  - intros w Hw. apply in_app_or in Hw. destruct Hw as [Hw|[Hw|[]]]; eauto.
Qed.

Lemma renderType_extends opts schemas fuel :
  RecSound (extends schemas) (renderType opts schemas fuel).
Proof.
  apply renderType_sound.
  - apply extends_refl.
  - apply extends_trans.
  - apply extends_emit.
  - apply extends_warn.
Qed.

Lemma hoist_extends opts schemas fuel name node guard st st' :
  hoist (renderType opts schemas fuel) name node guard st = Some st' ->
  extends schemas st st'.
Proof.
  apply hoist_sound.
  - apply extends_refl.
  - apply extends_trans.
  - apply extends_emit.
  - apply renderType_extends.
Qed.

(** ** What a top-level call hands back *)

Lemma renderDeclaration_kind opts rec name node kind guard st r st' :
  renderDeclaration opts rec name node kind guard st = Some (r, st') ->
  exists text, r = DeclarationText text.
Proof.
  unfold renderDeclaration. intros H.
  destruct kind;
    try (destruct (renderExpression opts rec name node _ guard st)
           as [[t st1]|]; inv_opt; eauto; fail).
  - destruct (enumType opts); inv_opt; eauto.
  - destruct (renderProperties rec name node _ guard st) as [[ls st1]|];
      inv_opt.
    destruct (renderIndexSignature opts rec name node guard st1)
      as [[sig st2]|]; inv_opt.
    eauto.
Qed.

(** A top-level call that comes back with a type expression met its own
    name in the guard, on a node that is not a reference, and left the
    state as it was. *)
Lemma top_level_expression opts schemas fuel name node guard st t st' :
  renderType opts schemas fuel name node true guard st
  = Some (TypeExpression t, st') ->
  mem name guard = true /\ isRef node = false
  /\ t = fallbackType opts /\ st' = st.
Proof.
  destruct fuel as [|n]; simpl; [discriminate|].
  unfold renderStep. rewrite (kindOf_isRef node).
  destruct (kindOf node) eqn:K;
    try (destruct (mem name guard);
         [ intros H; inv_opt; auto
         | intros H; apply renderDeclaration_kind in H;
           destruct H as [text H]; discriminate ]; fail).
  destruct (resolveRef schemas ref) as [[key target]|];
    [destruct (hoist _ _ target guard st)|]; intros H; inv_opt.
Qed.

Lemma hoist_emitted opts schemas fuel name node guard st st' :
  hoist (renderType opts schemas fuel) name node guard st = Some st' ->
  In name (generatedTypes st') \/ mem name guard = true.
Proof.
  unfold hoist. intros H.
  destruct (mem name (generatedTypes st)) eqn:M.
  - inv_opt. left. apply mem_In. exact M.
  - destruct (renderType opts schemas fuel name node true guard st)
      as [[[text|t] st1]|] eqn:E; inv_opt.
    + left. unfold emit. destruct (mem name (generatedTypes st1)) eqn:M1.
      * apply mem_In. exact M1.
      * simpl. auto.
    + right. apply top_level_expression in E. tauto.
Qed.

(** ** Whole runs: the state only grows, and every schema is declared *)

Section RunExtends.

Variable opts : GeneratorOptions.
Variable parsed : ParsedAsyncAPI.
Variable fuel : nat.

Lemma declare_extends name node st st' :
  declare opts parsed fuel name node st = Some st' ->
  extends (pa_schemas parsed) st st'.
Proof. apply hoist_extends. Qed.

Lemma generateSchemas_extends l : forall st st',
  generateSchemas opts parsed fuel l st = Some st' ->
  extends (pa_schemas parsed) st st'.
Proof.
  induction l as [|[key schema] rest IH]; simpl; intros st st' H.
  - inv_opt. apply extends_refl.
  - destruct (declare opts parsed fuel _ schema st) as [st1|] eqn:E;
      [|discriminate].
    eapply extends_trans; [eapply declare_extends; eauto | eauto].
Qed.

Lemma generateMessage_extends msg st st' :
  generateMessage opts parsed fuel msg st = Some st' ->
  extends (pa_schemas parsed) st st'.
Proof.
  unfold generateMessage. intros H.
  destruct (declare opts parsed fuel _ (pm_payload msg) st)
    as [st1|] eqn:E1; [|discriminate].
  apply declare_extends in E1.
  destruct (pm_headers msg) as [h|].
  - destruct (declare opts parsed fuel _ h st1) as [st2|] eqn:E2;
      [|discriminate].
    apply declare_extends in E2. inv_opt.
    eapply extends_trans; [exact E1|].
    eapply extends_trans; [exact E2|]. apply extends_emit.
  - inv_opt. eapply extends_trans; [exact E1|]. apply extends_emit.
Qed.

Lemma generateMessages_extends l : forall st st',
  generateMessages opts parsed fuel l st = Some st' ->
  extends (pa_schemas parsed) st st'.
Proof.
  induction l as [|msg rest IH]; simpl; intros st st' H.
  - inv_opt. apply extends_refl.
  - destruct (generateMessage opts parsed fuel msg st) as [st1|] eqn:E;
      [|discriminate].
    eapply extends_trans; [eapply generateMessage_extends; eauto | eauto].
Qed.

Lemma directionUnion_extends channel direction operations st :
  extends (pa_schemas parsed) st (directionUnion opts channel direction operations st).
Proof.
  unfold directionUnion. destruct operations.
  - apply extends_refl.
  - apply extends_emit.
Qed.

Lemma generateChannelTypes_extends st :
  extends (pa_schemas parsed) st (generateChannelTypes opts parsed st).
Proof.
  unfold generateChannelTypes.
  generalize (pa_channels parsed) as l. intros l. revert st.
  induction l as [|c t IH]; simpl; intros st.
  - apply extends_refl.
  - eapply extends_trans; [|apply IH].
    eapply extends_trans; apply directionUnion_extends.
Qed.

Lemma runFrom_extends st st' :
  runFrom opts parsed fuel st = Some st' ->
  extends (pa_schemas parsed) st st'.
Proof.
  unfold runFrom. intros H.
  destruct (generateSchemas opts parsed fuel (pa_schemas parsed) st)
    as [st1|] eqn:E1; [|discriminate].
  destruct (generateMessages opts parsed fuel (allMessages parsed) st1)
    as [st2|] eqn:E2; [|discriminate].
  inv_opt.
  eapply extends_trans; [eapply generateSchemas_extends; eauto|].
  eapply extends_trans; [eapply generateMessages_extends; eauto|].
  apply generateChannelTypes_extends.
Qed.

Lemma generateSchemas_emitted l : forall st st',
  generateSchemas opts parsed fuel l st = Some st' ->
  forall key schema, In (key, schema) l ->
    In (sanitizeIdentifier key) (generatedTypes st').
Proof.
  induction l as [|[k s] rest IH]; simpl; intros st st' H key schema Hin;
    [contradiction|].
  destruct (declare opts parsed fuel _ s st) as [st1|] eqn:E;
    [|discriminate].
  destruct Hin as [Heq|Hin].
  - inv_opt.
    destruct (hoist_emitted _ _ _ _ _ _ _ _ E) as [Hin|Hg];
      [|discriminate].
    apply generateSchemas_extends in H. destruct H as [I _].
    apply I. exact Hin.
  - eapply IH; eauto.
Qed.

Lemma runFrom_emitted st st' :
  runFrom opts parsed fuel st = Some st' ->
  forall key schema, In (key, schema) (pa_schemas parsed) ->
    In (sanitizeIdentifier key) (generatedTypes st').
Proof.
  unfold runFrom. intros H key schema Hin.
  destruct (generateSchemas opts parsed fuel (pa_schemas parsed) st)
    as [st1|] eqn:E1; [|discriminate].
  destruct (generateMessages opts parsed fuel (allMessages parsed) st1)
    as [st2|] eqn:E2; [|discriminate].
  inv_opt.
  pose proof (generateSchemas_emitted _ _ _ E1 key schema Hin) as H1.
  apply generateMessages_extends in E2. destruct E2 as [I2 _].
  destruct (generateChannelTypes_extends st2) as [I3 _].
  apply I3, I2, H1.
Qed.

End RunExtends.

Lemma wellFormed_empty : wellFormed emptyState.
Proof. split; simpl; [reflexivity | constructor]. Qed.

Lemma wellFormed_once st name :
  wellFormed st -> In name (generatedTypes st) -> declarationsOf name st = 1.
Proof.
  intros [A B] Hin. unfold declarationsOf. rewrite A.
  apply NoDup_count_occ'.
  - apply NoDup_rev. exact B.
  - apply in_rev in Hin. exact Hin.
Qed.

(** ** The extractor: operations of a channel *)

Lemma addOperation_fold channelId l : forall acc,
  fold_left (addOperation channelId) l acc
  = mkChannelOperations
      (ops_send acc
       ++ map (fun o => convertOperation o channelId)
            (filter (fun o => firstChannelIs o channelId
                              && String.eqb (o_action o) "send") l))
      (ops_receive acc
       ++ map (fun o => convertOperation o channelId)
            (filter (fun o => firstChannelIs o channelId
                              && String.eqb (o_action o) "receive") l)).
Proof.
  induction l as [|o t IH]; intros [snd rcv]; simpl.
  - rewrite !app_nil_r. reflexivity.
  - rewrite IH. unfold addOperation.
    destruct (firstChannelIs o channelId); simpl; [|reflexivity].
    destruct (String.eqb (o_action o) "send") eqn:Es.
    + apply String.eqb_eq in Es. rewrite Es. simpl.
      rewrite <- app_assoc. reflexivity.
    + destruct (String.eqb (o_action o) "receive"); simpl;
        [rewrite <- app_assoc|]; reflexivity.
Qed.

(** C10: an operation is attributed to a channel exactly when the first
    channel it lists has the channel's id: the send list of the channel is
    the list of the operations with action [send] whose first channel is
    the channel, in order, and likewise the receive list.  An operation
    that names the channel at a later position only is left out. *)
Theorem operations_attributed_by_first_channel
    (document : LDocument) (channelId : string) :
  ops_send (extractOperationsFromChannel document channelId)
  = map (fun o => convertOperation o channelId)
      (filter (fun o => firstChannelIs o channelId
                        && String.eqb (o_action o) "send")
              (d_operations document))
  /\ ops_receive (extractOperationsFromChannel document channelId)
     = map (fun o => convertOperation o channelId)
         (filter (fun o => firstChannelIs o channelId
                           && String.eqb (o_action o) "receive")
                 (d_operations document)).
Proof.
  unfold extractOperationsFromChannel. rewrite addOperation_fold.
  simpl. auto.
Qed.

(** An operation that lists the channel second is in neither list. *)
Example operation_on_second_channel_is_omitted :
  let a := mkLChannel "a" None None [] in
  let b := mkLChannel "b" None None [] in
  let document :=
    mkLDocument "T" "1" None [a; b]
      [mkLOperation [a; b] "send" [] None] None in
  extractOperationsFromChannel document "b" = mkChannelOperations [] []
  /\ ops_send (extractOperationsFromChannel document "a")
     = [mkParsedOperation "send" "a" [] None].
Proof. split; reflexivity. Qed.

(** ** The extractor: failures of [parse] *)

Lemma readFile_failure_stops_parse w filePath error :
  readFile w filePath = inl error -> parse w filePath = (inl error, []).
Proof. unfold parse. intros H. rewrite H. reflexivity. Qed.

Lemma filter_nil_iff {A : Type} (p : A -> bool) l :
  filter p l = [] <-> (forall x, In x l -> p x = false).
Proof.
  induction l as [|x t IH]; simpl.
  - split; [intros _ y []|reflexivity].
  - destruct (p x) eqn:E.
    + split; [discriminate|]. intros H. rewrite (H x) in E; [discriminate|].
      left. reflexivity.
    + rewrite IH. split.
      * intros H y [->|Hy]; auto.
      * intros H y Hy. apply H. right. exact Hy.
Qed.

Lemma parse_read w filePath content :
  readFile w filePath = inr content ->
  parse w filePath
  = (let rawSpec := JSON_parse w content in
     let errors := filter isError (snd (parser_parse w content)) in
     let warnings := filter isWarning (snd (parser_parse w content)) in
     let trace := ParserInvoked content :: reportWarnings warnings
                  ++ reportErrors errors in
     match errors with
     | _ :: _ =>
       (inl (Error
          "Failed to parse AsyncAPI specification. See errors above."),
        trace)
     | [] =>
       match fst (parser_parse w content) with
       | None => (inl (Error "Failed to parse AsyncAPI document"), trace)
       | Some doc =>
         match visitDocument (stack_depth w) rawSpec doc with
         | Some visited => (inr (extractData rawSpec visited), trace)
         | None => (inl stackOverflow, trace)
         end
       end
     end).
Proof.
  intros R. unfold parse. rewrite R.
  destruct (parser_parse w content) as [document diagnostics]. reflexivity.
Qed.

(** C7: each input-access problem gives its own failure, and the parser
    is not invoked: a file that is absent or may not be read, whether
    [fs.stat] or [fs.readFile] finds out, a path that is no regular file,
    a file above the size ceiling; the four messages differ.  Error
    diagnostics give one failure, after every warning and every error was
    reported, and no document.  Without error diagnostics the warnings
    are reported and the outcome is the one of the extraction itself: the
    extracted document, or the [RangeError] of a conversion that exhausts
    the stack; where the parser hands back no document, the failure
    [Failed to parse AsyncAPI document]. *)
Theorem parse_failure_modes (w : World) (filePath : string) :
  (fs_stat w (path_resolve w filePath) = inl (ErrnoException "ENOENT") ->
   parse w filePath = (inl (Error ("File not found: " ++ filePath)), []))
  /\ (fs_stat w (path_resolve w filePath) = inl (ErrnoException "EACCES") ->
      parse w filePath
      = (inl (Error ("Permission denied: " ++ filePath)), []))
  /\ (forall stats,
        fs_stat w (path_resolve w filePath) = inr stats ->
        isFile stats = false ->
        parse w filePath
        = (inl (Error ("Path is not a file: " ++ filePath)), []))
  /\ (forall stats,
        fs_stat w (path_resolve w filePath) = inr stats ->
        isFile stats = true ->
        (MAX_FILE_SIZE < size stats)%N ->
        parse w filePath
        = (inl (Error ("File too large ("
                       ++ megabytes_toFixed2 w (size stats)
                       ++ "MB). Maximum size is 10MB")), []))
  /\ (forall stats,
        fs_stat w (path_resolve w filePath) = inr stats ->
        isFile stats = true ->
        (size stats <= MAX_FILE_SIZE)%N ->
        (fs_readFile w (path_resolve w filePath)
         = inl (ErrnoException "ENOENT") ->
         parse w filePath
         = (inl (Error ("File not found: " ++ filePath)), []))
        /\ (fs_readFile w (path_resolve w filePath)
            = inl (ErrnoException "EACCES") ->
            parse w filePath
            = (inl (Error ("Permission denied: " ++ filePath)), [])))
  /\ (forall x, ("File not found: " ++ filePath)%string
                <> ("Permission denied: " ++ filePath)%string
                /\ ("File not found: " ++ filePath)%string
                   <> ("Path is not a file: " ++ filePath)%string
                /\ ("File not found: " ++ filePath)%string
                   <> ("File too large (" ++ x)%string
                /\ ("Permission denied: " ++ filePath)%string
                   <> ("Path is not a file: " ++ filePath)%string
                /\ ("Permission denied: " ++ filePath)%string
                   <> ("File too large (" ++ x)%string
                /\ ("Path is not a file: " ++ filePath)%string
                   <> ("File too large (" ++ x)%string)
  /\ (forall content document diagnostics,
        readFile w filePath = inr content ->
        parser_parse w content = (document, diagnostics) ->
        let warnings :=
          filter (fun d => Nat.eqb (severity d) 1) diagnostics in
        let errors :=
          filter (fun d => Nat.eqb (severity d) 0) diagnostics in
        (forall d, In d diagnostics -> severity d = 1 ->
           In (WarnLine (message d)) (snd (parse w filePath)))
        /\ (forall d, In d diagnostics -> severity d = 0 ->
              In (ErrorLine (message d)) (snd (parse w filePath)))
        /\ ((exists d, In d diagnostics /\ severity d = 0) ->
            parse w filePath
            = (inl (Error
                 "Failed to parse AsyncAPI specification. See errors above."),
               ParserInvoked content
               :: match warnings with
                  | [] => []
                  | _ :: _ =>
                    WarnHeader (length warnings)
                    :: map (fun d => WarnLine (message d)) warnings
                  end
               ++ ErrorHeader (length errors)
                  :: map (fun d => ErrorLine (message d)) errors))
        /\ ((forall d, In d diagnostics -> severity d <> 0) ->
            parse w filePath
            = (match document with
               | Some graphDocument =>
                 match visitDocument (stack_depth w) (JSON_parse w content)
                         graphDocument with
                 | Some visited =>
                   inr (extractData (JSON_parse w content) visited)
                 | None => inl stackOverflow
                 end
               | None => inl (Error "Failed to parse AsyncAPI document")
               end,
               ParserInvoked content
               :: match warnings with
                  | [] => []
                  | _ :: _ =>
                    WarnHeader (length warnings)
                    :: map (fun d => WarnLine (message d)) warnings
                  end))).
Proof.
  repeat match goal with |- _ /\ _ => split end.
  - intros H. apply readFile_failure_stops_parse.
    unfold readFile. rewrite H. reflexivity.
  - intros H. apply readFile_failure_stops_parse.
    unfold readFile. rewrite H. reflexivity.
  - intros stats H F. apply readFile_failure_stops_parse.
    unfold readFile. rewrite H, F. reflexivity.
  - intros stats H F L. apply readFile_failure_stops_parse.
    unfold readFile. rewrite H, F. apply N.ltb_lt in L. rewrite L.
    reflexivity.
  - intros stats H F L. apply N.ltb_ge in L.
    split; intros R; apply readFile_failure_stops_parse;
      unfold readFile; rewrite H, F, L, R; reflexivity.
  - intros x.
    repeat match goal with |- _ /\ _ => split end;
      intros E; simpl in E; inversion E.
  - intros content document diagnostics R Pp warnings errors.
    rewrite (parse_read _ _ _ R). rewrite Pp. cbn [fst snd].
    change (filter isWarning diagnostics) with warnings.
    change (filter isError diagnostics) with errors.
    assert (W : forall d, In d diagnostics -> severity d = 1 ->
                          In (WarnLine (message d)) (reportWarnings warnings)).
    { intros d Hd Sd.
      assert (Hw : In d warnings).
      { apply filter_In. split; [exact Hd|]. rewrite Sd. reflexivity. }
      unfold reportWarnings. destruct warnings as [|x t]; [destruct Hw|].
      right. apply (in_map (fun d => WarnLine (message d))). exact Hw. }
    assert (E : forall d, In d diagnostics -> severity d = 0 ->
                          In (ErrorLine (message d)) (reportErrors errors)).
    { intros d Hd Sd.
      assert (He : In d errors).
      { apply filter_In. split; [exact Hd|]. rewrite Sd. reflexivity. }
      unfold reportErrors. destruct errors as [|x t]; [destruct He|].
      right. apply (in_map (fun d => ErrorLine (message d))). exact He. }
    repeat match goal with |- _ /\ _ => split end.
    + intros d Hd Sd.
      match goal with
      | |- In _ (snd ?x) =>
        assert (S : snd x = ParserInvoked content
                            :: reportWarnings warnings ++ reportErrors errors)
      end.
      { destruct errors; [|reflexivity].
        destruct document as [doc|]; [|reflexivity].
        destruct (visitDocument _ _ doc); reflexivity. }
      rewrite S. right. apply in_or_app. left. exact (W d Hd Sd).
    + intros d Hd Sd.
      match goal with
      | |- In _ (snd ?x) =>
        assert (S : snd x = ParserInvoked content
                            :: reportWarnings warnings ++ reportErrors errors)
      end.
      { destruct errors; [|reflexivity].
        destruct document as [doc|]; [|reflexivity].
        destruct (visitDocument _ _ doc); reflexivity. }
      rewrite S. right. apply in_or_app. right. exact (E d Hd Sd).
    + intros [d [Hd Sd]].
      assert (He : In d errors).
      { apply filter_In. split; [exact Hd|]. rewrite Sd. reflexivity. }
      destruct errors as [|x t] eqn:Ee; [destruct He|].
      unfold reportWarnings, reportErrors.
      destruct warnings; reflexivity.
    + intros Ne.
      assert (He : errors = []).
      { apply filter_nil_iff. intros d Hd. apply Nat.eqb_neq.
        exact (Ne d Hd). }
      rewrite He. simpl. rewrite app_nil_r.
      unfold reportWarnings.
      destruct document as [graphDocument|];
        [destruct (visitDocument _ _ graphDocument)|];
        destruct warnings; reflexivity.
Qed.

Lemma parse_failure_modes_witness :
  parse (sampleWorld (inl (ErrnoException "ENOENT")) []) "api.json"
  = (inl (Error "File not found: api.json"), [])
  /\ parse (sampleWorld (inl (ErrnoException "EACCES")) []) "api.json"
     = (inl (Error "Permission denied: api.json"), [])
  /\ parse (sampleWorld (inr (mkStats false 2)) []) "api.json"
     = (inl (Error "Path is not a file: api.json"), [])
  /\ parse (sampleWorld (inr (mkStats true 11534336)) []) "api.json"
     = (inl (Error "File too large (11.00MB). Maximum size is 10MB"), [])
  /\ parse unreadableWorld "api.json"
     = (inl (Error "Permission denied: api.json"), [])
  /\ parse (sampleWorld regularFile
              [mkDiagnostic 1 "w"; mkDiagnostic 0 "e1"; mkDiagnostic 0 "e2"])
           "api.json"
     = (inl (Error
               "Failed to parse AsyncAPI specification. See errors above."),
        [ParserInvoked "{}"; WarnHeader 1; WarnLine "w"; ErrorHeader 2;
         ErrorLine "e1"; ErrorLine "e2"])
  /\ In (WarnLine "w")
        (snd (parse (sampleWorld regularFile [mkDiagnostic 1 "w"])
                    "api.json"))
  /\ (exists parsed,
        parse (sampleWorld regularFile [mkDiagnostic 1 "w"]) "api.json"
        = (inr parsed, [ParserInvoked "{}"; WarnHeader 1; WarnLine "w"])).
Proof.
  repeat match goal with |- _ /\ _ => split end.
  - apply (proj1 (parse_failure_modes
                    (sampleWorld (inl (ErrnoException "ENOENT")) [])
                    "api.json")).
    reflexivity.
  - apply (proj1 (proj2 (parse_failure_modes
                    (sampleWorld (inl (ErrnoException "EACCES")) [])
                    "api.json"))).
    reflexivity.
  - apply (proj1 (proj2 (proj2 (parse_failure_modes
                    (sampleWorld (inr (mkStats false 2)) []) "api.json")))
             (mkStats false 2)); reflexivity.
  - exact (proj1 (proj2 (proj2 (proj2 (parse_failure_modes
                    (sampleWorld (inr (mkStats true 11534336)) [])
                    "api.json"))))
             (mkStats true 11534336) eq_refl eq_refl eq_refl).
  - destruct (parse_failure_modes unreadableWorld "api.json")
      as (_ & _ & _ & _ & H & _).
    apply (H (mkStats true 2)); try reflexivity.
    vm_compute. discriminate.
  - destruct (parse_failure_modes
                (sampleWorld regularFile
                   [mkDiagnostic 1 "w"; mkDiagnostic 0 "e1";
                    mkDiagnostic 0 "e2"]) "api.json")
      as (_ & _ & _ & _ & _ & _ & H).
    destruct (H "{}" (Some sampleGDocument)
                [mkDiagnostic 1 "w"; mkDiagnostic 0 "e1"; mkDiagnostic 0 "e2"]
                eq_refl eq_refl) as (_ & _ & Herr & _).
    apply Herr. exists (mkDiagnostic 0 "e1"). simpl. auto.
  - destruct (parse_failure_modes
                (sampleWorld regularFile [mkDiagnostic 1 "w"]) "api.json")
      as (_ & _ & _ & _ & _ & _ & H).
    destruct (H "{}" (Some sampleGDocument) [mkDiagnostic 1 "w"]
                eq_refl eq_refl) as (Hw & _).
    apply (Hw (mkDiagnostic 1 "w")); simpl; auto.
  - destruct (parse_failure_modes
                (sampleWorld regularFile [mkDiagnostic 1 "w"]) "api.json")
      as (_ & _ & _ & _ & _ & _ & H).
    destruct (H "{}" (Some sampleGDocument) [mkDiagnostic 1 "w"]
                eq_refl eq_refl) as (_ & _ & _ & Hok).
    eexists. rewrite (Hok (fun d Hd => match Hd with
                                       | or_introl E =>
                                         eq_ind (mkDiagnostic 1 "w")
                                           (fun x => severity x <> 0)
                                           (fun F => O_S 0 (eq_sym F)) d E
                                       | or_intror F => match F with end
                                       end)).
    reflexivity.
Defined.

(** ** The extractor: pointers of the raw document *)

Lemma convertSchema_ref schema raw r :
  raw_ref raw = Some r -> convertSchema schema raw = refOnly r.
Proof. intros H. destruct schema. simpl. rewrite H. reflexivity. Qed.

Lemma assoc_map_entry {A B : Type} (F : A -> string -> B) key l child :
  assoc key l = Some child ->
  assoc key (map (fun entry => (fst entry, F (snd entry) (fst entry))) l)
  = Some (F child key).
Proof.
  induction l as [|[k v] t IH]; simpl; [discriminate|].
  destruct (String.eqb key k) eqn:E; [|exact IH].
  intros H. inv_opt. apply String.eqb_eq in E. subst. reflexivity.
Qed.

Lemma nth_error_mapi {A B : Type} (f : A -> nat -> B) l : forall i0 i,
  nth_error (mapi f l i0) i
  = match nth_error l i with
    | Some x => Some (f x (i0 + i))
    | None => None
    end.
Proof.
  induction l as [|x t IH]; intros i0 [|i]; simpl; try reflexivity.
  - rewrite Nat.add_0_r. reflexivity.
  - rewrite IH. rewrite Nat.add_succ_r. reflexivity.
Qed.

Lemma convertSchema_step schema raw s child :
  raw_ref raw = None ->
  resolvedStep schema s = Some child ->
  extractedStep (convertSchema schema raw) s
  = Some (convertSchema child (rawStep raw s)).
Proof.
  intros R H.
  destruct schema as [ty de fo pr it rq en al an on rf ad].
  destruct s as [key| |i|i|i|]; simpl in H; simpl; rewrite R; simpl.
  - destruct pr as [[|p t]|]; try discriminate.
    exact (assoc_map_entry
             (fun x k => convertSchema x (jget (jget raw "properties") k))
             key (p :: t) child H).
  - rewrite H. reflexivity.
  - destruct al as [l|]; [|discriminate]. simpl in *.
    rewrite nth_error_mapi, H. reflexivity.
  - destruct an as [l|]; [|discriminate]. simpl in *.
    rewrite nth_error_mapi, H. reflexivity.
  - destruct on as [l|]; [|discriminate]. simpl in *.
    rewrite nth_error_mapi, H. reflexivity.
  - destruct ad as [[b|x]|]; try discriminate. inv_opt. reflexivity.
Qed.

Lemma convertSchema_at path : forall schema raw child,
  noRefAbove raw path ->
  resolvedAt schema path = Some child ->
  extractedAt (convertSchema schema raw) path
  = Some (convertSchema child (rawAt raw path)).
Proof.
  induction path as [|s rest IH]; simpl; intros schema raw child N H.
  - inv_opt. reflexivity.
  - destruct N as [R N].
    destruct (resolvedStep schema s) as [c|] eqn:E; [|discriminate].
    rewrite (convertSchema_step _ _ _ _ R E). apply IH; assumption.
Qed.

Lemma existsb_eqb_In k (l : list string) :
  existsb (String.eqb k) l = true <-> In k l.
Proof.
  rewrite existsb_exists. split.
  - intros [x [Hx E]]. apply String.eqb_eq in E. subst. exact Hx.
  - intros H. exists k. split; [exact H | apply String.eqb_refl].
Qed.

Lemma assoc_none {A : Type} k (l : list (string * A)) :
  ~ In k (map fst l) -> assoc k l = None.
Proof.
  induction l as [|[k' x] t IH]; simpl; intros H; [reflexivity|].
  destruct (String.eqb k k') eqn:E.
  - apply String.eqb_eq in E. subst. tauto.
  - apply IH. tauto.
Qed.

Lemma assoc_replaceValue {A : Type} k (v : A) l id :
  assoc id (replaceValue k v l)
  = if String.eqb id k then
      match assoc k l with Some _ => Some v | None => None end
    else assoc id l.
Proof.
  induction l as [|[k' x] t IH]; simpl.
  - destruct (String.eqb id k); reflexivity.
  - destruct (String.eqb k k') eqn:E; simpl.
    + apply String.eqb_eq in E. subst k'.
      destruct (String.eqb id k); reflexivity.
    + rewrite IH. destruct (String.eqb id k) eqn:F; [|reflexivity].
      apply String.eqb_eq in F. subst id. rewrite E. reflexivity.
Qed.

Lemma assoc_insertIndex {A : Type} n k (v : A) l id :
  ~ In k (map fst l) ->
  assoc id (insertIndex n k v l)
  = if String.eqb id k then Some v else assoc id l.
Proof.
  induction l as [|[k' x] t IH]; simpl; intros H.
  - destruct (String.eqb id k); reflexivity.
  - assert (Hne : String.eqb id k = true -> String.eqb id k' = false).
    { intros E. apply String.eqb_eq in E. subst id.
      apply String.eqb_neq. intros F. subst. tauto. }
    destruct (arrayIndex k') as [m|].
    + destruct (m <? n)%N; simpl.
      * rewrite IH by tauto.
        destruct (String.eqb id k) eqn:E; [|reflexivity].
        rewrite (Hne eq_refl). reflexivity.
      * destruct (String.eqb id k); reflexivity.
    + simpl. destruct (String.eqb id k); reflexivity.
Qed.

Lemma assoc_app_fresh {A : Type} k (v : A) l id :
  ~ In k (map fst l) ->
  assoc id (l ++ [(k, v)])
  = if String.eqb id k then Some v else assoc id l.
Proof.
  induction l as [|[k' x] t IH]; simpl; intros H; [reflexivity|].
  destruct (String.eqb id k') eqn:E.
  - destruct (String.eqb id k) eqn:F; [|reflexivity].
    apply String.eqb_eq in E. apply String.eqb_eq in F. subst. tauto.
  - apply IH. tauto.
Qed.

(** Reading a key back after [schemas[k] = v]. *)
Lemma assoc_setKey {A : Type} k (v : A) l id :
  assoc id (setKey k v l)
  = if String.eqb k "__proto__" then assoc id l
    else if String.eqb id k then Some v
    else assoc id l.
Proof.
  unfold setKey. destruct (String.eqb k "__proto__"); [reflexivity|].
  destruct (existsb (String.eqb k) (map fst l)) eqn:E.
  - rewrite assoc_replaceValue.
    destruct (String.eqb id k); [|reflexivity].
    apply existsb_eqb_In in E.
    destruct (assoc k l) eqn:F; [reflexivity|].
    exfalso. clear - E F. induction l as [|[k' x] t IH]; [destruct E|].
    simpl in *. destruct (String.eqb k k') eqn:G; [discriminate|].
    destruct E as [E|E]; [|auto].
    subst. rewrite String.eqb_refl in G. discriminate.
  - assert (N : ~ In k (map fst l)).
    { intros H. apply existsb_eqb_In in H. congruence. }
    destruct (arrayIndex k).
    + apply assoc_insertIndex. exact N.
    + apply assoc_app_fresh. exact N.
Qed.

Lemma extractSchemas_fold_other rawSpec id l : forall acc,
  ~ In id (map fst l) ->
  assoc id
    (fold_left
       (fun schemas (entry : string * rschema) =>
          let '(schemaId, schema) := entry in
          setKey schemaId
            (convertSchemaToObject (Some schema)
               (rawComponent rawSpec "schemas" schemaId))
            schemas)
       l acc)
  = assoc id acc.
Proof.
  induction l as [|[k x] t IH]; intros acc H; [reflexivity|].
  cbn [fold_left]. rewrite IH by (simpl in H; tauto). rewrite assoc_setKey.
  destruct (String.eqb k "__proto__"); [reflexivity|].
  destruct (String.eqb id k) eqn:E; [|reflexivity].
  apply String.eqb_eq in E. subst. simpl in H. tauto.
Qed.

Lemma extractSchemas_fold rawSpec id schema l : forall acc,
  NoDup (map fst l) ->
  id <> "__proto__" ->
  assoc id l = Some schema ->
  assoc id
    (fold_left
       (fun schemas (entry : string * rschema) =>
          let '(schemaId, schema) := entry in
          setKey schemaId
            (convertSchemaToObject (Some schema)
               (rawComponent rawSpec "schemas" schemaId))
            schemas)
       l acc)
  = Some (convertSchema schema (rawComponent rawSpec "schemas" id)).
Proof.
  induction l as [|[k x] t IH]; intros acc ND P H; [discriminate|].
  cbn [fold_left]. simpl in ND, H.
  inversion ND as [|? ? Hk ND']. subst.
  destruct (String.eqb id k) eqn:E.
  - apply String.eqb_eq in E. subst k. inv_opt.
    rewrite extractSchemas_fold_other by exact Hk.
    rewrite assoc_setKey.
    apply String.eqb_neq in P. rewrite P, String.eqb_refl. reflexivity.
  - apply IH; assumption.
Qed.

Lemma extractSchemas_lookup rawSpec document components schemaId schema :
  d_components document = Some components ->
  NoDup (map fst (comp_schemas components)) ->
  schemaId <> "__proto__" ->
  assoc schemaId (comp_schemas components) = Some schema ->
  assoc schemaId (extractSchemas rawSpec document)
  = Some (convertSchema schema (rawComponent rawSpec "schemas" schemaId)).
Proof.
  intros C ND P A. unfold extractSchemas. rewrite C.
  apply extractSchemas_fold; assumption.
Qed.

(** A pointer of the raw document, at any depth below a conversion that
    is given the raw counterpart. *)
Lemma convertSchema_pointer schema raw path child r :
  resolvedAt schema path = Some child ->
  noRefAbove raw path ->
  raw_ref (rawAt raw path) = Some r ->
  extractedAt (convertSchema schema raw) path = Some (refOnly r).
Proof.
  intros Hc Hn Hq.
  rewrite (convertSchema_at path schema raw child Hn Hc).
  rewrite (convertSchema_ref child _ r Hq). reflexivity.
Qed.

(** What a document that [parse] returns is made of. *)
Lemma parse_success w filePath parsed trace :
  parse w filePath = (inr parsed, trace) ->
  exists content graphDocument diagnostics visited,
    readFile w filePath = inr content
    /\ parser_parse w content = (Some graphDocument, diagnostics)
    /\ filter isError diagnostics = []
    /\ visitDocument (stack_depth w) (JSON_parse w content) graphDocument
       = Some visited
    /\ parsed = extractData (JSON_parse w content) visited
    /\ trace = ParserInvoked content
               :: reportWarnings (filter isWarning diagnostics).
Proof.
  intros Hok. unfold parse in Hok.
  destruct (readFile w filePath) as [e|content] eqn:R; [discriminate|].
  destruct (parser_parse w content) as [document diagnostics] eqn:Pp.
  destruct (filter isError diagnostics) as [|x xs] eqn:F; [|discriminate].
  destruct document as [doc|]; [|discriminate].
  destruct (visitDocument (stack_depth w) (JSON_parse w content) doc)
    as [visited|] eqn:V; [|discriminate].
  inversion Hok. subst.
  exists content, doc, diagnostics, visited.
  repeat match goal with |- _ /\ _ => split end;
    try reflexivity; try assumption.
  simpl. rewrite app_nil_r. reflexivity.
Qed.




(** ** Identifier sanitation *)

(** The names the tests of the generator expect. *)
Example sanitize_tests :
  map sanitizeIdentifier
    ["user-name"; "user_name"; "user.name"; "UserName"; "userName";
     "user123"; "123test"; "interface"; "kebab-case-name"]
  = ["UserName"; "UserName"; "UserName"; "UserName"; "UserName";
     "User123"; "_123test"; "Interface_"; "KebabCaseName"].
Proof. reflexivity. Qed.

Lemma pascalFrom_boundary u : forall b sep c rest,
  isAlnum sep = false -> isAlnum c = true ->
  pascalFrom b (u ++ String sep (String c rest))
  = (pascalFrom b u ++ String (upcase c) (pascalFrom false rest))%string.
Proof.
  induction u as [|a u IH]; intros b sep c rest Hs Hc; simpl.
  - rewrite Hs, Hc. reflexivity.
  - destruct (isAlnum a); simpl; rewrite IH by assumption; reflexivity.
Qed.

Lemma mem_forallb (P : string -> bool) x l :
  mem x l = true -> forallb P l = true -> P x = true.
Proof.
  intros M F. apply mem_In in M.
  rewrite forallb_forall in F. auto.
Qed.

Lemma mapString_app f a b :
  mapString f (a ++ b) = (mapString f a ++ mapString f b)%string.
Proof. induction a as [|c a IH]; simpl; [|rewrite IH]; reflexivity. Qed.

Lemma allChars_app_false p a c :
  p c = false -> allChars p (a ++ String c "") = false.
Proof.
  intros H. induction a as [|x a IH]; simpl.
  - rewrite H. reflexivity.
  - rewrite IH. apply andb_false_r.
Qed.

Lemma startsWithDigit_lower p :
  startsWithDigit (toLowerCase p) = startsWithDigit p.
Proof.
  destruct p as [|c t]; simpl; [reflexivity|].
  unfold downcase. destruct (isUpper c) eqn:U; [|reflexivity].
  unfold isUpper, isDigit in *.
  rewrite nat_ascii_embedding.
  - apply andb_true_iff in U. destruct U as [A B].
    apply Nat.leb_le in A. apply Nat.leb_le in B.
    destruct (48 <=? nat_of_ascii c + 32)%nat eqn:X, (nat_of_ascii c + 32 <=? 57)%nat eqn:Y,
      (48 <=? nat_of_ascii c)%nat eqn:Z, (nat_of_ascii c <=? 57)%nat eqn:V;
      simpl; try reflexivity;
      repeat match goal with
             | H : (_ <=? _)%nat = true |- _ => apply Nat.leb_le in H
             | H : (_ <=? _)%nat = false |- _ => apply Nat.leb_gt in H
             end; lia.
  - apply andb_true_iff in U. destruct U as [A B].
    apply Nat.leb_le in B. lia.
Qed.

Lemma reserved_not_digit p :
  mem (toLowerCase p) reservedWords = true -> startsWithDigit p = false.
Proof.
  intros M.
  pose proof (mem_forallb (fun w => negb (startsWithDigit w)) _ _ M
                eq_refl) as H.
  simpl in H. rewrite startsWithDigit_lower in H.
  destruct (startsWithDigit p); [discriminate | reflexivity].
Qed.

Lemma underscore_not_reserved x :
  mem (String "_" x) reservedWords = false.
Proof.
  destruct (mem (String "_" x) reservedWords) eqn:M; [|reflexivity].
  pose proof (mem_forallb
                (fun w => match w with
                          | String c _ => negb (Ascii.eqb c "_")
                          | EmptyString => true
                          end) _ _ M eq_refl) as H.
  discriminate H.
Qed.

Lemma suffixed_not_reserved x :
  mem (x ++ "_") reservedWords = false.
Proof.
  destruct (mem (x ++ "_") reservedWords) eqn:M; [|reflexivity].
  pose proof (mem_forallb (allChars isLower) _ _ M eq_refl) as H.
  rewrite allChars_app_false in H; [discriminate | reflexivity].
Qed.

Lemma toLowerCase_underscore p :
  toLowerCase ("_" ++ p) = String "_" (toLowerCase p).
Proof. reflexivity. Qed.

(** C9: the three keys of the specification are declared as [UserName],
    [_123test] and [Interface_]; a separator makes a word boundary and the
    letter behind it is uppercased; a result that would start with a digit
    gets an underscore in front, a result that is a reserved word gets one
    behind; and so no declared name starts with a digit or is a reserved
    word. *)
Theorem sanitize_identifier_rules
    (key u rest : string) (sep c : ascii)
    (Hsep : isAlnum sep = false) (Hc : isAlnum c = true) :
  sanitizeIdentifier "user-name" = "UserName"
  /\ sanitizeIdentifier "123test" = "_123test"
  /\ sanitizeIdentifier "interface" = "Interface_"
  /\ toPascalCase (u ++ String sep (String c rest))
     = (toPascalCase u ++ String (upcase c) (pascalFrom false rest))%string
  /\ (startsWithDigit (toPascalCase key) = true ->
      sanitizeIdentifier key = ("_" ++ toPascalCase key)%string)
  /\ (mem (toLowerCase (toPascalCase key)) reservedWords = true ->
      sanitizeIdentifier key = (toPascalCase key ++ "_")%string)
  /\ startsWithDigit (sanitizeIdentifier key) = false
  /\ mem (toLowerCase (sanitizeIdentifier key)) reservedWords = false.
Proof.
  repeat match goal with |- _ /\ _ => split end; try reflexivity.
  - apply pascalFrom_boundary; assumption.
  - intros D. unfold sanitizeIdentifier. rewrite D.
    rewrite toLowerCase_underscore, underscore_not_reserved. reflexivity.
  - intros R. unfold sanitizeIdentifier.
    rewrite (reserved_not_digit _ R), R. reflexivity.
  - unfold sanitizeIdentifier.
    destruct (startsWithDigit (toPascalCase key)) eqn:D.
    + rewrite toLowerCase_underscore, underscore_not_reserved. reflexivity.
    + destruct (mem (toLowerCase (toPascalCase key)) reservedWords);
        [|exact D].
      destruct (toPascalCase key); simpl in *; [reflexivity | exact D].
  - unfold sanitizeIdentifier.
    destruct (startsWithDigit (toPascalCase key)) eqn:D.
    + rewrite toLowerCase_underscore, underscore_not_reserved.
      rewrite toLowerCase_underscore. apply underscore_not_reserved.
    + destruct (mem (toLowerCase (toPascalCase key)) reservedWords) eqn:M;
        [|exact M].
      unfold toLowerCase. rewrite mapString_app.
      apply (suffixed_not_reserved (mapString downcase (toPascalCase key))).
Qed.

Lemma sanitize_identifier_rules_witness :
  toPascalCase "user-name" = "UserName"
  /\ sanitizeIdentifier "123test" = "_123test".
Proof.
  pose proof (sanitize_identifier_rules "123test" "user" "ame" "-" "n"
                eq_refl eq_refl)
    as [_ [_ [_ [B [D _]]]]].
  split; [exact B | exact (D eq_refl)].
Defined.

(** ** The type compiler: names the guard holds

    The same for a relation that depends on the guard of the call: it may
    forbid the emission of a name the guard holds, as long as it allows
    the alias declaration of a component schema that is a bare pointer,
    which is emitted whatever the guard holds. *)

Section Guarded.

Variable opts : GeneratorOptions.
Variable schemas : list (string * SchemaObject).
Variable Q : list string -> GenState -> GenState -> Prop.

Hypothesis Q_refl : forall g st, Q g st st.
Hypothesis Q_trans : forall g a b c, Q g a b -> Q g b c -> Q g a c.
Hypothesis Q_weaken : forall x g a b, Q (x :: g) a b -> Q g a b.
Hypothesis Q_emit_free : forall g name text st,
  mem name g = false -> Q g st (emit name text st).
Hypothesis Q_emit_alias : forall g key target text st,
  In (key, target) schemas -> isRef target = true ->
  Q g st (emit (sanitizeIdentifier key) text st).
Hypothesis Q_warn : forall g ref st,
  resolveRef schemas ref = None -> Q g st (warn (unresolvedWarning ref) st).

Section StepGuarded.

Variable rec : Renderer.
Hypothesis rec_guarded : RecGuarded Q rec.

Lemma hoist_guarded name node guard st st' :
  (isRef node = true ->
   exists key, In (key, node) schemas /\ name = sanitizeIdentifier key) ->
  hoist rec name node guard st = Some st' -> Q guard st st'.
Proof.
  unfold hoist. intros A H.
  destruct (mem name (generatedTypes st)); inv_opt; auto.
  destruct (rec name node true guard st) as [[[t|t] st1]|] eqn:E; inv_opt.
  - destruct (rec_guarded _ _ _ _ _ _ _ E) as [HQ HD].
    eapply Q_trans; [exact HQ|].
    destruct (HD t eq_refl) as [R|G].
    + destruct (A R) as [key [Hin ->]]. eapply Q_emit_alias; eauto.
    + apply Q_emit_free. exact G.
  - exact (proj1 (rec_guarded _ _ _ _ _ _ _ E)).
Qed.

Lemma nested_guarded name node guard st t st' :
  nested rec name node guard st = Some (t, st') -> Q guard st st'.
Proof.
  unfold nested. intros H.
  destruct (rec name node false guard st) as [[r st1]|] eqn:E; inv_opt.
  exact (proj1 (rec_guarded _ _ _ _ _ _ _ E)).
Qed.

Lemma renderBranches_guarded name bs : forall index guard st ts st',
  renderBranches rec name index bs guard st = Some (ts, st') ->
  Q guard st st'.
Proof.
  induction bs as [|b bs IH]; simpl; intros index guard st ts st' H.
  - inv_opt; auto.
  - destruct (nested rec _ b guard st) as [[t st1]|] eqn:E1; inv_opt.
    destruct (renderBranches rec name (S index) bs guard st1)
      as [[ts' st2]|] eqn:E2; inv_opt.
    eapply Q_trans; [eapply nested_guarded; eauto | eapply IH; eauto].
Qed.

Lemma renderProperties_guarded name node props : forall guard st ls st',
  renderProperties rec name node props guard st = Some (ls, st') ->
  Q guard st st'.
Proof.
  induction props as [|[pn ps] rest IH]; simpl; intros guard st ls st' H.
  - inv_opt; auto.
  - destruct (nested rec _ ps guard st) as [[t st1]|] eqn:E1; inv_opt.
    destruct (renderProperties rec name node rest guard st1)
      as [[ls' st2]|] eqn:E2; inv_opt.
    eapply Q_trans; [eapply nested_guarded; eauto | eapply IH; eauto].
Qed.

Lemma renderIndexSignature_guarded name node guard st ls st' :
  renderIndexSignature opts rec name node guard st = Some (ls, st') ->
  Q guard st st'.
Proof.
  unfold renderIndexSignature. intros H.
  destruct (so_additionalProperties node) as [[[|]|s]|]; inv_opt; auto.
  destruct (nested rec _ s guard st) as [[t st1]|] eqn:E1; inv_opt.
  eapply nested_guarded; eauto.
Qed.

Lemma renderItems_guarded name items guard st t st' :
  renderItems opts rec name items guard st = Some (t, st') ->
  Q guard st st'.
Proof.
  unfold renderItems. intros H.
  destruct items as [s|]; inv_opt; auto.
  destruct (nested rec _ s guard st) as [[t1 st1]|] eqn:E1; inv_opt.
  eapply nested_guarded; eauto.
Qed.

Lemma renderExpression_guarded name node kind guard st t st' :
  renderExpression opts rec name node kind guard st = Some (t, st') ->
  Q guard st st'.
Proof.
  unfold renderExpression. intros H.
  destruct kind; inv_opt; auto;
    try (destruct (renderBranches rec name 0 branches guard st)
           as [[ts st1]|] eqn:E; inv_opt;
         eapply renderBranches_guarded; eauto).
  eapply renderItems_guarded; eauto.
Qed.

Lemma renderDeclaration_guarded name node kind guard st r st' :
  renderDeclaration opts rec name node kind guard st = Some (r, st') ->
  Q guard st st'.
Proof.
  unfold renderDeclaration. intros H.
  destruct kind;
    try (destruct (renderExpression opts rec name node _ guard st)
           as [[t st1]|] eqn:E; inv_opt;
         eapply renderExpression_guarded; eauto; fail).
  - destruct (enumType opts); inv_opt; auto.
  - destruct (renderProperties rec name node _ guard st)
      as [[ls st1]|] eqn:E1; inv_opt.
    destruct (renderIndexSignature opts rec name node guard st1)
      as [[sig st2]|] eqn:E2; inv_opt.
    eapply Q_trans;
      [eapply renderProperties_guarded; eauto
      | eapply renderIndexSignature_guarded; eauto].
Qed.

Lemma renderNested_guarded name node kind guard st r st' :
  isRef node = false ->
  renderNested opts rec name node kind guard st = Some (r, st') ->
  Q guard st st' /\ exists t, r = TypeExpression t.
Proof.
  unfold renderNested. intros R H.
  destruct kind; try destruct (enumType opts);
    try (destruct (renderExpression opts rec name node _ guard st)
           as [[t st1]|] eqn:E; inv_opt;
         split; [eapply renderExpression_guarded; eauto | eauto]; fail);
    destruct (hoist rec name node guard st) as [st1|] eqn:E; inv_opt;
    (split; [|eauto]); eapply hoist_guarded; eauto;
    intros R'; congruence.
Qed.

Lemma renderStep_guarded : RecGuarded Q (renderStep opts schemas rec).
Proof.
  unfold RecGuarded, renderStep. intros name node top guard st r st' H.
  pose proof (kindOf_isRef node) as R.
  destruct (kindOf node) eqn:K;
    try (destruct top;
         [ destruct (mem name guard) eqn:G;
           [ inv_opt; split; [apply Q_refl | intros text E; discriminate]
           | split; [|intros text E; right; reflexivity];
             eapply Q_weaken; eapply renderDeclaration_guarded; eauto ]
         | destruct (renderNested_guarded _ _ _ _ _ _ _ R H) as [HQ [t E]];
           split; [exact HQ | intros text E'; congruence] ]; fail).
  split; [|intros text E; left; exact R].
  destruct (resolveRef schemas ref) as [[key target]|] eqn:Res.
  - destruct (hoist rec (sanitizeIdentifier key) target guard st)
      as [st1|] eqn:E; inv_opt.
    assert (Q guard st st1) as HQ.
    { eapply hoist_guarded; [|exact E]. intros _. exists key.
      split; [eapply resolveRef_In; eauto | reflexivity]. }
    destruct top; inv_opt; exact HQ.
  - destruct top; inv_opt; apply Q_warn; auto.
Qed.

End StepGuarded.

Lemma renderType_guarded fuel : RecGuarded Q (renderType opts schemas fuel).
Proof.
  induction fuel as [|n IH]; simpl.
  - unfold RecGuarded. intros; discriminate.
  - apply renderStep_guarded; auto.
Qed.

End Guarded.

Lemma emit_names name text st :
  incl (generatedTypes (emit name text st)) (name :: generatedTypes st).
Proof.
  unfold emit. destruct (mem name (generatedTypes st)); simpl.
  - intros x Hx. right. exact Hx.
  - apply incl_refl.
Qed.

Lemma renderType_keepsGuarded opts schemas fuel :
  RecGuarded (keepsGuarded schemas) (renderType opts schemas fuel).
Proof.
  apply renderType_guarded; unfold keepsGuarded.
  - auto.
  - intros g a b c H1 H2 name Hin Hn Ha. eauto.
  - intros x g a b H name Hin. apply H. right. exact Hin.
  - intros g name text st M x Hin _ Hx Hx'.
    apply emit_names in Hx'. destruct Hx' as [E|Hx']; [|auto].
    subst x. apply mem_In in Hin. congruence.
  - intros g key target text st Hin R x _ Hn Hx Hx'.
    apply emit_names in Hx'. destruct Hx' as [E|Hx']; [|auto].
    subst x. rewrite (Hn key target Hin eq_refl) in R. discriminate.
  - intros g ref st _ x _ _ Hx. exact Hx.
Qed.

Lemma renderDeclaration_keepsGuarded opts schemas fuel name node kind guard
    st r st' :
  renderDeclaration opts (renderType opts schemas fuel) name node kind guard
    st = Some (r, st') ->
  keepsGuarded schemas guard st st'.
Proof.
  apply (renderDeclaration_guarded opts (keepsGuarded schemas)).
  - unfold keepsGuarded. auto.
  - unfold keepsGuarded. intros g a b c H1 H2 x Hin Hn Ha. eauto.
  - apply renderType_keepsGuarded.
Qed.

(** Warnings are kept. *)
Lemma renderType_keeps_warnings opts schemas fuel :
  RecSound (fun st st' => incl (warnings st) (warnings st'))
           (renderType opts schemas fuel).
Proof.
  apply renderType_sound.
  - intros st. apply incl_refl.
  - intros a b c. apply incl_tran.
  - intros name text st. unfold emit.
    destruct (mem name (generatedTypes st)); apply incl_refl.
  - intros ref st _. simpl. apply incl_appl. apply incl_refl.
Qed.

(** ** The type compiler: references *)

Lemma stripPrefix_app p k : stripPrefix p (p ++ k) = Some k.
Proof.
  induction p as [|a p IH]; simpl; [reflexivity|].
  rewrite Ascii.eqb_refl. exact IH.
Qed.

Lemma resolveRef_original_key schemas key target :
  assoc key schemas = Some target ->
  resolveRef schemas (schemaPointerPrefix ++ key) = Some (key, target).
Proof.
  intros A. unfold resolveRef, extractRefName.
  rewrite stripPrefix_app, A. reflexivity.
Qed.

Lemma resolveRef_absent_key schemas key :
  assoc key schemas = None ->
  resolveRef schemas (schemaPointerPrefix ++ key) = None.
Proof.
  intros A. unfold resolveRef, extractRefName.
  rewrite stripPrefix_app, A. reflexivity.
Qed.

Lemma kindOf_ref node ref : so_ref node = Some ref -> kindOf node = KRef ref.
Proof. unfold kindOf. intros H. rewrite H. reflexivity. Qed.

(** The value a resolved or unresolved pointer leaves at its position. *)
Lemma renderType_resolved opts schemas fuel name node ref key target top
    guard st :
  so_ref node = Some ref ->
  resolveRef schemas ref = Some (key, target) ->
  renderType opts schemas (S fuel) name node top guard st
  = match hoist (renderType opts schemas fuel) (sanitizeIdentifier key)
            target guard st with
    | Some st1 =>
      Some (if top then
              DeclarationText
                (aliasDeclaration opts None name (sanitizeIdentifier key))
            else TypeExpression (sanitizeIdentifier key), st1)
    | None => None
    end.
Proof.
  intros N R. simpl. unfold renderStep.
  rewrite (kindOf_ref _ _ N), R.
  destruct (hoist _ _ target guard st); [destruct top|]; reflexivity.
Qed.

Lemma renderType_unresolved opts schemas fuel name node ref top guard st :
  so_ref node = Some ref ->
  resolveRef schemas ref = None ->
  renderType opts schemas (S fuel) name node top guard st
  = Some (if top then
            DeclarationText
              (aliasDeclaration opts None name (fallbackType opts))
          else TypeExpression (fallbackType opts),
          warn (unresolvedWarning ref) st).
Proof.
  intros N R. simpl. unfold renderStep.
  rewrite (kindOf_ref _ _ N), R. destruct top; reflexivity.
Qed.

Lemma unresolvedWarning_inj a b :
  unresolvedWarning a = unresolvedWarning b -> a = b.
Proof. unfold unresolvedWarning. simpl. intros H. inversion H. reflexivity. Qed.

Lemma aliasDeclaration_text opts name value :
  aliasDeclaration opts None name value
  = ((if exportEverything opts then "export " else "")
     ++ "type " ++ name ++ " = " ++ value ++ ";")%string.
Proof. reflexivity. Qed.

Lemma renderType_answers opts schemas name node top guard st :
  aliasAcyclic schemas ->
  exists fuel res,
    renderType opts schemas fuel name node top guard st = Some res.
Proof.
  intros AF.
  exists (S (cost schemas name node top guard)).
  apply (renderType_total opts schemas AF). lia.
Qed.

Lemma generate_answers g parsed :
  aliasAcyclic (pa_schemas parsed) ->
  exists st,
    runFrom (options g) parsed (enoughFuel parsed) emptyState = Some st
    /\ generate (enoughFuel parsed) g parsed
       = Some (joinWith (nl ++ nl)
                 (header parsed :: map decl_text (output st)),
               mkTypeScriptGenerator (options g) st).
Proof.
  intros AF. unfold generate.
  destruct (runFrom_total (options g) parsed AF emptyState) as [st E].
  rewrite E. exists st. split; reflexivity.
Qed.

(** ** The type compiler: the recursion guard *)

Lemma renderType_body opts schemas fuel name node guard st :
  isRef node = false ->
  mem name guard = false ->
  renderType opts schemas (S fuel) name node true guard st
  = renderDeclaration opts (renderType opts schemas fuel) name node
      (kindOf node) (name :: guard) st.
Proof.
  intros R M. simpl. unfold renderStep.
  rewrite kindOf_isRef in R.
  destruct (kindOf node); try discriminate; rewrite M; reflexivity.
Qed.

(** The back edge: a top-level call on a name the guard holds answers with
    the fallback type and does not enter the body. *)
Lemma back_edge_falls_back opts schemas fuel name node guard st :
  isRef node = false ->
  mem name guard = true ->
  renderType opts schemas (S fuel) name node true guard st
  = Some (TypeExpression (fallbackType opts), st).
Proof.
  intros R M. simpl. unfold renderStep.
  rewrite kindOf_isRef in R.
  destruct (kindOf node); try discriminate; rewrite M; reflexivity.
Qed.

(** A pointer to a name the guard holds: the body of the target is not
    entered, nothing is emitted, and the position gets the name. *)
Lemma pointer_at_back_edge opts schemas fuel name node ref key target top
    guard st :
  isRef target = false ->
  so_ref node = Some ref ->
  resolveRef schemas ref = Some (key, target) ->
  mem (sanitizeIdentifier key) guard = true ->
  renderType opts schemas (S (S fuel)) name node top guard st
  = Some (if top then
            DeclarationText
              (aliasDeclaration opts None name (sanitizeIdentifier key))
          else TypeExpression (sanitizeIdentifier key), st).
Proof.
  intros NR N R G.
  rewrite (renderType_resolved opts schemas (S fuel) name node ref key
             target top guard st N R).
  unfold hoist.
  destruct (mem (sanitizeIdentifier key) (generatedTypes st));
    [reflexivity|].
  rewrite (back_edge_falls_back opts schemas fuel _ target guard st NR G).
  reflexivity.
Qed.

(** A pointer to a name that is emitted: nothing is rendered, and the
    position gets the name. *)
Lemma pointer_to_emitted_name opts schemas fuel name node ref key target top
    guard st :
  so_ref node = Some ref ->
  resolveRef schemas ref = Some (key, target) ->
  mem (sanitizeIdentifier key) (generatedTypes st) = true ->
  renderType opts schemas (S fuel) name node top guard st
  = Some (if top then
            DeclarationText
              (aliasDeclaration opts None name (sanitizeIdentifier key))
          else TypeExpression (sanitizeIdentifier key), st).
Proof.
  intros N R E.
  rewrite (renderType_resolved opts schemas fuel name node ref key target
             top guard st N R).
  unfold hoist. rewrite E. reflexivity.
Qed.

Lemma renderProperties_length rec name node props : forall guard st ls st',
  renderProperties rec name node props guard st = Some (ls, st') ->
  length ls = length props.
Proof.
  induction props as [|[pn ps] rest IH]; simpl; intros guard st ls st' H.
  - inv_opt. reflexivity.
  - destruct (nested rec _ ps guard st) as [[t st1]|]; inv_opt.
    destruct (renderProperties rec name node rest guard st1)
      as [[ls' st2]|] eqn:E2; inv_opt.
    simpl. rewrite (IH _ _ _ _ E2). reflexivity.
Qed.

(** The text of a declaration, by the kind of its node. *)
Lemma renderDeclaration_declares opts rec name node guard st text st' :
  renderDeclaration opts rec name node (kindOf node) guard st
  = Some (DeclarationText text, st') ->
  declarationOf opts name node text.
Proof.
  unfold renderDeclaration, declarationOf. intros H.
  destruct (kindOf node) eqn:K;
    try (destruct (renderExpression opts rec name node _ guard st)
           as [[t st1]|]; inv_opt;
         eexists; split; [reflexivity|];
         try destruct (enumType opts); eexists; reflexivity).
  - destruct (enumType opts); inv_opt; eexists; split; reflexivity.
  - destruct (renderProperties rec name node _ guard st)
      as [[ls st1]|] eqn:E1; inv_opt.
    destruct (renderIndexSignature opts rec name node guard st1)
      as [[sig st2]|] eqn:E2; inv_opt.
    eexists. split; [reflexivity|].
    assert (exists members,
              ("interface " ++ name ++ " {" ++ nl
               ++ String.concat "" (ls ++ sig) ++ "}")%string
              = ("interface " ++ name ++ " {" ++ nl
                 ++ String.concat "" members ++ "}")%string
              /\ length (match so_properties node with
                         | Some l => l
                         | None => []
                         end) <= length members) as M.
    { exists (ls ++ sig)%list. split; [reflexivity|].
      rewrite length_app, (renderProperties_length _ _ _ _ _ _ _ _ E1).
      lia. }
    destruct (enumType opts); exact M.
Qed.

(** A pointer to a schema with a body whose name is neither emitted nor in
    the guard, and is the name of no bare pointer: the body of the target
    is rendered with the guard of the caller plus the name of the target,
    and the declaration it gives is appended to the output. *)
Lemma pointer_enters_target opts schemas fuel name node ref key target top
    guard st r st' :
  isRef target = false ->
  so_ref node = Some ref ->
  resolveRef schemas ref = Some (key, target) ->
  mem (sanitizeIdentifier key) guard = false ->
  mem (sanitizeIdentifier key) (generatedTypes st) = false ->
  noAliasNamed schemas (sanitizeIdentifier key) ->
  renderType opts schemas fuel name node top guard st = Some (r, st') ->
  exists m text st1,
    fuel = S (S m)
    /\ renderDeclaration opts (renderType opts schemas m)
         (sanitizeIdentifier key) target (kindOf target)
         (sanitizeIdentifier key :: guard) st
       = Some (DeclarationText text, st1)
    /\ declarationOf opts (sanitizeIdentifier key) target text
    /\ output st'
       = (output st1 ++ [mkDeclaration (sanitizeIdentifier key) text])%list
    /\ generatedTypes st' = sanitizeIdentifier key :: generatedTypes st1
    /\ warnings st' = warnings st1.
Proof.
  intros NR N R G E NA H.
  destruct fuel as [|n]; [discriminate|].
  rewrite (renderType_resolved opts schemas n name node ref key target top
             guard st N R) in H.
  unfold hoist in H. rewrite E in H.
  destruct n as [|m]; [discriminate|].
  rewrite (renderType_body opts schemas m _ target guard st NR G) in H.
  destruct (renderDeclaration opts (renderType opts schemas m)
              (sanitizeIdentifier key) target (kindOf target)
              (sanitizeIdentifier key :: guard) st)
    as [[r1 st1]|] eqn:D; [|discriminate].
  destruct (renderDeclaration_kind _ _ _ _ _ _ _ _ _ D) as [text T].
  subst r1.
  assert (F : mem (sanitizeIdentifier key) (generatedTypes st1) = false).
  { destruct (mem (sanitizeIdentifier key) (generatedTypes st1)) eqn:M;
      [|reflexivity].
    exfalso. apply mem_In in M.
    apply (renderDeclaration_keepsGuarded _ _ _ _ _ _ _ _ _ _ D
             (sanitizeIdentifier key)); auto.
    - left. reflexivity.
    - intros Hin. apply mem_In in Hin. congruence. }
  assert (S' : st' = emit (sanitizeIdentifier key) text st1)
    by (destruct top; inv_opt; reflexivity).
  subst st'. unfold emit. rewrite F.
  exists m, text, st1.
  repeat match goal with |- _ /\ _ => split end;
    try reflexivity; try exact D.
  eapply renderDeclaration_declares; eauto.
Qed.

(** ** The type compiler: pointers that run in a circle *)

(** A schema that is a pointer to itself is entered again and again. *)
Lemma self_pointer_never_answers opts schemas key fuel :
  assoc key schemas = Some (pointerTo key) ->
  forall name top guard st,
    mem (sanitizeIdentifier key) (generatedTypes st) = false ->
    renderType opts schemas fuel name (pointerTo key) top guard st = None.
Proof.
  intros A.
  induction fuel as [|n IH]; intros name top guard st M; [reflexivity|].
  rewrite (renderType_resolved opts schemas n name (pointerTo key)
             (schemaPointerPrefix ++ key) key (pointerTo key) top guard st
             eq_refl (resolveRef_original_key _ _ _ A)).
  unfold hoist. rewrite M.
  rewrite (IH (sanitizeIdentifier key) true guard st M). reflexivity.
Qed.

Lemma alias_cycle_renderType opts fuel : forall name top st,
  mem "A" (generatedTypes st) = false ->
  renderType opts (pa_schemas aliasCycleDocument) fuel name (pointerTo "A")
    top [] st = None.
Proof.
  intros name top st M.
  apply (self_pointer_never_answers opts (pa_schemas aliasCycleDocument) "A"
           fuel eq_refl name top [] st M).
Qed.

Lemma alias_cycle_generate fuel g :
  generate fuel g aliasCycleDocument = None.
Proof.
  assert (D : declare (options g) aliasCycleDocument fuel
                 (sanitizeIdentifier "A") (pointerTo "A") emptyState = None).
  { unfold declare, hoist. change (sanitizeIdentifier "A") with "A".
    change (mem "A" (generatedTypes emptyState)) with false. cbv iota.
    rewrite (alias_cycle_renderType (options g) fuel "A" true emptyState
               eq_refl).
    reflexivity. }
  unfold generate, runFrom.
  change (generateSchemas (options g) aliasCycleDocument fuel
            (pa_schemas aliasCycleDocument) emptyState)
    with (match declare (options g) aliasCycleDocument fuel
                  (sanitizeIdentifier "A") (pointerTo "A") emptyState with
          | Some st1 =>
            generateSchemas (options g) aliasCycleDocument fuel [] st1
          | None => None
          end).
  rewrite D. reflexivity.
Qed.

(** ** The type compiler: what a pointer resolves to *)




(** The run the test of the specification describes. *)
Example kebab_key_is_found :
  option_map (fun st => (map decl_text (output st), warnings st))
    (runFrom sampleOptions (documentOf [] kebabSchemas) 4 emptyState)
  = Some ([("export interface UserProfile {" ++ nl
            ++ "  id?: string;" ++ nl ++ "}")%string;
           ("export interface Event {" ++ nl
            ++ "  profile?: UserProfile;" ++ nl ++ "}")%string],
          []).
Proof. vm_compute. reflexivity. Qed.

(** ** The type compiler: pointers that do not resolve *)

Lemma renderProperties_keeps_warnings opts schemas fuel name node props
    guard st ls st' :
  renderProperties (renderType opts schemas fuel) name node props guard st
  = Some (ls, st') ->
  incl (warnings st) (warnings st').
Proof.
  apply (renderProperties_sound
           (fun a b => incl (warnings a) (warnings b))).
  - intros a. apply incl_refl.
  - intros a b c. apply incl_tran.
  - apply renderType_keeps_warnings.
Qed.

(** The member of a record for a property that is a pointer to
    nothing. *)
Lemma dangling_property opts schemas fuel name node ref props :
  resolveRef schemas ref = None ->
  forall i guard st lines st' p pnode,
    renderProperties (renderType opts schemas (S fuel)) name node props
      guard st = Some (lines, st') ->
    nth_error props i = Some (p, pnode) ->
    so_ref pnode = Some ref ->
    nth_error lines i
    = Some (docLine (so_description pnode) ++ "  " ++ propertyKey p
            ++ (if isRequired node p then "" else "?")
            ++ ": " ++ fallbackType opts ++ ";" ++ nl)%string
    /\ In (unresolvedWarning ref) (warnings st').
Proof.
  intros D.
  induction props as [|[pn ps] rest IH];
    intros i guard st lines st' p pnode H Hn Hr.
  - destruct i; discriminate.
  - cbn [renderProperties] in H.
    destruct (nested (renderType opts schemas (S fuel))
                (propertyTypeName name pn ps) ps guard st)
      as [[t st1]|] eqn:E1; [|discriminate].
    destruct (renderProperties (renderType opts schemas (S fuel)) name node
                rest guard st1) as [[ls' st2]|] eqn:E2; [|discriminate].
    inv_opt. destruct i as [|i]; simpl in Hn.
    + inv_opt. unfold nested in E1.
      rewrite (renderType_unresolved opts schemas fuel _ pnode ref false
                 guard st Hr D) in E1.
      inv_opt. split; [reflexivity|].
      apply (renderProperties_keeps_warnings _ _ _ _ _ _ _ _ _ _ E2).
      simpl. apply in_or_app. right. left. reflexivity.
    + simpl. eapply IH; eauto.
Qed.



(** The whole run on the sample: the rest of the record is rendered.  And
    a component schema that is itself a pointer to nothing is declared as
    the fallback type, next to the other schemas. *)
Example dangling_pointer_run :
  option_map (fun res => fst res)
    (generate 3 (mkTypeScriptGenerator sampleOptions emptyState)
       danglingDocument)
  = Some ("/**" ++ nl ++ " * Generated from AsyncAPI spec: Test v1.0.0" ++ nl
          ++ " * Generated by maxzilla-async-gen" ++ nl ++ " */" ++ nl ++ nl
          ++ "export interface Event {" ++ nl
          ++ "  who?: unknown;" ++ nl
          ++ "  id?: string;" ++ nl ++ "}")%string
  /\ option_map (fun st => (map decl_text (output st), warnings st))
       (runFrom sampleOptions
          (documentOf []
             [("A", pointerTo "Missing"); ("B", primitiveSchema "string")])
          3 emptyState)
     = Some (["export type A = unknown;"; "export type B = string;"],
             ["Could not resolve $ref: #/components/schemas/Missing"]).
Proof. split; vm_compute; reflexivity. Qed.

(** ** The type compiler: aliases for top-level pointers *)

Lemma length_append a b :
  String.length (a ++ b) = String.length a + String.length b.
Proof. induction a as [|c a IH]; simpl; [|rewrite IH]; reflexivity. Qed.

Lemma declare_answers opts parsed name node st :
  aliasAcyclic (pa_schemas parsed) ->
  exists fuel st', declare opts parsed fuel name node st = Some st'.
Proof.
  intros AC. exists (S (cost (pa_schemas parsed) name node true [])).
  unfold declare. eapply hoist_total.
  - apply renderType_total. exact AC.
  - lia.
Qed.

(** What the declaration of a node that is only a pointer does. *)
Lemma declare_pointer opts parsed fuel name node ref key target st st' :
  so_ref node = Some ref ->
  resolveRef (pa_schemas parsed) ref = Some (key, target) ->
  declare opts parsed fuel name node st = Some st' ->
  if mem name (generatedTypes st) then st' = st
  else
    exists st0,
      extends (pa_schemas parsed) st st0
      /\ In (sanitizeIdentifier key) (generatedTypes st0)
      /\ if mem name (generatedTypes st0) then st' = st0
         else output st'
              = (output st0
                 ++ [mkDeclaration name
                       (aliasDeclaration opts None name
                          (sanitizeIdentifier key))])%list.
Proof.
  intros N R H. unfold declare, hoist in H.
  destruct (mem name (generatedTypes st)) eqn:M; [inv_opt; reflexivity|].
  destruct fuel as [|n]; [discriminate|].
  rewrite (renderType_resolved opts (pa_schemas parsed) n name node ref key
             target true [] st N R) in H.
  destruct (hoist (renderType opts (pa_schemas parsed) n)
              (sanitizeIdentifier key) target [] st) as [st1|] eqn:E;
    [|discriminate].
  inv_opt. exists st1. split; [eapply hoist_extends; eauto|]. split.
  - destruct (hoist_emitted _ _ _ _ _ _ _ _ E) as [Hin|Hg];
      [exact Hin | discriminate].
  - unfold emit. destruct (mem name (generatedTypes st1)); reflexivity.
Qed.




(** ** The type compiler: names that coincide *)

(** The name a reference node is rendered under is not looked at. *)
Lemma pointer_ignores_declared_name opts schemas fuel name name' node guard
    st :
  isRef node = true ->
  renderType opts schemas fuel name node false guard st
  = renderType opts schemas fuel name' node false guard st.
Proof.
  intros R. destruct fuel as [|n]; [reflexivity|].
  simpl. unfold renderStep. rewrite kindOf_isRef in R.
  destruct (kindOf node); try discriminate. reflexivity.
Qed.

Lemma runFrom_declares_once opts parsed fuel st key schema :
  runFrom opts parsed fuel emptyState = Some st ->
  In (key, schema) (pa_schemas parsed) ->
  declarationsOf (sanitizeIdentifier key) st = 1.
Proof.
  intros H Hin. apply wellFormed_once.
  - destruct (runFrom_extends _ _ _ _ _ H) as [_ [_ [W _]]].
    apply W. apply wellFormed_empty.
  - eapply runFrom_emitted; eauto.
Qed.




(** The property [bar] of [Foo] is rendered under the name [Bar], the name
    of the schema it points to, and [Bar] is declared in full. *)
Example property_named_like_its_target :
  option_map (fun st => map decl_text (output st))
    (runFrom sampleOptions fooBarDocument 4 emptyState)
  = Some [("export interface Bar {" ++ nl ++ "  id?: string;" ++ nl
           ++ "}")%string;
          ("export interface Foo {" ++ nl ++ "  bar?: Bar;" ++ nl
           ++ "}")%string].
Proof. vm_compute. reflexivity. Qed.

(** A property of [Foo] named [foo] that points to [Bar]: the name it is
    rendered under is in the guard, and [Bar] is declared all the same. *)
Example property_named_like_its_owner :
  option_map (fun st => map decl_text (output st))
    (runFrom sampleOptions
       (documentOf []
          [("Foo", objectSchema [("foo", pointerTo "Bar")]);
           ("Bar", objectSchema [("id", primitiveSchema "string")])])
       4 emptyState)
  = Some [("export interface Bar {" ++ nl ++ "  id?: string;" ++ nl
           ++ "}")%string;
          ("export interface Foo {" ++ nl ++ "  foo?: Bar;" ++ nl
           ++ "}")%string].
Proof. vm_compute. reflexivity. Qed.

(** ** The type compiler: cycles *)




(** Two schemas that point to each other are declared once each. *)
Example mutual_recursion :
  option_map (fun st => map decl_text (output st))
    (runFrom sampleOptions mutualDocument 10 emptyState)
  = Some [("export interface Child {" ++ nl ++ "  parent?: Parent;" ++ nl
           ++ "}")%string;
          ("export interface Parent {" ++ nl ++ "  child?: Child;" ++ nl
           ++ "}")%string].
Proof. vm_compute. reflexivity. Qed.


(** * Further properties of the extractor and of the command line *)

(** ** [readFile] *)

(** X1: [readFile] returns a content exactly when the path resolves to a
    regular file of at most [MAX_FILE_SIZE] bytes (a file of exactly that
    size passes) that can be read, and the content is what the file system
    gave. *)
Theorem readFile_succeeds_iff (w : World) (filePath content : string) :
  readFile w filePath = inr content <->
  exists stats,
    fs_stat w (path_resolve w filePath) = inr stats
    /\ isFile stats = true
    /\ (size stats <= MAX_FILE_SIZE)%N
    /\ fs_readFile w (path_resolve w filePath) = inr content.
Proof.
  unfold readFile. split.
  - destruct (fs_stat w (path_resolve w filePath)) as [e|stats] eqn:S;
      [discriminate|].
    destruct (isFile stats) eqn:F; simpl; [|discriminate].
    destruct (MAX_FILE_SIZE <? size stats)%N eqn:L; [discriminate|].
    destruct (fs_readFile w (path_resolve w filePath)) as [e|c] eqn:R;
      [discriminate|].
    intros H. inversion H. subst c. exists stats.
    apply N.ltb_ge in L. auto.
  - intros [stats [S [F [L R]]]]. rewrite S, F. simpl.
    apply N.ltb_ge in L. rewrite L, R. reflexivity.
Qed.

(** X2: a failure of [readFile] never shows the codes [ENOENT] and
    [EACCES]: they are turned into messages; every other errno failure is
    the one the file system raised, from [stat] or from the read. *)
Theorem readFile_hides_access_codes
    (w : World) (filePath code : string)
    (Hfail : readFile w filePath = inl (ErrnoException code)) :
  code <> "ENOENT" /\ code <> "EACCES"
  /\ (fs_stat w (path_resolve w filePath) = inl (ErrnoException code)
      \/ fs_readFile w (path_resolve w filePath)
         = inl (ErrnoException code)).
Proof.
  assert (C : forall e, readFile_catch filePath e = ErrnoException code ->
                code <> "ENOENT" /\ code <> "EACCES"
                /\ e = ErrnoException code).
  { intros [c|m]; simpl; [|discriminate].
    destruct (String.eqb c "ENOENT") eqn:E1; [discriminate|].
    destruct (String.eqb c "EACCES") eqn:E2; [discriminate|].
    intros H. inversion H. subst c.
    apply String.eqb_neq in E1. apply String.eqb_neq in E2. auto. }
  unfold readFile in Hfail.
  destruct (fs_stat w (path_resolve w filePath)) as [e|stats] eqn:S.
  - assert (H : readFile_catch filePath e = ErrnoException code)
      by congruence.
    destruct (C e H) as [A [B E]]. subst e.
    split; [exact A|]. split; [exact B|]. left. reflexivity.
  - destruct (isFile stats); simpl in Hfail; [|discriminate].
    destruct (MAX_FILE_SIZE <? size stats)%N; [discriminate|].
    destruct (fs_readFile w (path_resolve w filePath)) as [e|c] eqn:R;
      [|discriminate].
    assert (H : readFile_catch filePath e = ErrnoException code)
      by congruence.
    destruct (C e H) as [A [B E]]. subst e.
    split; [exact A|]. split; [exact B|]. right. reflexivity.
Qed.

Lemma readFile_hides_access_codes_witness :
  "EMFILE" <> "ENOENT" /\ "EMFILE" <> "EACCES"
  /\ (fs_stat (sampleWorld (inl (ErrnoException "EMFILE")) []) "api.json"
      = inl (ErrnoException "EMFILE")
      \/ fs_readFile (sampleWorld (inl (ErrnoException "EMFILE")) [])
           "api.json" = inl (ErrnoException "EMFILE")).
Proof.
  exact (readFile_hides_access_codes
           (sampleWorld (inl (ErrnoException "EMFILE")) []) "api.json"
           "EMFILE" eq_refl).
Defined.

(** ** [parse] *)

(** X3: [parse] gives a document only when the file was read, the
    validating parser gave a document and no diagnostic of severity 0, and
    no conversion exhausted the stack; the document is then the extraction
    of what the conversions visit of the parser's document, with the title
    and version of its [info]. *)
Theorem parse_succeeds_only_if
    (w : World) (filePath : string) (parsed : ParsedAsyncAPI)
    (trace : list Event)
    (Hok : parse w filePath = (inr parsed, trace)) :
  exists content document diagnostics visited,
    readFile w filePath = inr content
    /\ parser_parse w content = (Some document, diagnostics)
    /\ (forall d, In d diagnostics -> severity d <> 0)
    /\ visitDocument (stack_depth w) (JSON_parse w content) document
       = Some visited
    /\ parsed = extractData (JSON_parse w content) visited
    /\ pa_title parsed = gd_title document
    /\ pa_version parsed = gd_version document
    /\ trace = ParserInvoked content
               :: reportWarnings (filter isWarning diagnostics).
Proof.
  destruct (parse_success _ _ _ _ Hok)
    as (content & doc & diagnostics & visited & R & Pp & F & V & E & T).
  exists content, doc, diagnostics, visited.
  repeat match goal with |- _ /\ _ => split end; try assumption.
  - intros d Hin Hs.
    assert (In d (filter isError diagnostics)) as Hf.
    { apply filter_In. split; [exact Hin|].
      unfold isError. rewrite Hs. reflexivity. }
    rewrite F in Hf. contradiction.
  - subst parsed. unfold visitDocument in V.
    repeat match type of V with
           | match ?x with _ => _ end = _ => destruct x; [|discriminate]
           end.
    inversion V. reflexivity.
  - subst parsed. unfold visitDocument in V.
    repeat match type of V with
           | match ?x with _ => _ end = _ => destruct x; [|discriminate]
           end.
    inversion V. reflexivity.
Qed.

Lemma parse_succeeds_only_if_witness :
  exists content document diagnostics,
    readFile (sampleWorld regularFile [mkDiagnostic 1 "w"]) "api.json"
    = inr content
    /\ parser_parse (sampleWorld regularFile [mkDiagnostic 1 "w"]) content
       = (Some document, diagnostics)
    /\ (forall d, In d diagnostics -> severity d <> 0).
Proof.
  destruct (parse_succeeds_only_if
              (sampleWorld regularFile [mkDiagnostic 1 "w"]) "api.json"
              _ [ParserInvoked "{}"; WarnHeader 1; WarnLine "w"] eq_refl)
    as [c [d [ds [v [A [B [C _]]]]]]].
  exists c, d, ds. auto.
Defined.

Lemma filter_filter_severity (p : Diagnostic -> bool) l :
  (forall d, p d = true -> (severity d <=? 1)%nat = true) ->
  filter p (filter (fun d => (severity d <=? 1)%nat) l) = filter p l.
Proof.
  intros H. induction l as [|d t IH]; simpl; [reflexivity|].
  destruct (severity d <=? 1)%nat eqn:S; simpl.
  - rewrite IH. reflexivity.
  - destruct (p d) eqn:Pd; [|exact IH].
    rewrite (H d Pd) in S. discriminate.
Qed.

(** X4: diagnostics of severity 2 and above (information, hints) change
    neither the outcome of [parse] nor what it reports: a parser that
    leaves them out gives the same result and the same trace. *)
Theorem parse_ignores_informational (w : World) (filePath : string) :
  parse (dropInformational w) filePath = parse w filePath.
Proof.
  unfold parse.
  change (readFile (dropInformational w) filePath) with (readFile w filePath).
  destruct (readFile w filePath) as [e|content]; [reflexivity|].
  change (JSON_parse (dropInformational w) content)
    with (JSON_parse w content).
  change (parser_parse (dropInformational w) content)
    with (let '(document, diagnostics) := parser_parse w content in
          (document, filter (fun d => (severity d <=? 1)%nat) diagnostics)).
  destruct (parser_parse w content) as [document diagnostics].
  rewrite !filter_filter_severity; [reflexivity| |].
  - intros d H. unfold isWarning in H. apply Nat.eqb_eq in H.
    rewrite H. reflexivity.
  - intros d H. unfold isError in H. apply Nat.eqb_eq in H.
    rewrite H. reflexivity.
Qed.

(** ** Channels and their operations *)

Lemma extractOperations_lists document channelId :
  extractOperationsFromChannel document channelId
  = mkChannelOperations
      (map (fun o => convertOperation o channelId)
         (filter (fun o => firstChannelIs o channelId
                           && String.eqb (o_action o) "send")
                 (d_operations document)))
      (map (fun o => convertOperation o channelId)
         (filter (fun o => firstChannelIs o channelId
                           && String.eqb (o_action o) "receive")
                 (d_operations document))).
Proof.
  unfold extractOperationsFromChannel. rewrite addOperation_fold.
  reflexivity.
Qed.

(** X5: the channels come out in the order of the document, under their
    ids; every operation in the send list of a channel has action [send]
    and names that channel, and every operation in its receive list has
    action [receive] and names that channel. *)
Theorem channel_operations_are_consistent
    (document : LDocument) (channel : ParsedChannel)
    (Hin : In channel (extractChannels document)) :
  map pc_name (extractChannels document) = map c_id (d_channels document)
  /\ (forall op, In op (ops_send (pc_operations channel)) ->
        po_action op = "send" /\ po_channel op = pc_name channel)
  /\ (forall op, In op (ops_receive (pc_operations channel)) ->
        po_action op = "receive" /\ po_channel op = pc_name channel).
Proof.
  split.
  { unfold extractChannels. rewrite map_map. reflexivity. }
  unfold extractChannels in Hin. apply in_map_iff in Hin.
  destruct Hin as [c [E _]]. subst channel. simpl.
  rewrite extractOperations_lists. simpl.
  split; intros op Hop; apply in_map_iff in Hop;
    destruct Hop as [o [Eo Ho]]; subst op; simpl;
    apply filter_In in Ho; destruct Ho as [_ Ho];
    apply andb_true_iff in Ho; destruct Ho as [_ Ho];
    apply String.eqb_eq in Ho; auto.
Qed.

Lemma channel_operations_are_consistent_witness :
  map pc_name (extractChannels sampleOperationsDocument) = ["a"; "b"]
  /\ (forall op,
        In op [mkParsedOperation "send" "a" [] None] ->
        po_action op = "send" /\ po_channel op = "a").
Proof.
  destruct (channel_operations_are_consistent sampleOperationsDocument
              (mkParsedChannel "a" None None []
                 (mkChannelOperations
                    [mkParsedOperation "send" "a" [] None] []))
              (or_introl eq_refl)) as [A [B _]].
  split; [exact A | exact B].
Defined.

Lemma sumOver_zero ids g :
  (forall id, In id ids -> g id = 0) -> sumOver ids g = 0.
Proof.
  induction ids as [|x t IH]; simpl; intros H; [reflexivity|].
  rewrite (H x (or_introl eq_refl)), IH; [reflexivity|].
  intros id Hid. apply H. right. exact Hid.
Qed.

Lemma sumOver_add ids g h :
  sumOver ids (fun id => g id + h id) = sumOver ids g + sumOver ids h.
Proof. induction ids as [|x t IH]; simpl; [reflexivity|]. rewrite IH. lia. Qed.

Lemma sumOver_le ids g h :
  (forall id, g id <= h id) -> sumOver ids g <= sumOver ids h.
Proof.
  intros H. induction ids as [|x t IH]; simpl; [lia|].
  specialize (H x). lia.
Qed.

Lemma firstChannelIs_once ids o :
  NoDup ids ->
  sumOver ids (fun id => if firstChannelIs o id then 1 else 0) <= 1.
Proof.
  induction 1 as [|x t Hx ND IH]; simpl; [lia|].
  destruct (firstChannelIs o x) eqn:F; [|lia].
  rewrite sumOver_zero; [lia|].
  intros id Hid. destruct (firstChannelIs o id) eqn:G; [|reflexivity].
  unfold firstChannelIs in F, G.
  destruct (o_channels o) as [|c cs]; [discriminate|].
  apply String.eqb_eq in F. apply String.eqb_eq in G.
  exfalso. apply Hx. congruence.
Qed.

Lemma attributed_per_channel ids ops :
  NoDup ids ->
  sumOver ids
    (fun id =>
       length (filter (fun o => firstChannelIs o id
                                && String.eqb (o_action o) "send") ops)
       + length (filter (fun o => firstChannelIs o id
                                  && String.eqb (o_action o) "receive") ops))
  <= length ops.
Proof.
  intros ND. induction ops as [|o t IH].
  - simpl. rewrite sumOver_zero; auto.
  - pose proof (firstChannelIs_once ids o ND) as H1.
    assert (L : sumOver ids
                  (fun id =>
                     length (filter (fun o => firstChannelIs o id
                                       && String.eqb (o_action o) "send")
                                    (o :: t))
                     + length (filter (fun o => firstChannelIs o id
                                         && String.eqb (o_action o) "receive")
                                      (o :: t)))
                <= sumOver ids
                     (fun id =>
                        (if firstChannelIs o id then 1 else 0)
                        + (length (filter (fun o => firstChannelIs o id
                                       && String.eqb (o_action o) "send") t)
                           + length (filter (fun o => firstChannelIs o id
                                       && String.eqb (o_action o) "receive")
                                            t)))).
    { apply sumOver_le. intros id. simpl.
      destruct (firstChannelIs o id); simpl; [|lia].
      destruct (String.eqb (o_action o) "send") eqn:S.
      - apply String.eqb_eq in S. rewrite S. simpl. lia.
      - destruct (String.eqb (o_action o) "receive"); simpl; lia. }
    eapply Nat.le_trans; [exact L|]. rewrite sumOver_add.
    change (length (o :: t)) with (S (length t)). lia.
Qed.

Lemma attributed_as_sum document l :
  attributedOperations
    (map (fun channel =>
            mkParsedChannel (c_id channel) (c_address channel)
              (c_description channel)
              (extractMessagesFromChannel channel)
              (extractOperationsFromChannel document (c_id channel))) l)
  = sumOver (map c_id l)
      (fun id =>
         length (filter (fun o => firstChannelIs o id
                                  && String.eqb (o_action o) "send")
                        (d_operations document))
         + length (filter (fun o => firstChannelIs o id
                                    && String.eqb (o_action o) "receive")
                          (d_operations document))).
Proof.
  induction l as [|c t IH]; simpl; [reflexivity|].
  rewrite IH, extractOperations_lists. simpl.
  rewrite !length_map. reflexivity.
Qed.

(** X6: when the channels of the document have distinct ids, no operation
    is held by two channels or twice by one: the channels hold at most as
    many operations, over both directions, as the document has. *)
Theorem operations_are_not_duplicated
    (document : LDocument)
    (Hdistinct : NoDup (map c_id (d_channels document))) :
  attributedOperations (extractChannels document)
  <= length (d_operations document).
Proof.
  unfold extractChannels. rewrite attributed_as_sum.
  apply attributed_per_channel. exact Hdistinct.
Qed.

Lemma operations_are_not_duplicated_witness :
  attributedOperations (extractChannels sampleOperationsDocument) <= 3.
Proof.
  apply (operations_are_not_duplicated sampleOperationsDocument).
  simpl. repeat constructor; simpl; intuition discriminate.
Defined.

(** In the sample two of the three operations are held: the one whose
    action is neither [send] nor [receive] is in no channel. *)
Example sample_operations_attributed :
  attributedOperations (extractChannels sampleOperationsDocument) = 2.
Proof. reflexivity. Qed.

(** ** The extracted schema tree *)

Lemma assoc_map_entry_inv {A B : Type} (F : A -> string -> B) key l n :
  assoc key (map (fun entry => (fst entry, F (snd entry) (fst entry))) l)
  = Some n ->
  exists child, assoc key l = Some child /\ n = F child key.
Proof.
  induction l as [|[k v] t IH]; simpl; [discriminate|].
  destruct (String.eqb key k) eqn:E; [|exact IH].
  intros H. inversion H. apply String.eqb_eq in E. subst. eauto.
Qed.

Lemma nth_error_mapi_inv {A B : Type} (f : A -> nat -> B) l i n :
  nth_error (mapi f l 0) i = Some n ->
  exists x, nth_error l i = Some x /\ n = f x i.
Proof.
  rewrite nth_error_mapi. destruct (nth_error l i) as [x|]; [|discriminate].
  intros H. inversion H. eauto.
Qed.

Lemma convertSchema_step_inv schema raw s n :
  raw_ref raw = None ->
  extractedStep (convertSchema schema raw) s = Some n ->
  exists child,
    resolvedStep schema s = Some child
    /\ n = convertSchema child (rawStep raw s).
Proof.
  intros R.
  destruct schema as [ty de fo pr it rq en al an on rf ad].
  destruct s as [key| |i|i|i|]; simpl; rewrite R; simpl.
  - destruct pr as [[|p t]|]; try discriminate.
    intros H.
    exact (assoc_map_entry_inv
             (fun x k => convertSchema x (jget (jget raw "properties") k))
             key (p :: t) n H).
  - destruct it as [x|]; [|discriminate]. intros H. inversion H. eauto.
  - destruct al as [l|]; [|discriminate]. simpl.
    apply (nth_error_mapi_inv
             (fun s i => convertSchema s (jidx (jget raw "allOf") i))).
  - destruct an as [l|]; [|discriminate]. simpl.
    apply (nth_error_mapi_inv
             (fun s i => convertSchema s (jidx (jget raw "anyOf") i))).
  - destruct on as [l|]; [|discriminate]. simpl.
    apply (nth_error_mapi_inv
             (fun s i => convertSchema s (jidx (jget raw "oneOf") i))).
  - destruct ad as [[b|x]|]; try discriminate.
    intros H. inversion H. eauto.
Qed.

Lemma refOnly_is_leaf r s : extractedStep (refOnly r) s = None.
Proof. destruct s; reflexivity. Qed.

Lemma convertSchema_at_inv path : forall schema raw n,
  extractedAt (convertSchema schema raw) path = Some n ->
  exists child,
    resolvedAt schema path = Some child
    /\ n = convertSchema child (rawAt raw path).
Proof.
  induction path as [|s rest IH]; simpl; intros schema raw n H.
  - inversion H. eauto.
  - destruct (raw_ref raw) as [r|] eqn:R.
    + rewrite (convertSchema_ref schema raw r R), refOnly_is_leaf in H.
      discriminate.
    + destruct (extractedStep (convertSchema schema raw) s) as [m|] eqn:E;
        [|discriminate].
      destruct (convertSchema_step_inv _ _ _ _ R E) as [c [Ec Em]].
      subst m. rewrite Ec. apply IH. exact H.
Qed.

(** X7: the extracted tree has no location of its own: a node found in it
    under a path is the conversion of the node the resolved schema has
    under the same path, together with the raw document at that path. *)
Theorem extracted_tree_mirrors_resolved
    (schema : rschema) (raw : option json) (path : list Step)
    (node : SchemaObject)
    (Hnode : extractedAt (convertSchemaToObject (Some schema) raw) path
             = Some node) :
  exists child,
    resolvedAt schema path = Some child
    /\ node = convertSchemaToObject (Some child) (rawAt raw path).
Proof. simpl in *. apply convertSchema_at_inv. exact Hnode. Qed.

Lemma extracted_tree_mirrors_resolved_witness :
  exists child,
    resolvedAt (rObject [("order", sampleOrder)]) [AtProperty "order"]
    = Some child
    /\ refOnly orderPointer
       = convertSchemaToObject (Some child)
           (rawAt (rawComponent (Some sampleRaw) "schemas" "Basket")
                  [AtProperty "order"]).
Proof.
  exact (extracted_tree_mirrors_resolved
           (rObject [("order", sampleOrder)])
           (rawComponent (Some sampleRaw) "schemas" "Basket")
           [AtProperty "order"] (refOnly orderPointer) eq_refl).
Defined.

(** X8: wherever the extracted tree has a node and the raw document has a
    pointer at the same path, the node is that pointer alone and the tree
    ends there: nothing of the resolved target is extracted below it. *)
Theorem nothing_below_a_raw_pointer
    (schema : rschema) (raw : option json) (path : list Step)
    (node : SchemaObject) (r : string)
    (Hnode : extractedAt (convertSchemaToObject (Some schema) raw) path
             = Some node)
    (Hpointer : raw_ref (rawAt raw path) = Some r) :
  node = refOnly r
  /\ forall rest,
       rest <> [] ->
       extractedAt (convertSchemaToObject (Some schema) raw) (path ++ rest)
       = None.
Proof.
  simpl in *.
  destruct (convertSchema_at_inv path schema raw node Hnode) as [c [Hc E]].
  rewrite (convertSchema_ref c _ r Hpointer) in E. subst node.
  split; [reflexivity|].
  intros rest Hrest.
  assert (G : forall p n rest',
            extractedAt n p = Some (refOnly r) -> rest' <> [] ->
            extractedAt n (p ++ rest') = None).
  { induction p as [|s p IH]; simpl; intros n rest' Hn Hr.
    - inversion Hn. destruct rest' as [|s' t]; [contradiction|].
      simpl. rewrite refOnly_is_leaf. reflexivity.
    - destruct (extractedStep n s); [|discriminate]. apply IH; assumption. }
  apply G; assumption.
Qed.

Lemma nothing_below_a_raw_pointer_witness :
  refOnly orderPointer = refOnly orderPointer
  /\ forall rest,
       rest <> [] ->
       extractedAt
         (convertSchemaToObject (Some (rObject [("order", sampleOrder)]))
            (rawComponent (Some sampleRaw) "schemas" "Basket"))
         ([AtProperty "order"] ++ rest)
       = None.
Proof.
  exact (nothing_below_a_raw_pointer
           (rObject [("order", sampleOrder)])
           (rawComponent (Some sampleRaw) "schemas" "Basket")
           [AtProperty "order"] (refOnly orderPointer) orderPointer
           eq_refl eq_refl).
Defined.

Lemma keep_truthy_nonempty v : keep_truthy v <> Some "".
Proof.
  unfold keep_truthy. destruct v as [s|]; [|discriminate].
  destruct (truthy_str s) eqn:T; [|discriminate].
  intros H. inversion H. subst s. discriminate T.
Qed.

Lemma keep_nonempty_nonempty {A : Type} (v : option (list A)) :
  keep_nonempty v <> Some [].
Proof. destruct v as [[|x t]|]; discriminate. Qed.

Lemma convertSchema_normal schema raw : normalNode (convertSchema schema raw).
Proof.
  destruct schema as [ty de fo pr it rq en al an on rf ad].
  unfold normalNode. simpl.
  destruct (raw_ref raw) as [r|] eqn:R; simpl.
  - repeat split; try discriminate.
    unfold raw_ref in R. destruct (jget raw "$ref") as [[| | |s| |]|];
      try discriminate.
    destruct (truthy_str s) eqn:T; [|discriminate].
    inversion R. subst r. intros H. inversion H. subst s. discriminate T.
  - repeat split;
      try apply keep_truthy_nonempty; try apply keep_nonempty_nonempty.
    destruct pr as [[|p t]|]; discriminate.
Qed.

(** X9: no node of the extracted tree, at any depth, holds an empty string
    as type, description, format or [$ref], or an empty list as properties,
    [required] or [enum]: the extractor leaves such fields out. *)
Theorem extracted_nodes_are_normal
    (schema : option rschema) (raw : option json) (path : list Step)
    (node : SchemaObject)
    (Hnode : extractedAt (convertSchemaToObject schema raw) path = Some node) :
  normalNode node.
Proof.
  destruct schema as [s|]; simpl in Hnode.
  - destruct (convertSchema_at_inv path s raw node Hnode) as [c [_ E]].
    subst node. apply convertSchema_normal.
  - destruct path as [|st rest]; simpl in Hnode.
    + inversion Hnode. unfold normalNode. simpl.
      repeat split; discriminate.
    + destruct st; discriminate.
Qed.

Lemma extracted_nodes_are_normal_witness :
  normalNode
    (convertSchemaToObject
       (Some (mkRSchema (Some "") None None (Some []) None (Some []) None
                None None None None None)) None).
Proof.
  exact (extracted_nodes_are_normal
           (Some (mkRSchema (Some "") None None (Some []) None (Some []) None
                    None None None None None)) None [] _ eq_refl).
Defined.

Lemma rawAt_none path : rawAt None path = None.
Proof.
  induction path as [|s rest IH]; simpl; [reflexivity|].
  destruct s; simpl; exact IH.
Qed.

(** X10: with no raw document (a source that is not JSON) the extractor
    invents no pointer: if no node of the resolved schema shows a [$ref],
    no node of the extracted tree has one. *)
Theorem no_raw_document_no_pointer
    (schema : rschema) (path : list Step) (node : SchemaObject)
    (Hresolved : forall p c, resolvedAt schema p = Some c -> r_ref c = None)
    (Hnode : extractedAt (convertSchemaToObject (Some schema) None) path
             = Some node) :
  so_ref node = None.
Proof.
  simpl in Hnode.
  destruct (convertSchema_at_inv path schema None node Hnode) as [c [Hc E]].
  subst node. rewrite rawAt_none.
  destruct c as [ty de fo pr it rq en al an on rf ad] eqn:Ec.
  simpl. specialize (Hresolved path _ Hc). simpl in Hresolved.
  rewrite Hresolved. reflexivity.
Qed.

Lemma no_raw_document_no_pointer_witness :
  so_ref (convertSchema sampleOrder None) = None.
Proof.
  refine (no_raw_document_no_pointer
            (rObject [("order", sampleOrder)]) [AtProperty "order"]
            (convertSchema sampleOrder None) _ eq_refl).
  intros p c H.
  destruct p as [|s1 p]; simpl in H; [inversion H; reflexivity|].
  destruct s1 as [k| | | | |]; simpl in H; try discriminate.
  destruct (String.eqb k "order"); [|discriminate].
  destruct p as [|s2 p]; simpl in H; [inversion H; reflexivity|].
  destruct s2 as [k2| | | | |]; simpl in H; try discriminate.
  destruct (String.eqb k2 "id"); [|discriminate].
  destruct p as [|s3 p]; simpl in H; [inversion H; reflexivity|].
  destruct s3; discriminate.
Defined.

(** ** Component schemas and messages *)

Lemma replaceValue_keys {A : Type} k (v : A) l :
  map fst (replaceValue k v l) = map fst l.
Proof.
  induction l as [|[k' x] t IH]; simpl; [reflexivity|].
  destruct (String.eqb k k'); simpl; [|rewrite IH]; reflexivity.
Qed.

Lemma insertIndex_keys {A : Type} n k (v : A) l :
  ~ In k (map fst l) ->
  NoDup (map fst l) ->
  NoDup (map fst (insertIndex n k v l))
  /\ (forall id, In id (map fst (insertIndex n k v l)) <->
                 id = k \/ In id (map fst l)).
Proof.
  induction l as [|[k' x] t IH]; simpl; intros Hk ND.
  - split; [repeat constructor; auto|]. intros id. intuition.
  - inversion ND as [|? ? Hk' NDt]; subst.
    assert (Fresh : NoDup (k :: k' :: map fst t)).
    { constructor; [simpl; tauto | exact ND]. }
    destruct (arrayIndex k') as [m|]; [destruct (m <? n)%N|]; simpl.
    + destruct IH as [N I]; [tauto | exact NDt |]. split.
      * constructor; [|exact N]. rewrite I. intros [E|E]; [|tauto].
        subst. tauto.
      * intros id. rewrite I. intuition.
    + split; [exact Fresh|]. intros id. intuition.
    + split; [exact Fresh|]. intros id. intuition.
Qed.

Lemma setKey_keys {A : Type} key (v : A) l :
  NoDup (map fst l) ->
  NoDup (map fst (setKey key v l))
  /\ (forall id, In id (map fst (setKey key v l)) <->
                 (id = key /\ key <> "__proto__") \/ In id (map fst l)).
Proof.
  intros ND. unfold setKey.
  destruct (String.eqb key "__proto__") eqn:P.
  - apply String.eqb_eq in P. split; [exact ND|]. intros id. intuition.
  - apply String.eqb_neq in P.
    destruct (existsb (String.eqb key) (map fst l)) eqn:E.
    + rewrite replaceValue_keys. split; [exact ND|].
      apply existsb_eqb_In in E. intros id. split; [auto|].
      intros [[-> _]|H]; assumption.
    + assert (N : ~ In key (map fst l)).
      { intros H. apply existsb_eqb_In in H. congruence. }
      destruct (arrayIndex key) as [n|].
      * destruct (insertIndex_keys n key v l N ND) as [N' I].
        split; [exact N'|]. intros id. rewrite I. intuition.
      * rewrite map_app. simpl. split.
        -- apply NoDup_app; [exact ND | repeat constructor; auto |].
           intros x Hx [<-|[]]. exact (N Hx).
        -- intros id. rewrite in_app_iff. simpl. intuition.
Qed.

Lemma setKey_append {A : Type} key (v : A) l :
  key <> "__proto__" -> arrayIndex key = None -> ~ In key (map fst l) ->
  setKey key v l = (l ++ [(key, v)])%list.
Proof.
  intros P I N. unfold setKey.
  apply String.eqb_neq in P. rewrite P, I.
  destruct (existsb (String.eqb key) (map fst l)) eqn:E; [|reflexivity].
  apply existsb_eqb_In in E. contradiction.
Qed.

Lemma extractSchemas_fold_keys rawSpec l : forall acc,
  NoDup (map fst acc) ->
  let result :=
    fold_left
      (fun schemas (entry : string * rschema) =>
         let '(schemaId, schema) := entry in
         setKey schemaId
           (convertSchemaToObject (Some schema)
              (rawComponent rawSpec "schemas" schemaId))
           schemas)
      l acc in
  NoDup (map fst result)
  /\ (forall id, In id (map fst result) <->
                 In id (map fst acc)
                 \/ (id <> "__proto__" /\ In id (map fst l))).
Proof.
  induction l as [|[k s] t IH]; intros acc ND; cbn [fold_left].
  - split; [exact ND|]. intros id. simpl. intuition.
  - destruct (setKey_keys k
                (convertSchemaToObject (Some s)
                   (rawComponent rawSpec "schemas" k)) acc ND)
      as [N I].
    destruct (IH _ N) as [N' I']. split; [exact N'|].
    intros id. rewrite I', I. simpl. split.
    + intros [[[-> P]|H]|[P H]]; auto.
    + intros [H|[P [<-|H]]]; auto.
Qed.

Lemma extractSchemas_fold_order rawSpec l : forall acc,
  NoDup (map fst acc ++ map fst l) ->
  (forall id, In id (map fst l) ->
              id <> "__proto__" /\ arrayIndex id = None) ->
  map fst
    (fold_left
       (fun schemas (entry : string * rschema) =>
          let '(schemaId, schema) := entry in
          setKey schemaId
            (convertSchemaToObject (Some schema)
               (rawComponent rawSpec "schemas" schemaId))
            schemas)
       l acc)
  = (map fst acc ++ map fst l)%list.
Proof.
  induction l as [|[k s] t IH]; intros acc ND Plain; cbn [fold_left].
  - simpl. rewrite app_nil_r. reflexivity.
  - destruct (Plain k) as [P I]; [left; reflexivity|].
    rewrite setKey_append; try assumption.
    + rewrite IH.
      * rewrite map_app. simpl. rewrite <- app_assoc. reflexivity.
      * rewrite map_app. simpl. rewrite <- app_assoc. exact ND.
      * intros id H. apply Plain. right. exact H.
    + simpl in ND. apply NoDup_remove_2 in ND. intros H. apply ND.
      apply in_or_app. left. exact H.
Qed.

(** X11: the extracted schema mapping has each key once; its keys are the
    ids of the component schemas of the document other than [__proto__],
    which names no property; and where the ids are distinct and none is
    [__proto__] or an array index, the keys come in the order of the
    document. *)
Theorem extracted_schema_keys (rawSpec : option json) (document : LDocument) :
  NoDup (map fst (extractSchemas rawSpec document))
  /\ (forall id,
        In id (map fst (extractSchemas rawSpec document)) <->
        id <> "__proto__"
        /\ exists components,
             d_components document = Some components
             /\ In id (map fst (comp_schemas components)))
  /\ (forall components,
        d_components document = Some components ->
        NoDup (map fst (comp_schemas components)) ->
        (forall id, In id (map fst (comp_schemas components)) ->
                    id <> "__proto__" /\ arrayIndex id = None) ->
        map fst (extractSchemas rawSpec document)
        = map fst (comp_schemas components)).
Proof.
  unfold extractSchemas. destruct (d_components document) as [c|].
  - destruct (extractSchemas_fold_keys rawSpec (comp_schemas c) []
                (NoDup_nil _)) as [N I].
    split; [exact N|]. split.
    + intros id. rewrite I. simpl. split.
      * intros [[]|[P H]]. split; [exact P|]. exists c. auto.
      * intros [P [c' [E H]]]. inversion E. subst c'. auto.
    + intros c' E ND Plain. inversion E. subst c'.
      apply (extractSchemas_fold_order rawSpec (comp_schemas c) []);
        assumption.
  - split; [constructor|]. split.
    + intros id. simpl. split; [contradiction|].
      intros [_ [c' [E _]]]. discriminate.
    + intros c' E. discriminate.
Qed.

Lemma extracted_schema_keys_witness :
  map fst (extractSchemas (Some sampleRaw) sampleDocument)
  = ["Order"; "Basket"].
Proof.
  refine (proj2 (proj2 (extracted_schema_keys (Some sampleRaw)
                          sampleDocument))
                (mkLComponents []
                   [("Order", sampleOrder);
                    ("Basket", rObject [("order", sampleOrder)])])
                eq_refl _ _).
  - simpl. repeat constructor; simpl; intuition discriminate.
  - simpl. intros id [<-|[<-|[]]]; split; (discriminate || reflexivity).
Defined.

(** Array indices are enumerated first, in ascending order, and
    [__proto__] names no key. *)
Example schema_keys_enumeration :
  map fst
    (extractSchemas None
       (mkLDocument "T" "1" None [] []
          (Some (mkLComponents []
                   [("b", unread); ("10", unread); ("__proto__", unread);
                    ("2", unread); ("a", unread); ("02", unread)]))))
  = ["2"; "10"; "b"; "a"; "02"].
Proof. reflexivity. Qed.

(** X12: the component messages come out in the order of the document,
    under their ids; and a component message that has a payload, and whose
    payload is a pointer in the raw document, is extracted with that
    pointer alone as its payload. *)
Theorem component_message_pointer_kept
    (rawSpec : option json) (document : LDocument)
    (components : LComponents) (message : LMessage) (payload : rschema)
    (r : string)
    (Hcomponents : d_components document = Some components)
    (Hin : In message (comp_messages components))
    (Hpayload : m_payload message = Some payload)
    (Hpointer :
       raw_ref (jget (rawComponent rawSpec "messages" (m_id message))
                     "payload") = Some r) :
  map pm_name (extractAllMessages rawSpec document)
  = map m_id (comp_messages components)
  /\ exists extracted,
       In extracted (extractAllMessages rawSpec document)
       /\ pm_name extracted = m_id message
       /\ pm_payload extracted = refOnly r.
Proof.
  unfold extractAllMessages. rewrite Hcomponents. split.
  - rewrite map_map. reflexivity.
  - eexists. split.
    + apply in_map_iff. exists message. split; [reflexivity | exact Hin].
    + simpl. split; [reflexivity|].
      rewrite Hpayload. simpl. apply convertSchema_ref. exact Hpointer.
Qed.

Lemma component_message_pointer_kept_witness :
  map pm_name (extractAllMessages (Some sampleMessageRaw)
                 sampleMessageDocument) = ["OrderCreated"]
  /\ exists extracted,
       In extracted (extractAllMessages (Some sampleMessageRaw)
                       sampleMessageDocument)
       /\ pm_name extracted = "OrderCreated"
       /\ pm_payload extracted = refOnly orderPointer.
Proof.
  exact (component_message_pointer_kept (Some sampleMessageRaw)
           sampleMessageDocument
           (mkLComponents
              [mkLMessage "OrderCreated" None (Some sampleOrder) None] [])
           (mkLMessage "OrderCreated" None (Some sampleOrder) None)
           sampleOrder orderPointer eq_refl (or_introl eq_refl) eq_refl
           eq_refl).
Defined.

(** ** The command line *)

Ltac cli_cases cw input output enumType useUnknown :=
  unfold generateAction;
  destruct (validateInputPath (path_extname cw) input) as [?e|] eqn:?VI;
  [|destruct (validateOutputPath (path_extname cw) output) as [?e|] eqn:?VO;
    [|destruct (validateEnumType enumType) as [?e|] eqn:?VE;
      [|destruct (parse (cli_world cw) input) as [[?e|?parsed] ?trace] eqn:?PA;
        [|destruct (generator_generate cw
                      (mkGeneratorOptions (enumTypeOf enumType) true
                         useUnknown) parsed) as [?e|?text] eqn:?GE;
          [|destruct (fs_mkdir cw
                        (path_dirname cw
                           (path_resolve (cli_world cw) output)))
              as [?e|] eqn:?MK;
            [|destruct (fs_writeFile cw
                          (path_resolve (cli_world cw) output) text)
                as [?e|] eqn:?WR]]]]]];
  simpl.

(** X13: the [generate] command reads nothing and writes nothing before
    its three checks have passed: if it calls the extractor, creates a
    directory or writes a file, the input path, the output path and the
    enum type were valid; and if it creates a directory or writes a file,
    the document was parsed and the generator gave a text. *)
Theorem generate_command_checks_first
    (cw : CliWorld) (input output enumType : string) (useUnknown : bool)
    (Hacts :
       existsb (fun e => isParse e || isWrite e)
         (fst (generateAction cw input output enumType useUnknown)) = true) :
  validateInputPath (path_extname cw) input = None
  /\ validateOutputPath (path_extname cw) output = None
  /\ validateEnumType enumType = None
  /\ (existsb isWrite
        (fst (generateAction cw input output enumType useUnknown)) = true ->
      exists parsed text,
        fst (parse (cli_world cw) input) = inr parsed
        /\ generator_generate cw
             (mkGeneratorOptions (enumTypeOf enumType) true useUnknown)
             parsed = inr text).
Proof.
  revert Hacts.
  cli_cases cw input output enumType useUnknown;
    intros Hacts; try discriminate;
    repeat split; try reflexivity; intros Hw; try discriminate; eauto.
Qed.

Lemma generate_command_checks_first_witness :
  validateInputPath sampleExtname "../specs/API.YAML" = None
  /\ validateOutputPath sampleExtname "out/types.ts" = None
  /\ validateEnumType "union" = None.
Proof.
  destruct (generate_command_checks_first (sampleCliWorld None)
              "../specs/API.YAML" "out/types.ts" "union" true eq_refl)
    as [A [B [C _]]].
  auto.
Defined.

(** X14: the [generate] command ends with exit code 0 exactly when the
    three checks pass, the document is parsed, the generator gives a text,
    the directory of the resolved output path is created and the text is
    written to the resolved output path; these are then its only calls, in
    that order.  Every other run ends with exit code 1. *)
Theorem generate_command_exit_code
    (cw : CliWorld) (input output enumType : string) (useUnknown : bool) :
  (snd (generateAction cw input output enumType useUnknown) = 0 <->
   exists parsed text,
     validateInputPath (path_extname cw) input = None
     /\ validateOutputPath (path_extname cw) output = None
     /\ validateEnumType enumType = None
     /\ fst (parse (cli_world cw) input) = inr parsed
     /\ generator_generate cw
          (mkGeneratorOptions (enumTypeOf enumType) true useUnknown) parsed
        = inr text
     /\ fs_mkdir cw (path_dirname cw (path_resolve (cli_world cw) output))
        = None
     /\ fs_writeFile cw (path_resolve (cli_world cw) output) text = None
     /\ fst (generateAction cw input output enumType useUnknown)
        = [CliParse input (snd (parse (cli_world cw) input));
           CliMkdir (path_dirname cw (path_resolve (cli_world cw) output));
           CliWriteFile (path_resolve (cli_world cw) output) text])
  /\ (snd (generateAction cw input output enumType useUnknown) = 0
      \/ snd (generateAction cw input output enumType useUnknown) = 1).
Proof.
  cli_cases cw input output enumType useUnknown;
    (split; [split|auto]);
    try (intros H; discriminate H);
    try (intros [p [t H]]; decompose [and] H; clear H;
         simpl in *; congruence).
  intros _. exists parsed, text. simpl. rewrite GE, WR. auto 10.
Qed.

(** X15: the [validate] command creates no directory and writes no file,
    whatever the input; it ends with exit code 0 exactly when the input
    path is valid and the document is parsed. *)
Theorem validate_command_writes_nothing (cw : CliWorld) (input : string) :
  existsb isWrite (fst (validateAction cw input)) = false
  /\ (snd (validateAction cw input) = 0 <->
      validateInputPath (path_extname cw) input = None
      /\ exists parsed, fst (parse (cli_world cw) input) = inr parsed).
Proof.
  unfold validateAction.
  destruct (validateInputPath (path_extname cw) input) as [e|] eqn:VI;
    [|destruct (parse (cli_world cw) input) as [[e|parsed] trace] eqn:PA];
    simpl; (split; [reflexivity|]); split;
    try (intros H; discriminate H);
    try (intros [H [p Hp]]; discriminate); eauto.
Qed.

(** X16: what the three checks accept, for paths of ASCII characters.
    An input path passes exactly when it is not blank, has at most 4096
    characters (a path of exactly 4096 passes) and its extension is
    [.json], [.yml] or [.yaml] in any letter case; an output path likewise
    with the extension [.ts]; an enum type exactly when it is [enum] or
    [union] as written.  A blank path is reported as empty whatever else
    is wrong with it. *)
Theorem checks_accept_exactly
    (extname : string -> string) (path enumType : string)
    (Hpath : isAscii path = true)
    (Hextension : isAscii (extname path) = true) :
  (validateInputPath extname path = None <->
   isBlank path = false
   /\ String.length path <= MAX_PATH_LENGTH
   /\ In (toLowerCase (extname path)) ALLOWED_EXTENSIONS)
  /\ (validateOutputPath extname path = None <->
      isBlank path = false
      /\ String.length path <= MAX_PATH_LENGTH
      /\ toLowerCase (extname path) = ".ts")
  /\ (validateEnumType enumType = None <->
      enumType = "enum" \/ enumType = "union")
  /\ (isBlank path = true <->
      validateInputPath extname path
      = Some (Error "Input path cannot be empty")).
Proof.
  unfold validateInputPath, validateOutputPath, validateEnumType.
  repeat match goal with |- _ /\ _ => split end.
  - destruct (isBlank path); [intuition discriminate|].
    destruct (MAX_PATH_LENGTH <? String.length path)%nat eqn:L.
    + apply Nat.ltb_lt in L. split; [discriminate|]. intros [_ [H _]]. lia.
    + apply Nat.ltb_ge in L.
      destruct (mem (toLowerCase (extname path)) ALLOWED_EXTENSIONS) eqn:M;
        simpl.
      * apply mem_In in M. tauto.
      * split; [discriminate|]. intros [_ [_ H]].
        pose proof (proj2 (mem_In _ ALLOWED_EXTENSIONS) H) as M'.
        congruence.
  - destruct (isBlank path); [intuition discriminate|].
    destruct (MAX_PATH_LENGTH <? String.length path)%nat eqn:L.
    + apply Nat.ltb_lt in L. split; [discriminate|]. intros [_ [H _]]. lia.
    + apply Nat.ltb_ge in L.
      destruct (String.eqb (toLowerCase (extname path)) ".ts") eqn:M; simpl.
      * apply String.eqb_eq in M. tauto.
      * apply String.eqb_neq in M. split; [discriminate|]. tauto.
  - destruct (mem enumType ["enum"; "union"]) eqn:M; simpl.
    + apply mem_In in M. simpl in M. intuition.
    + split; [discriminate|]. intros H.
      assert (In enumType ["enum"; "union"]) as Hin
        by (simpl; intuition).
      pose proof (proj2 (mem_In _ _) Hin) as M'. congruence.
  - split.
    + intros H. rewrite H. reflexivity.
    + destruct (isBlank path); [reflexivity|].
      destruct (MAX_PATH_LENGTH <? String.length path)%nat;
        [discriminate|].
      destruct (negb (mem (toLowerCase (extname path)) ALLOWED_EXTENSIONS));
        discriminate.
Qed.

Lemma checks_accept_exactly_witness :
  validateInputPath sampleExtname "../specs/API.YAML" = None.
Proof.
  apply (proj1 (checks_accept_exactly sampleExtname "../specs/API.YAML"
                  "union" eq_refl eq_refl)).
  repeat split; [unfold MAX_PATH_LENGTH; simpl; lia | simpl; auto].
Defined.

(** ** Messages of channels and the shape of a converted node *)

(** X17: the payload of a message of a channel is converted without the
    raw document: a node found in it, at any depth, has a [$ref] only if
    the resolved schema shows a non-empty one at the same place. *)
Theorem channel_message_payload_has_no_raw_pointer
    (channel : LChannel) (extracted : ParsedMessage) (path : list Step)
    (node : SchemaObject)
    (Hin : In extracted (extractMessagesFromChannel channel))
    (Hnode : extractedAt (pm_payload extracted) path = Some node) :
  exists message,
    In message (c_messages channel)
    /\ pm_name extracted = m_id message
    /\ match m_payload message with
       | Some payload =>
         exists child,
           resolvedAt payload path = Some child
           /\ so_ref node = keep_truthy (r_ref child)
       | None => node = emptySchema
       end.
Proof.
  unfold extractMessagesFromChannel in Hin. apply in_map_iff in Hin.
  destruct Hin as [message [E Hm]]. subst extracted.
  exists message. split; [exact Hm|]. split; [reflexivity|].
  simpl in Hnode. destruct (m_payload message) as [payload|]; simpl in Hnode.
  - destruct (convertSchema_at_inv path payload None node Hnode)
      as [c [Hc En]].
    exists c. split; [exact Hc|]. subst node. rewrite rawAt_none.
    destruct c. reflexivity.
  - destruct path as [|s rest]; simpl in Hnode.
    + inversion Hnode. reflexivity.
    + destruct s; discriminate.
Qed.

Lemma channel_message_payload_has_no_raw_pointer_witness :
  exists message,
    In message [mkLMessage "created" None (Some sampleOrder) None]
    /\ "created" = m_id message
    /\ match m_payload message with
       | Some payload =>
         exists child,
           resolvedAt payload [] = Some child
           /\ so_ref (convertSchema sampleOrder None)
              = keep_truthy (r_ref child)
       | None => convertSchema sampleOrder None = emptySchema
       end.
Proof.
  exact (channel_message_payload_has_no_raw_pointer
           (mkLChannel "orders" None None
              [mkLMessage "created" None (Some sampleOrder) None])
           (mkParsedMessage "created" None (convertSchema sampleOrder None)
              None)
           [] (convertSchema sampleOrder None) (or_introl eq_refl) eq_refl).
Defined.

Lemma length_mapi {A B : Type} (f : A -> nat -> B) l : forall i,
  length (mapi f l i) = length l.
Proof. induction l as [|x t IH]; simpl; intros i; [|rewrite IH]; reflexivity. Qed.

(** X18: a node converted where the raw document has no pointer keeps the
    shape of the resolved schema: the same property names in the same
    order, as many [allOf], [anyOf] and [oneOf] branches, the [required]
    and [enum] lists as they are, and the boolean of
    [additionalProperties]. *)
Theorem conversion_keeps_the_shape
    (schema : rschema) (raw : option json)
    (Hraw : raw_ref raw = None) :
  option_map (map fst) (so_properties (convertSchema schema raw))
  = option_map (map fst) (keep_nonempty (r_properties schema))
  /\ option_map (@length _) (so_allOf (convertSchema schema raw))
     = option_map (@length _) (r_allOf schema)
  /\ option_map (@length _) (so_anyOf (convertSchema schema raw))
     = option_map (@length _) (r_anyOf schema)
  /\ option_map (@length _) (so_oneOf (convertSchema schema raw))
     = option_map (@length _) (r_oneOf schema)
  /\ so_required (convertSchema schema raw) = keep_nonempty (r_required schema)
  /\ so_enum (convertSchema schema raw) = keep_nonempty (r_enum schema)
  /\ (forall b,
        r_additionalProperties schema = Some (inl b) ->
        so_additionalProperties (convertSchema schema raw) = Some (inl b)).
Proof.
  destruct schema as [ty de fo pr it rq en al an on rf ad].
  simpl. rewrite Hraw. simpl.
  repeat match goal with |- _ /\ _ => split end; try reflexivity.
  - destruct pr as [[|p t]|]; simpl; try reflexivity.
    rewrite map_map. reflexivity.
  - destruct al as [l|]; simpl; [rewrite length_mapi|]; reflexivity.
  - destruct an as [l|]; simpl; [rewrite length_mapi|]; reflexivity.
  - destruct on as [l|]; simpl; [rewrite length_mapi|]; reflexivity.
  - intros b H. rewrite H. reflexivity.
Qed.

Lemma conversion_keeps_the_shape_witness :
  option_map (map fst)
    (so_properties (convertSchema (rObject [("order", sampleOrder)]) None))
  = Some ["order"].
Proof.
  exact (proj1 (conversion_keeps_the_shape
                  (rObject [("order", sampleOrder)]) None eq_refl)).
Defined.

(** ** Schemas that refer to themselves *)

Lemma mapM_fails {A B : Type} (f : A -> option B) l x :
  In x l -> f x = None -> mapM f l = None.
Proof.
  induction l as [|y t IH]; simpl; intros Hin Hx; [contradiction|].
  destruct Hin as [->|Hin].
  - rewrite Hx. reflexivity.
  - rewrite (IH Hin Hx). destruct (f y); reflexivity.
Qed.

Lemma mapiM_fails {A B : Type} (f : A -> nat -> option B) l : forall i0 i x,
  nth_error l i = Some x -> f x (i0 + i) = None -> mapiM f l i0 = None.
Proof.
  induction l as [|y t IH]; intros i0 [|i] x Hn Hx; simpl in Hn;
    try discriminate; simpl.
  - inv_opt. rewrite Nat.add_0_r in Hx. rewrite Hx. reflexivity.
  - rewrite (IH (S i0) i x Hn); [destruct (f y i0); reflexivity|].
    rewrite Nat.add_succ_r in Hx. exact Hx.
Qed.

Lemma rawStep_none s : rawStep None s = None.
Proof. destruct s; reflexivity. Qed.

(** A conversion whose call for a schema below it does not return does
    not return. *)
Lemma visit_child_fails graph depth address raw s child :
  raw_ref raw = None ->
  graphStep graph address s = Some child ->
  visit graph depth child (rawStep raw s) = None ->
  visit graph (S depth) address raw = None.
Proof.
  intros R G F. cbn [visit]. rewrite R. cbv zeta.
  unfold graphStep in G.
  destruct (graph address) as [ty de fo pr it rq en al an on rf ad].
  cbn [g_properties g_items g_allOf g_anyOf g_oneOf g_additionalProperties
       g_type g_description g_format g_required g_enum g_ref] in *.
  destruct s as [key| |i|i|i|]; cbn [rawStep] in F.
  - destruct pr as [l|]; [|discriminate]. cbn [whenSome].
    rewrite (mapM_fails _ l (key, child)); [reflexivity| |].
    + apply assoc_In. exact G.
    + cbn [fst snd]. rewrite F. reflexivity.
  - subst it. cbn [whenSome]. rewrite F.
    destruct (whenSome _ pr); reflexivity.
  - destruct al as [l|]; [|discriminate]. cbn [nthOf] in G.
    cbn [whenSome].
    rewrite (mapiM_fails _ l 0 i child G F).
    destruct (whenSome _ pr); [|reflexivity].
    destruct (whenSome _ it); reflexivity.
  - destruct an as [l|]; [|discriminate]. cbn [nthOf] in G.
    cbn [whenSome].
    rewrite (mapiM_fails _ l 0 i child G F).
    destruct (whenSome _ pr); [|reflexivity].
    destruct (whenSome _ it); [|reflexivity].
    destruct (whenSome _ al); reflexivity.
  - destruct on as [l|]; [|discriminate]. cbn [nthOf] in G.
    cbn [whenSome].
    rewrite (mapiM_fails _ l 0 i child G F).
    destruct (whenSome _ pr); [|reflexivity].
    destruct (whenSome _ it); [|reflexivity].
    destruct (whenSome _ al); [|reflexivity].
    destruct (whenSome _ an); reflexivity.
  - destruct ad as [[b|x]|]; try discriminate. inv_opt. rewrite F.
    destruct (whenSome _ pr); [|reflexivity].
    destruct (whenSome _ it); [|reflexivity].
    destruct (whenSome _ al); [|reflexivity].
    destruct (whenSome _ an); [|reflexivity].
    destruct (whenSome _ on); reflexivity.
Qed.

Lemma graphAt_app graph p : forall address q,
  graphAt graph address (p ++ q)
  = match graphAt graph address p with
    | Some b => graphAt graph b q
    | None => None
    end.
Proof.
  induction p as [|s rest IH]; intros address q; simpl; [reflexivity|].
  destruct (graphStep graph address s); [apply IH | reflexivity].
Qed.

Lemma visit_cycle graph depth : forall address cycle,
  cycle <> [] ->
  graphAt graph address cycle = Some address ->
  visit graph depth address None = None.
Proof.
  induction depth as [|d IH]; intros address cycle Hne Hc; [reflexivity|].
  destruct cycle as [|s rest]; [contradiction|]. simpl in Hc.
  destruct (graphStep graph address s) as [c|] eqn:G; [|discriminate].
  apply (visit_child_fails graph d address None s c eq_refl G).
  rewrite rawStep_none. apply (IH c (rest ++ [s])).
  - destruct rest; discriminate.
  - rewrite graphAt_app, Hc. simpl. rewrite G. reflexivity.
Qed.

Lemma visit_reaches_cycle graph loop path : forall depth address,
  graphAt graph address path = Some loop ->
  (forall d, visit graph d loop None = None) ->
  visit graph depth address None = None.
Proof.
  induction path as [|s rest IH]; intros depth address Hp Hl.
  - simpl in Hp. inv_opt. apply Hl.
  - destruct depth as [|d]; [reflexivity|]. simpl in Hp.
    destruct (graphStep graph address s) as [c|] eqn:G; [|discriminate].
    apply (visit_child_fails graph d address None s c eq_refl G).
    rewrite rawStep_none. apply IH; assumption.
Qed.

(** X19: a payload of a message of a channel is converted without the raw
    document, so nothing stops the conversion at a pointer.  When the
    payload is, or holds at any depth, a schema that refers to itself,
    the conversion exhausts the call stack, and [parse] fails with the
    [RangeError], whatever the format of the source and however deep the
    stack. *)
Theorem recursive_payload_exhausts_the_stack
    (w : World) (filePath content : string) (document : GDocument)
    (diagnostics : list Diagnostic) (channel : GChannel) (msg : GMessage)
    (address loop : nat) (toLoop cycle : list Step)
    (Hread : readFile w filePath = inr content)
    (Hparser : parser_parse w content = (Some document, diagnostics))
    (Hvalid : forall d, In d diagnostics -> severity d <> 0)
    (Hchannel : In channel (gd_channels document))
    (Hmsg : In msg (gc_messages channel))
    (Hpayload : gm_payload msg = Some address)
    (HtoLoop : graphAt (gd_graph document) address toLoop = Some loop)
    (Hcycle : graphAt (gd_graph document) loop cycle = Some loop)
    (Hnonempty : cycle <> []) :
  fst (parse w filePath) = inl stackOverflow.
Proof.
  rewrite (parse_read _ _ _ Hread). rewrite Hparser. cbn [fst snd].
  assert (E : filter isError diagnostics = []).
  { apply filter_nil_iff. intros d Hd. apply Nat.eqb_neq.
    exact (Hvalid d Hd). }
  rewrite E.
  assert (V : visitDocument (stack_depth w) (JSON_parse w content) document
              = None).
  { unfold visitDocument.
    rewrite (mapM_fails _ (gd_channels document) channel Hchannel);
      [reflexivity|].
    unfold visitChannel.
    rewrite (mapM_fails _ (gc_messages channel) msg Hmsg); [reflexivity|].
    unfold visitMessage. rewrite Hpayload. cbn [whenSome].
    rewrite (visit_reaches_cycle _ loop toLoop _ _ HtoLoop);
      [reflexivity|].
    intros d. exact (visit_cycle _ d loop cycle Hnonempty Hcycle). }
  rewrite V. reflexivity.
Qed.

Lemma recursive_payload_exhausts_the_stack_witness :
  fst (parse (worldOf (Some (recursiveRaw
                               [("added",
                                 JObj [("payload",
                                        JObj [("$ref", JStr nodePointer)])])]))
                      (recursiveGDocument
                         [mkGMessage "added" None (Some 0) None])
                      regularFile [])
             "api.json")
  = inl stackOverflow.
Proof.
  refine (recursive_payload_exhausts_the_stack
            (worldOf (Some (recursiveRaw
                              [("added",
                                JObj [("payload",
                                       JObj [("$ref", JStr nodePointer)])])]))
                     (recursiveGDocument
                        [mkGMessage "added" None (Some 0) None])
                     regularFile [])
            "api.json" "{}"
            (recursiveGDocument [mkGMessage "added" None (Some 0) None])
            []
            (mkGChannel "nodes" (Some "nodes") None
               [mkGMessage "added" None (Some 0) None])
            (mkGMessage "added" None (Some 0) None)
            0 0 [] [AtProperty "next"]
            eq_refl eq_refl _ _ _ eq_refl eq_refl eq_refl _).
  - intros d [].
  - simpl. auto.
  - simpl. auto.
  - discriminate.
Defined.

(** The same schema, in a JSON source that uses it in no message: the
    pointer of the raw document ends the conversion, and [parse] gives the
    schema with the pointer in it.  In a source that [JSON.parse] rejects
    nothing ends it. *)
Example recursive_schema_in_json_and_yaml :
  option_map pa_schemas
    (parsedOf (worldOf (Some (recursiveRaw [])) (recursiveGDocument [])
                       regularFile []) "api.json")
  = Some [("Node",
           mkSchemaObject (Some "object")
             (Some [("next", refOnly nodePointer)])
             None None None None None None None None None
             (Some (inl true)))]
  /\ fst (parse (worldOf None (recursiveGDocument []) regularFile [])
                "api.yaml")
     = inl stackOverflow.
Proof. split; vm_compute; reflexivity. Qed.

(** ** Schemas that do not refer to themselves *)

Lemma mapM_total {A B : Type} (f : A -> option B) l :
  (forall x, In x l -> exists y, f x = Some y) ->
  exists ys, mapM f l = Some ys /\ length ys = length l.
Proof.
  induction l as [|x t IH]; simpl; intros H; [exists []; auto|].
  destruct (H x (or_introl eq_refl)) as [y E]. rewrite E.
  destruct IH as [ys [E' L]]; [intros z Hz; apply H; right; exact Hz|].
  rewrite E'. exists (y :: ys). simpl. rewrite L. auto.
Qed.

Lemma mapiM_total {A B : Type} (f : A -> nat -> option B) l : forall i,
  (forall x j, In x l -> exists y, f x j = Some y) ->
  exists ys, mapiM f l i = Some ys.
Proof.
  induction l as [|x t IH]; simpl; intros i H; [eauto|].
  destruct (H x i (or_introl eq_refl)) as [y E]. rewrite E.
  destruct (IH (S i)) as [ys E'];
    [intros z j Hz; apply H; right; exact Hz|].
  rewrite E'. eauto.
Qed.

(** A conversion comes back when the stack has room for the depth of the
    graph below the schema, whatever the raw document holds. *)
Lemma visit_total graph rank :
  wellFounded graph rank ->
  forall depth address raw,
    rank address < depth ->
    exists schema, visit graph depth address raw = Some schema.
Proof.
  intros WF. induction depth as [|d IH]; intros address raw Hr; [lia|].
  cbn [visit]. destruct (raw_ref raw); [eauto|]. cbv zeta.
  assert (C : forall c raw', In c (graphChildren (graph address)) ->
                exists schema, visit graph d c raw' = Some schema).
  { intros c raw' Hc. apply IH. specialize (WF address c Hc). lia. }
  unfold graphChildren in C.
  destruct (graph address) as [ty de fo pr it rq en al an on rf ad].
  cbn [g_properties g_items g_allOf g_anyOf g_oneOf g_additionalProperties
       g_type g_description g_format g_required g_enum g_ref] in *.
  assert (Pr : exists v,
            whenSome
              (mapM (fun entry : string * nat =>
                       match visit graph d (snd entry)
                               (jget (jget raw "properties") (fst entry))
                       with
                       | Some child => Some (fst entry, child)
                       | None => None
                       end)) pr = Some v).
  { destruct pr as [l|]; cbn [whenSome]; [|eauto].
    destruct (mapM_total
                (fun entry : string * nat =>
                   match visit graph d (snd entry)
                           (jget (jget raw "properties") (fst entry)) with
                   | Some child => Some (fst entry, child)
                   | None => None
                   end) l) as [ys [E _]].
    - intros [k c] Hin. cbn [fst snd].
      destruct (C c (jget (jget raw "properties") k)) as [x E].
      + apply in_or_app. left. apply (in_map snd _ _ Hin).
      + rewrite E. eauto.
    - rewrite E. eauto. }
  destruct Pr as [v1 E1]. rewrite E1.
  assert (It : exists v,
            whenSome (fun a => visit graph d a (jget raw "items")) it
            = Some v).
  { destruct it as [a|]; cbn [whenSome]; [|eauto].
    destruct (C a (jget raw "items")) as [x E].
    - apply in_or_app. right. apply in_or_app. left. left. reflexivity.
    - rewrite E. eauto. }
  destruct It as [v2 E2]. rewrite E2.
  assert (Br : forall field l,
            (forall c, In c (match l with Some l => l | None => [] end) ->
                       In c (match pr with
                             | Some l => map snd l
                             | None => []
                             end
                             ++ match it with Some x => [x] | None => [] end
                             ++ match al with Some l => l | None => [] end
                             ++ match an with Some l => l | None => [] end
                             ++ match on with Some l => l | None => [] end
                             ++ match ad with
                                | Some (inr x) => [x]
                                | _ => []
                                end)%list) ->
            exists v,
              whenSome
                (fun l =>
                   mapiM (fun a i =>
                            visit graph d a (jidx (jget raw field) i)) l 0)
                l = Some v).
  { intros field [l|] Hl; cbn [whenSome]; [|eauto].
    destruct (mapiM_total
                (fun a i => visit graph d a (jidx (jget raw field) i)) l 0)
      as [ys E].
    - intros x j Hx. apply C. apply Hl. exact Hx.
    - rewrite E. eauto. }
  destruct (Br "allOf" al) as [v3 E3].
  { intros c Hc. rewrite !in_app_iff. tauto. }
  rewrite E3.
  destruct (Br "anyOf" an) as [v4 E4].
  { intros c Hc. rewrite !in_app_iff. tauto. }
  rewrite E4.
  destruct (Br "oneOf" on) as [v5 E5].
  { intros c Hc. rewrite !in_app_iff. tauto. }
  rewrite E5.
  destruct ad as [[b|a]|]; [eauto| |eauto].
  destruct (C a (jget raw "additionalProperties")) as [x E].
  - rewrite !in_app_iff. simpl. tauto.
  - rewrite E. eauto.
Qed.

Lemma visitMessage_total graph rank depth rawPayload rawHeaders msg :
  wellFounded graph rank -> (forall a, rank a < depth) ->
  exists visited,
    visitMessage graph depth rawPayload rawHeaders msg = Some visited.
Proof.
  intros WF Hd. unfold visitMessage.
  assert (V : forall raw v,
            exists x,
              whenSome (fun a => visit graph depth a raw) v = Some x).
  { intros raw [a|]; cbn [whenSome]; [|eauto].
    destruct (visit_total graph rank WF depth a raw (Hd a)) as [x E].
    rewrite E. eauto. }
  destruct (V rawPayload (gm_payload msg)) as [x E]. rewrite E.
  destruct (V rawHeaders (gm_headers msg)) as [y E']. rewrite E'. eauto.
Qed.

Lemma visitDocument_total rank depth rawSpec document :
  wellFounded (gd_graph document) rank -> (forall a, rank a < depth) ->
  exists visited,
    visitDocument depth rawSpec document = Some visited
    /\ length (d_channels visited) = length (gd_channels document).
Proof.
  intros WF Hd. unfold visitDocument. cbv zeta.
  destruct (mapM_total (visitChannel (gd_graph document) depth)
              (gd_channels document)) as [cs [E1 L1]].
  { intros c _. unfold visitChannel.
    destruct (mapM_total
                (visitMessage (gd_graph document) depth None None)
                (gc_messages c)) as [ms [E _]].
    - intros m _. eapply visitMessage_total; eauto.
    - rewrite E. eauto. }
  rewrite E1.
  destruct (mapM_total
              (visitOperation (gd_graph document) depth
                 (map gc_id (gd_channels document)))
              (gd_operations document)) as [os [E2 _]].
  { intros o _. unfold visitOperation.
    assert (exists ms,
              match firstChannelOf o with
              | Some id =>
                if existsb (String.eqb id) (map gc_id (gd_channels document))
                then mapM (visitMessage (gd_graph document) depth None None)
                          (go_messages o)
                else Some []
              | None => Some []
              end = Some ms) as [ms E].
    { destruct (firstChannelOf o) as [id|]; [|eauto].
      destruct (existsb (String.eqb id) (map gc_id (gd_channels document)));
        [|eauto].
      destruct (mapM_total
                  (visitMessage (gd_graph document) depth None None)
                  (go_messages o)) as [ms [E _]].
      - intros m _. eapply visitMessage_total; eauto.
      - eauto. }
    rewrite E. eauto. }
  rewrite E2.
  assert (exists cv,
            whenSome (visitComponents (gd_graph document) depth rawSpec)
                     (gd_components document) = Some cv) as [cv E3].
  { destruct (gd_components document) as [c|]; cbn [whenSome]; [|eauto].
    unfold visitComponents.
    destruct (mapM_total
                (fun msg =>
                   visitMessage (gd_graph document) depth
                     (jget (rawComponent rawSpec "messages" (gm_id msg))
                           "payload")
                     (jget (rawComponent rawSpec "messages" (gm_id msg))
                           "headers") msg)
                (gcomp_messages c)) as [ms [E _]].
    { intros m _. eapply visitMessage_total; eauto. }
    cbv zeta. rewrite E.
    destruct (mapM_total
                (fun entry : string * nat =>
                   match visit (gd_graph document) depth (snd entry)
                           (rawComponent rawSpec "schemas" (fst entry)) with
                   | Some schema => Some (fst entry, schema)
                   | None => None
                   end)
                (gcomp_schemas c)) as [ss [E' _]].
    { intros [k a] _. cbn [fst snd].
      destruct (visit_total _ rank WF depth a
                  (rawComponent rawSpec "schemas" k) (Hd a)) as [x Ex].
      rewrite Ex. eauto. }
    rewrite E'. eauto. }
  rewrite E3. eexists. split; [reflexivity|]. exact L1.
Qed.

(** X20: a document in which no schema refers to itself is extracted,
    whatever the format of the source, when the stack has room for the
    depth of its schemas: with no error among the diagnostics [parse]
    gives a document, with the title and the version of the source and as
    many channels. *)
Theorem acyclic_document_is_extracted
    (w : World) (filePath content : string) (document : GDocument)
    (diagnostics : list Diagnostic) (rank : nat -> nat)
    (Hread : readFile w filePath = inr content)
    (Hparser : parser_parse w content = (Some document, diagnostics))
    (Hvalid : forall d, In d diagnostics -> severity d <> 0)
    (Hacyclic : wellFounded (gd_graph document) rank)
    (Hroom : forall a, rank a < stack_depth w) :
  exists parsed,
    fst (parse w filePath) = inr parsed
    /\ pa_title parsed = gd_title document
    /\ pa_version parsed = gd_version document
    /\ length (pa_channels parsed) = length (gd_channels document).
Proof.
  rewrite (parse_read _ _ _ Hread). rewrite Hparser. cbn [fst snd].
  assert (E : filter isError diagnostics = []).
  { apply filter_nil_iff. intros d Hd. apply Nat.eqb_neq.
    exact (Hvalid d Hd). }
  rewrite E.
  destruct (visitDocument_total rank (stack_depth w) (JSON_parse w content)
              document Hacyclic Hroom) as [visited [V L]].
  rewrite V. eexists. split; [reflexivity|].
  unfold visitDocument in V.
  repeat match type of V with
         | match ?x with _ => _ end = _ => destruct x; [|discriminate]
         end.
  inversion V. subst visited. simpl in *.
  unfold extractChannels. simpl. rewrite length_map.
  repeat split. exact L.
Qed.

Lemma acyclic_document_is_extracted_witness :
  exists parsed,
    fst (parse (sampleWorld regularFile [mkDiagnostic 1 "w"]) "api.json")
    = inr parsed
    /\ pa_title parsed = "Sample"
    /\ pa_version parsed = "1.0.0"
    /\ length (pa_channels parsed) = 1.
Proof.
  refine (acyclic_document_is_extracted
            (sampleWorld regularFile [mkDiagnostic 1 "w"]) "api.json" "{}"
            sampleGDocument [mkDiagnostic 1 "w"] sampleRank
            eq_refl eq_refl _ _ _).
  - intros d [<-|[]]. discriminate.
  - intros [|[|a]] c; simpl; intros H;
      repeat (destruct H as [<-|H]; [simpl; lia|]); destruct H.
  - intros [|[|a]]; simpl; lia.
Defined.
